(** * Corridor of Memory: the avatar scene of [src/main.js]

    A shallow embedding of the parts of [main.js] that carry state across
    asynchronous boundaries or across frames:

    - the simplex noise generator ([SimplexNoise], [noise2D]),
    - the palette switch ([applyPalette]) and the render loop ([animate]),
    - the audio buffer cache ([loadAudioBuffer]),
    - the two token-guarded switches ([switchAnimation], [switchAudio]),
    - the avatar acquisition ([ensureGvrmModule], [loadSimpleVRMFromGvrm],
      [loadGvrmAvatar]) and the avatar part of [init],
    - the page on top of these: the buttons ([registerButtons],
      [setActiveButton], [updateAnimationButtonState]), the handlers,
      [setupAudio], [init] and the [pointerdown] listener.

    JavaScript numbers that take part in floating-point arithmetic are
    binary64 values ([PrimFloat.float]); indices, counters and typed-array
    cells are integers ([Z]), which the doubles of the source represent
    exactly below 2^53.

    An [async] function is cut at its [await]s.  The part up to the first
    [await] on a pending promise runs when the function is called; the
    locals it needs later are kept in a suspended call; an event (the
    loader settles, [changeFBX] settles, the audio context settles)
    resumes the suspended calls that wait for it, in the order in which
    they were suspended.  Between two events nothing else runs, as on a
    single-threaded event loop.  An [await] on a promise that is already
    settled continues within the same step.

    What the model takes from the libraries and the page:
    - rejection reasons and thrown values are [Error] objects;
    - a loaded GVRM instance has the [position] and [scale] members the
      script writes;
    - the DOM elements the script styles are there;
    - the [pointerdown] listener and [setupAudio], which calls
      [switchAudio(desiredAudioIndex)], are not part of the session
      ([Session]); the page ([Page]) adds them;
    - the page takes an avatar acquisition as one step, at the moment
      at which it settles. *)

From Stdlib Require Import ZArith List Bool Lia Floats Uint63.
From stdpp Require Import base option list strings pretty gmap.

#[local] Set Warnings "-inexact-float".
#[local] Open Scope Z_scope.

(* ===================================================================== *)
(** * JavaScript values *)
(* ===================================================================== *)

Module Js.

(** A thrown JavaScript error. *)
Inductive JsError := TypeError (msg : string) | Error (msg : string).

(** An integer as a double; exact for |z| < 2^53. *)
Definition ofZ (z : Z) : float :=
  match z with
  | Z0 => 0%float
  | Zpos _ => PrimFloat.of_uint63 (Uint63.of_Z z)
  | Zneg p => (- PrimFloat.of_uint63 (Uint63.of_Z (Zpos p)))%float
  end.

(** The integer part of a double, rounded toward zero; 0 for NaN and the
    infinities (the first steps of ToInt32). *)
Definition truncZ (x : float) : Z :=
  match Prim2SF x with
  | S754_finite s m e =>
      let mag := if 0 <=? e then Z.shiftl (Zpos m) e
                 else Z.shiftr (Zpos m) (- e) in
      if s then - mag else mag
  | _ => 0
  end.

(** [Math.floor]. *)
Definition floor (x : float) : float :=
  match Prim2SF x with
  | S754_finite s m e =>
      if 0 <=? e then x
      else
        let q := Z.shiftr (Zpos m) (- e) in
        let exact := Z.shiftl q (- e) =? Zpos m in
        if s then ofZ (- (if exact then q else q + 1)) else ofZ q
  | _ => x
  end.

(** ToInt32: the integer part modulo 2^32, read as a signed 32-bit
    integer. *)
Definition toInt32 (x : float) : Z :=
  let r := truncZ x mod 4294967296 in
  if r <? 2147483648 then r else r - 4294967296.

(** The [%] operator on doubles: the exact remainder, with the sign of
    the dividend. *)
Definition fmod (x y : float) : float :=
  match Prim2SF x, Prim2SF y with
  | S754_nan, _ | _, S754_nan => nan
  | S754_infinity _, _ => nan
  | _, S754_zero _ => nan
  | S754_zero _, _ => x
  | S754_finite _ _ _, S754_infinity _ => x
  | S754_finite sx mx ex, S754_finite _ my ey =>
      let e := Z.min ex ey in
      let X := Z.shiftl (Zpos mx) (ex - e) in
      let Y := Z.shiftl (Zpos my) (ey - e) in
      let r := Z.ldexp (ofZ (X mod Y)) e in
      if sx then (- r)%float else r
  end.

(** [THREE.MathUtils.clamp(value, min, max)], which three.js defines as
    [Math.max(min, Math.min(max, value))]; of two zeros [Math.min]
    returns the negative one and [Math.max] the positive one. *)
Definition jsMin (a b : float) : float :=
  if PrimFloat.is_nan a || PrimFloat.is_nan b then nan
  else if PrimFloat.ltb b a then b
  else if PrimFloat.ltb a b then a
  else if PrimFloat.get_sign a then a else b.

Definition jsMax (a b : float) : float :=
  if PrimFloat.is_nan a || PrimFloat.is_nan b then nan
  else if PrimFloat.ltb a b then b
  else if PrimFloat.ltb b a then a
  else if PrimFloat.get_sign a then b else a.

Definition clamp (value mn mx : float) : float :=
  jsMax mn (jsMin mx value).

(** An array index given as a double: an integral value in [0, len). *)
Definition arrayIndex (n : float) (len : nat) : option nat :=
  if PrimFloat.eqb (floor n) n then
    let z := truncZ n in
    if (0 <=? z) && (z <? Z.of_nat len) &&
       negb (PrimFloat.eqb (PrimFloat.abs n) infinity)
    then Some (Z.to_nat z) else None
  else None.

End Js.

(* ===================================================================== *)
(** * The simplex noise generator *)
(* ===================================================================== *)

Module Noise.
Import Js.

(** A [Uint8Array]: its cells, each in [0, 255]. *)
Abbreviation Uint8Array := (list Z).

(** Reading a typed array: [None] is [undefined]. *)
Definition readAt (a : Uint8Array) (k : Z) : option Z :=
  if 0 <=? k then a !! Z.to_nat k else None.

(** [a[n]] for a double [n], as stored back into a [Uint8Array]:
    [undefined] is stored as 0. *)
Definition readCell (a : Uint8Array) (n : float) : Z :=
  match arrayIndex n (length a) with
  | Some k => default 0 (a !! k)
  | None => 0
  end.

(** [a[n] = v] for a double [n]: a write outside the array is dropped. *)
Definition writeCell (a : Uint8Array) (n : float) (v : Z) : Uint8Array :=
  match arrayIndex n (length a) with
  | Some k => <[k := v]> a
  | None => a
  end.

(** Every cell is a byte. *)
Definition bytes (a : Uint8Array) : Prop :=
  List.Forall (fun v => 0 <= v < 256) a.

(** The object built by [new SimplexNoise(seed)]. *)
Record SimplexNoise := { perm : Uint8Array }.

(** [for (let i = 0; i < 256; i++) p[i] = i]. *)
Definition identityTable : Uint8Array := map Z.of_nat (seq 0 256).

(** One turn of the shuffle loop, at loop index [i]. *)
Definition shuffleStep (seed : float) (i : nat) (p : Uint8Array)
  : Uint8Array :=
  let n := floor (fmod (seed * 1e4 + ofZ (Z.of_nat i))%float
                       (ofZ (Z.of_nat i + 1))) in
  let q := default 0 (p !! i) in
  let p1 := <[i := readCell p n]> p in
  writeCell p1 n q.

(** [for (let i = k; i > 0; i--) ...]. *)
Fixpoint shuffleFrom (seed : float) (k : nat) (p : Uint8Array)
  : Uint8Array :=
  match k with
  | O => p
  | S k' => shuffleFrom seed k' (shuffleStep seed k p)
  end.

(** [this.perm[i] = p[i & 255]] for [i] in [0, 512). *)
Definition doubled (p : Uint8Array) : Uint8Array :=
  map (fun i => default 0 (p !! Z.to_nat (Z.land (Z.of_nat i) 255)))
      (seq 0 512).

(** The constructor; [seed] is [Math.random()] at the only call site. *)
Definition newSimplexNoise (seed : float) : SimplexNoise :=
  {| perm := doubled (shuffleFrom seed 255 identityTable) |}.

Definition grad3 : list Z :=
  [ 1; 1; 0; -1; 1; 0; 1; -1; 0; -1; -1; 0;
    1; 0; 1; -1; 0; 1; 1; 0; -1; -1; 0; -1;
    0; 1; 1; 0; -1; 1; 0; 1; -1; 0; -1; -1 ].

(** [grad3[k]] as a double; [undefined] takes part in arithmetic as NaN. *)
Definition gradAt (k : Z) : float :=
  match readAt grad3 k with
  | Some g => ofZ g
  | None => nan
  end.

Definition F2 : float := (0.5 * (PrimFloat.sqrt 3 - 1))%float.
Definition G2 : float := ((3 - PrimFloat.sqrt 3) / 6)%float.

(** [perm[a + perm[b]] % 12]. *)
Definition gradIndex (perm : Uint8Array) (a b : Z) : option Z :=
  pb ← readAt perm b;
  v ← readAt perm (a + pb);
  Some (v mod 12).

(** The contribution of one corner. *)
Definition corner (gi : option Z) (x y : float) : float :=
  let t := (0.5 - x * x - y * y)%float in
  if PrimFloat.ltb t 0 then 0%float
  else
    let t2 := (t * t)%float in
    match gi with
    | Some g => (t2 * t2 * (gradAt (g * 3) * x + gradAt (g * 3 + 1) * y))%float
    | None => nan
    end.

Definition noise2D (self : SimplexNoise) (x y : float) : float :=
  let perm := perm self in
  let s := ((x + y) * F2)%float in
  let i := floor (x + s) in
  let j := floor (y + s) in
  let t := ((i + j) * G2)%float in
  let X0 := (i - t)%float in
  let Y0 := (j - t)%float in
  let x0 := (x - X0)%float in
  let y0 := (y - Y0)%float in
  let '(i1, j1) := if PrimFloat.ltb y0 x0 then (1, 0) else (0, 1) in
  let x1 := (x0 - ofZ i1 + G2)%float in
  let y1 := (y0 - ofZ j1 + G2)%float in
  let x2 := (x0 - 1 + 2 * G2)%float in
  let y2 := (y0 - 1 + 2 * G2)%float in
  let ii := Z.land (toInt32 i) 255 in
  let jj := Z.land (toInt32 j) 255 in
  let gi0 := gradIndex perm ii jj in
  let gi1 := gradIndex perm (ii + i1) (jj + j1) in
  let gi2 := gradIndex perm (ii + 1) (jj + 1) in
  let n0 := corner gi0 x0 y0 in
  let n1 := corner gi1 x1 y1 in
  let n2 := corner gi2 x2 y2 in
  (70 * (n0 + n1 + n2))%float.

End Noise.

(* ===================================================================== *)
(** * Palettes and the render loop *)
(* ===================================================================== *)

Module Render.
Import Js.

(** The [colors] object of a palette.  The fields the code reads through
    [??] may be absent. *)
Record Colors := {
  auroraA : string;
  auroraB : string;
  glow : option float;
  halo : string;
  haloOpacity : option float;
  overlay : string;
  background : string;
  floorEmissive : string;
  floorEmissiveIntensity : option float;
  key : string;
  keyIntensity : option float;
  rim : string;
  rimIntensity : option float;
  hemiSky : string;
  hemiGround : string;
  fog : string
}.

Record PaletteOption := { label : string; colors : Colors }.

Definition auroraBloom : PaletteOption :=
  {| label := "Aurora Bloom";
     colors := {|
       auroraA := "#2077ff"; auroraB := "#ff5bd1"; glow := Some 1.0%float;
       halo := "#1e6bff"; haloOpacity := Some 0.12%float;
       overlay := "rgba(33, 136, 255, 0.24)";
       background := "radial-gradient(circle at center, #0c1024 0%, #040614 42%, #010106 100%)";
       floorEmissive := "#0b1835"; floorEmissiveIntensity := Some 0.6%float;
       key := "#4aa8ff"; keyIntensity := None;
       rim := "#ff4d9d"; rimIntensity := None;
       hemiSky := "#87b9ff"; hemiGround := "#050505"; fog := "#040712" |} |}.

Definition crimsonPulse : PaletteOption :=
  {| label := "Crimson Pulse";
     colors := {|
       auroraA := "#ff6a88"; auroraB := "#ffc371"; glow := Some 1.25%float;
       halo := "#ff945a"; haloOpacity := Some 0.16%float;
       overlay := "rgba(255, 118, 90, 0.24)";
       background := "radial-gradient(circle at center, #1f0410 0%, #11000c 45%, #030005 100%)";
       floorEmissive := "#270d16"; floorEmissiveIntensity := Some 0.75%float;
       key := "#ff9f6b"; keyIntensity := None;
       rim := "#ff3d7f"; rimIntensity := None;
       hemiSky := "#ffe1b5"; hemiGround := "#22030a"; fog := "#19050d" |} |}.

Definition deepTide : PaletteOption :=
  {| label := "Deep Tide";
     colors := {|
       auroraA := "#2bd5c5"; auroraB := "#3f7bff"; glow := Some 0.92%float;
       halo := "#38c7c9"; haloOpacity := Some 0.14%float;
       overlay := "rgba(75, 180, 255, 0.2)";
       background := "radial-gradient(circle at center, #021620 0%, #00101b 45%, #00050d 100%)";
       floorEmissive := "#061c24"; floorEmissiveIntensity := Some 0.68%float;
       key := "#3fafff"; keyIntensity := None;
       rim := "#2fffd2"; rimIntensity := None;
       hemiSky := "#4dd0ff"; hemiGround := "#021318"; fog := "#021018" |} |}.

Definition paletteOptions : list PaletteOption :=
  [auroraBloom; crimsonPulse; deepTide].

(** [paletteOptions[index]]: [None] is [undefined]. *)
Definition paletteAt (index : Z) : option PaletteOption :=
  if 0 <=? index then paletteOptions !! Z.to_nat index else None.

(** What [applyPalette] writes into the materials, the lights, the fog,
    the renderer and the two styled DOM elements. *)
Record Look := {
  uColorA : string;
  uColorB : string;
  uGlow : float;
  haloColor : string;
  floorMatEmissive : string;
  floorMatEmissiveIntensity : float;
  keyLightColor : string;
  keyLightIntensity : float;
  rimLightColor : string;
  rimLightIntensity : float;
  hemiLightColor : string;
  hemiLightGroundColor : string;
  fogColor : string;
  clearColor : string;
  bodyBackground : string;
  overlayBackground : string
}.

Record Vector2 := { vx : float; vy : float }.

(** What [animate] writes each frame.  The three overlay fields hold the
    numbers that [updateOverlay] formats into the style of the overlay
    element; they are unset before the first frame. *)
Record Motion := {
  timeAccumulator : float;
  cursorLerp : Vector2;
  cursorMagnitude : float;
  auroraRotationY : float;
  auroraPositionY : float;
  uCursor : Vector2;
  uTime : float;
  uIntensity : float;
  haloRotationZ : float;
  avatarRotationY : float;
  avatarUpdates : list float;
  overlayCursorX : option float;
  overlayCursorY : option float;
  overlayOpacity : option float;
  framesRendered : nat
}.

(** The module-level variables of the scene. *)
Record Stage := {
  simplex : Noise.SimplexNoise;
  look : Look;
  currentPaletteIndex : Z;
  haloBaseOpacity : float;
  haloMaterialOpacity : float;
  cursor : Vector2;
  motion : Motion
}.

Definition lookOf (palette : Colors) : Look :=
  {| uColorA := auroraA palette;
     uColorB := auroraB palette;
     uGlow := default 1.0%float (glow palette);
     haloColor := halo palette;
     floorMatEmissive := floorEmissive palette;
     floorMatEmissiveIntensity :=
       default 0.6%float (floorEmissiveIntensity palette);
     keyLightColor := key palette;
     keyLightIntensity := default 1.35%float (keyIntensity palette);
     rimLightColor := rim palette;
     rimLightIntensity := default 0.8%float (rimIntensity palette);
     hemiLightColor := hemiSky palette;
     hemiLightGroundColor := hemiGround palette;
     fogColor := fog palette;
     clearColor := fog palette;
     bodyBackground := background palette;
     overlayBackground :=
       String.append
         "radial-gradient(circle at var(--cursor-x, 50%) var(--cursor-y, 50%), "
         (String.append (overlay palette) ", transparent 45%)") |}.

(** [paletteOptions[index]?.colors ?? paletteOptions[0].colors]; reading
    [.colors] of a missing first entry would throw. *)
Definition selectColors (index : Z) : JsError + Colors :=
  match paletteAt index with
  | Some o => inr (colors o)
  | None =>
      match paletteAt 0 with
      | Some o => inr (colors o)
      | None => inl (TypeError "paletteOptions[0] is undefined")
      end
  end.

Definition applyPalette (index : Z) (st : Stage) : JsError + Stage :=
  match selectColors index with
  | inl e => inl e
  | inr palette =>
      let base := default 0.12%float (haloOpacity palette) in
      inr {| simplex := simplex st;
             look := lookOf palette;
             currentPaletteIndex := index;
             haloBaseOpacity := base;
             haloMaterialOpacity := base;
             cursor := cursor st;
             motion := motion st |}
  end.

(** The [pointermove] listener. *)
Definition pointermove (nx ny : float) (st : Stage) : Stage :=
  {| simplex := simplex st;
     look := look st;
     currentPaletteIndex := currentPaletteIndex st;
     haloBaseOpacity := haloBaseOpacity st;
     haloMaterialOpacity := haloMaterialOpacity st;
     cursor := {| vx := nx; vy := ny |};
     motion := motion st |}.

(** [THREE.MathUtils.lerp] and the two [Vector2] methods the loop uses,
    as three.js defines them. *)
Definition lerp (x y t : float) : float := ((1 - t) * x + t * y)%float.

Definition vlerp (a v : Vector2) (alpha : float) : Vector2 :=
  {| vx := (vx a + (vx v - vx a) * alpha)%float;
     vy := (vy a + (vy v - vy a) * alpha)%float |}.

Definition vlength (v : Vector2) : float :=
  PrimFloat.sqrt (vx v * vx v + vy v * vy v)%float.

(** What one frame reads from outside the script: the clock, the
    analyser (when [audioAnalyser] is set) and the shape of the avatar. *)
Record Frame := {
  delta : float;
  averageFrequency : option float;
  avatarUpdatable : bool;
  avatarHasRotation : bool
}.

(** The halo opacity expression of the loop, in the base opacity and the
    amplitude sample [pulse]. *)
Definition haloOpacityAt (base pulse : float) : float :=
  clamp (base * (0.7 + pulse * 0.6))%float 0.02%float 0.6%float.

Section Animate.
(** [Math.sin], which the platform supplies. *)
Variable sin : float -> float.

Definition pulseOf (fr : Frame) (time : float) : float :=
  match averageFrequency fr with
  | Some avg => clamp (avg / 128)%float 0.2%float 1.8%float
  | None => (0.4 + sin (time * 1.2) * 0.2)%float
  end.

Definition animate (fr : Frame) (st : Stage) : Stage :=
  let m := motion st in
  let time := (timeAccumulator m + delta fr)%float in
  let cl := vlerp (cursorLerp m) (cursor st) 0.08%float in
  let mag := lerp (cursorMagnitude m) (vlength (cursor st)) 0.05%float in
  let pulse := pulseOf fr time in
  let drift :=
    (Noise.noise2D (simplex st) (time * 0.08) (vx cl * 2.2) * 0.4)%float in
  let updated := avatarUpdatable fr in
  let sway := (sin (time * 0.6) * 0.12)%float in
  {| simplex := simplex st;
     look := look st;
     currentPaletteIndex := currentPaletteIndex st;
     haloBaseOpacity := haloBaseOpacity st;
     haloMaterialOpacity := haloOpacityAt (haloBaseOpacity st) pulse;
     cursor := cursor st;
     motion :=
       {| timeAccumulator := time;
          cursorLerp := cl;
          cursorMagnitude := mag;
          auroraRotationY := (drift * 0.3)%float;
          auroraPositionY := (0.2 + drift * 0.18)%float;
          uCursor := cl;
          uTime := time;
          uIntensity := (0.45 + pulse * 0.4)%float;
          haloRotationZ := (haloRotationZ m + delta fr * 0.12)%float;
          avatarRotationY :=
            if updated && avatarHasRotation fr
            then (sway + vx cl * 0.25)%float
            else avatarRotationY m;
          avatarUpdates :=
            if updated then avatarUpdates m ++ [delta fr]
            else avatarUpdates m;
          overlayCursorX := Some ((vx cl * 0.5 + 0.5) * 100)%float;
          overlayCursorY := Some ((vy cl * -0.5 + 0.5) * 100)%float;
          overlayOpacity :=
            Some (0.6 + (pulse * 0.6 + mag * 0.3) * 0.4)%float;
          framesRendered := S (framesRendered m) |} |}.

End Animate.

(** A call of [simplex.noise2D(x, y)] against the module-level
    variables: the value it returns and the variables after it. *)
Definition callNoise2D (x y : float) (st : Stage) : float * Stage :=
  (Noise.noise2D (simplex st) x y, st).

(** The scene variables once the module body has run: the materials are
    built from the first palette, [applyPalette(0)] has been called, and
    no frame has written the overlay yet. *)
Definition initial (seed : float) : Stage :=
  let origin := {| vx := 0%float; vy := 0%float |} in
  let first := colors auroraBloom in
  {| simplex := Noise.newSimplexNoise seed;
     look := lookOf first;
     currentPaletteIndex := 0;
     haloBaseOpacity := default 0.12%float (haloOpacity first);
     haloMaterialOpacity := default 0.12%float (haloOpacity first);
     cursor := origin;
     motion :=
       {| timeAccumulator := 0%float;
          cursorLerp := origin;
          cursorMagnitude := 0%float;
          auroraRotationY := 0%float;
          auroraPositionY := 0%float;
          uCursor := origin;
          uTime := 0%float;
          uIntensity := 0.6%float;
          haloRotationZ := 0%float;
          avatarRotationY := 0%float;
          avatarUpdates := [];
          overlayCursorX := None;
          overlayCursorY := None;
          overlayOpacity := None;
          framesRendered := 0 |} |}.

End Render.


(* ===================================================================== *)
(** * The audio buffer cache *)
(* ===================================================================== *)

Module AudioCache.
Import Js.

(** A decoded audio payload, as handed over by [THREE.AudioLoader]. *)
Inductive AudioBuffer := Decoded (payload : nat).

(** The state of a promise of a decoded buffer. *)
Inductive PromiseState :=
| Pending
| Fulfilled (buffer : AudioBuffer)
| Rejected (reason : JsError).

(** [audioState.buffers], the promises it maps to, and the calls of
    [audioState.loader.load] made so far.  A promise is named by its
    position in [promises]; a loader call is paired with the
    [bufferPromise] that its callbacks settle. *)
Record Cache := {
  buffers : gmap string nat;
  promises : list PromiseState;
  loads : list (string * nat)
}.

Definition empty : Cache :=
  {| buffers := ∅; promises := []; loads := [] |}.

(** [loadAudioBuffer(url)]: the promise returned and the cache after the
    call. *)
Definition loadAudioBuffer (url : string) (c : Cache) : nat * Cache :=
  match buffers c !! url with
  | Some p => (p, c)
  | None =>
      let bufferPromise := length (promises c) in
      (bufferPromise,
       {| buffers := <[url := bufferPromise]> (buffers c);
          promises := promises c ++ [Pending];
          loads := loads c ++ [(url, bufferPromise)] |})
  end.

(** The url of the loader call whose callbacks settle promise [p]. *)
Definition urlOf (p : nat) (c : Cache) : option string :=
  fst <$> List.find (fun l => Nat.eqb (snd l) p) (loads c).

(** The loader calls [resolve(buffer)]: the [then] callback stores
    [Promise.resolve(buffer)], a new fulfilled promise, under the url,
    and [bufferPromise] is fulfilled with the buffer.  The call does
    nothing when the promise is already settled. *)
Definition loaderResolves (p : nat) (buffer : AudioBuffer) (c : Cache)
  : option Cache :=
  match urlOf p c, promises c !! p with
  | Some url, Some Pending =>
      let resolved := length (promises c) in
      Some {| buffers := <[url := resolved]> (buffers c);
              promises := <[p := Fulfilled buffer]> (promises c)
                            ++ [Fulfilled buffer];
              loads := loads c |}
  | _, _ => None
  end.

(** The loader calls [reject(error)]: [bufferPromise] is rejected, the
    [then] callback does not run, and the map is left as it is. *)
Definition loaderRejects (p : nat) (reason : JsError) (c : Cache)
  : option Cache :=
  match urlOf p c, promises c !! p with
  | Some url, Some Pending =>
      Some {| buffers := buffers c;
              promises := <[p := Rejected reason]> (promises c);
              loads := loads c |}
  | _, _ => None
  end.

(** What can happen to the cache: a caller asks for a url, or the loader
    settles one of its calls. *)
Inductive CacheEvent :=
| Get (url : string)
| Resolve (p : nat) (buffer : AudioBuffer)
| Reject (p : nat) (reason : JsError).

Definition cacheStep (c : Cache) (ev : CacheEvent) : Cache :=
  match ev with
  | Get url => snd (loadAudioBuffer url c)
  | Resolve p buffer => default c (loaderResolves p buffer c)
  | Reject p reason => default c (loaderRejects p reason c)
  end.

Definition cacheRun (c : Cache) (evs : list CacheEvent) : Cache :=
  fold_left cacheStep evs c.

(** The number of decode operations begun for [url]. *)
Definition decodesOf (url : string) (c : Cache) : nat :=
  length (filter (fun l => fst l = url) (loads c)).

(** The event settles promise [p]. *)
Definition settles (p : nat) (ev : CacheEvent) : bool :=
  match ev with
  | Get _ => false
  | Resolve q _ | Reject q _ => bool_decide (q = p)
  end.

(** What a caller awaiting promise [p] receives, once it is settled. *)
Definition received (p : nat) (c : Cache) : option (JsError + AudioBuffer) :=
  match promises c !! p with
  | Some (Fulfilled b) => Some (inr b)
  | Some (Rejected e) => Some (inl e)
  | _ => None
  end.

(** No event of the list settles promise [p]. *)
Definition leaves (p : nat) (evs : list CacheEvent) : bool :=
  forallb (fun ev => negb (settles p ev)) evs.

(** What holds of the loader calls of every cache the script can reach:
    each call has its promise in the store and its url in the map, and
    no two calls share a url or a promise. *)
Record coherent (c : Cache) : Prop := {
  load_promise :
    forall url p, (url, p) ∈ loads c -> (p < length (promises c))%nat;
  load_entry :
    forall url p, (url, p) ∈ loads c -> is_Some (buffers c !! url);
  load_urls : NoDup (loads c).*1;
  load_promises : NoDup (loads c).*2
}.

(** While its decode is in flight, the entry of a url is the promise of
    its loader call. *)
Definition inFlight (url : string) (p : nat) (c : Cache) : Prop :=
  (url, p) ∈ loads c /\ buffers c !! url = Some p
  /\ promises c !! p = Some Pending.

(** Once the decode has given [b], the promise of the call and the
    entry of the url both hold [b]. *)
Definition decoded (url : string) (p : nat) (b : AudioBuffer) (c : Cache)
  : Prop :=
  (url, p) ∈ loads c /\ promises c !! p = Some (Fulfilled b)
  /\ exists q, buffers c !! url = Some q
               /\ promises c !! q = Some (Fulfilled b).

(** Once the decode has failed with [e], the entry of the url is still
    the promise of the call, rejected with [e]. *)
Definition failed (url : string) (p : nat) (e : JsError) (c : Cache)
  : Prop :=
  (url, p) ∈ loads c /\ buffers c !! url = Some p
  /\ promises c !! p = Some (Rejected e).

End AudioCache.


(* ===================================================================== *)
(** * The session: avatar acquisition and the two switches *)
(* ===================================================================== *)

Module Session.
Import Js AudioCache.

(** ** Configuration *)

Record AnimationOption := { animLabel : string; animFile : string }.

Definition animationOptions : list AnimationOption :=
  [ {| animLabel := "Swing Bloom"; animFile := "./assets/Swing%20Dancing-1.fbx" |};
    {| animLabel := "Soul Spin";
       animFile := "./assets/Northern%20Soul%20Spin%20Combo.fbx" |};
    {| animLabel := "Calm Idle"; animFile := "./assets/Standing%20Idle.fbx" |};
    {| animLabel := "Future Talk"; animFile := "./assets/Talking.fbx" |} ].

Record AudioOption := {
  audioLabel : string;
  audioFile : string;
  audioVolume : option float
}.

Definition audioOptions : list AudioOption :=
  [ {| audioLabel := "Tokyo Driftwave";
       audioFile := "./assets/Tokyo%20Urban%20Haka%20No%20Ura.mp3";
       audioVolume := Some 0.6%float |};
    {| audioLabel := "KMGY Glitch";
       audioFile := "./assets/KMGY%20.mp3";
       audioVolume := Some 0.55%float |} ].

(** [options[index]]: [None] is [undefined]. *)
Definition optionAt {A} (options : list A) (index : Z) : option A :=
  if 0 <=? index then options !! Z.to_nat index else None.

(** The candidate list of [loadGvrmAvatar]. *)
Definition candidates : list string := [ "./assets/20251101-Masa.gvrm" ].

(** ** Avatars and capabilities *)

(** The [mode] strings ['loading'], ['gvrm'], ['simple-vrm'], ['error']. *)
Inductive Mode := loading | gvrm | simple_vrm | error.

(** [avatarCapabilities]. *)
Record Capabilities := { supportsFBX : bool; mode : Mode }.

(** The two classes an avatar handle can have. *)
Inductive AvatarClass := GVRM | SimpleVRMWrapper.

(** An avatar handle, with the fields the script reads. *)
Record Avatar := {
  class : AvatarClass;
  asset : string;
  isReady : bool;
  avatarSupportsFBX : bool;
  avatarMode : Mode
}.

(** ** The playable audio source

    [THREE.Audio] as three.js defines the methods the script calls:
    [stop] clears [isPlaying]; [setBuffer], [setLoop] and [setVolume]
    store their argument; [play] does nothing but warn when the source
    is already playing, and otherwise starts a source node on the bound
    buffer. *)

Record Audio := {
  isPlaying : bool;
  buffer : option AudioBuffer;
  loop : bool;
  volume : float;
  source : option AudioBuffer
}.

Definition newAudio : Audio :=
  {| isPlaying := false; buffer := None; loop := false;
     volume := 1%float; source := None |}.

Definition stop (a : Audio) : Audio :=
  {| isPlaying := false; buffer := buffer a; loop := loop a;
     volume := volume a; source := source a |}.

Definition setBuffer (b : AudioBuffer) (a : Audio) : Audio :=
  {| isPlaying := isPlaying a; buffer := Some b; loop := loop a;
     volume := volume a; source := source a |}.

Definition setLoop (v : bool) (a : Audio) : Audio :=
  {| isPlaying := isPlaying a; buffer := buffer a; loop := v;
     volume := volume a; source := source a |}.

Definition setVolume (v : float) (a : Audio) : Audio :=
  {| isPlaying := isPlaying a; buffer := buffer a; loop := loop a;
     volume := v; source := source a |}.

Definition play (a : Audio) : Audio :=
  if isPlaying a then a
  else {| isPlaying := true; buffer := buffer a; loop := loop a;
          volume := volume a; source := buffer a |}.

(** [new THREE.AudioAnalyser(audio, fftSize)]. *)
Record AudioAnalyser := { fftSize : Z }.

(** ** What the script does to the page

    Calls that leave the script (console, DOM, object URLs, the scene)
    are kept as a trace, in order.  An assignment to
    [avatarCapabilities] is kept too, so that the trace tells how often
    the record was written. *)

Inductive Effect :=
| ConsoleWarn (message : string) (subject : option string)
    (reason : option JsError)
| ConsoleInfo (message subject : string)
| ConsoleError (reason : JsError)
| SetActiveButton (key : string) (index : Z)
| AssignCapabilities (c : Capabilities)
| UpdateAnimationButtonState (isEnabled : bool) (title : string)
| UpdateMetaTag (message : string)
| CreateObjectURL (url : nat)
| RevokeObjectURL (url : nat)
| SceneAdd (a : Avatar)
| UnhandledRejection (reason : JsError).

(** ** Suspended calls

    A call of [switchAnimation] or [switchAudio] that has reached an
    [await] on a pending promise, with the locals it resumes with. *)

Inductive Task :=
| AwaitChangeFBX (index requestId : Z) (option : AnimationOption)
| AwaitBuffer (index requestId : Z) (option : AudioOption) (p : nat)
| AwaitResume (index requestId : Z) (option : AudioOption).

(** ** The module-level variables *)

Record Avatars := {
  gvrmModulePromise : option bool;
  gvrmModuleLoadError : option JsError;
  avatarCapabilities : Capabilities;
  gvrmInstance : option Avatar
}.

Record Animation := {
  currentAnimationIndex : Z;
  desiredAnimationIndex : Z;
  animationRequestId : Z
}.

Record Sound := {
  currentAudioIndex : Z;
  desiredAudioIndex : Z;
  audioRequestId : Z;
  audio : option Audio;
  audioAnalyser : option AudioAnalyser
}.

Record Session := {
  avatars : Avatars;
  animation : Animation;
  sound : Sound;
  cache : Cache;
  tasks : list Task;
  out : list Effect
}.

(** The variables as the module initialises them; [audioState.audio] is
    created right after the camera. *)
Definition initial : Session :=
  {| avatars := {| gvrmModulePromise := None;
                   gvrmModuleLoadError := None;
                   avatarCapabilities :=
                     {| supportsFBX := false; mode := loading |};
                   gvrmInstance := None |};
     animation := {| currentAnimationIndex := 0;
                     desiredAnimationIndex := 0;
                     animationRequestId := 0 |};
     sound := {| currentAudioIndex := 0;
                 desiredAudioIndex := 0;
                 audioRequestId := 0;
                 audio := Some newAudio;
                 audioAnalyser := None |};
     cache := AudioCache.empty;
     tasks := [];
     out := [] |}.

Definition withAvatars (v : Avatars) (s : Session) : Session :=
  {| avatars := v; animation := animation s; sound := sound s;
     cache := cache s; tasks := tasks s; out := out s |}.

Definition withAnimation (v : Animation) (s : Session) : Session :=
  {| avatars := avatars s; animation := v; sound := sound s;
     cache := cache s; tasks := tasks s; out := out s |}.

Definition withSound (v : Sound) (s : Session) : Session :=
  {| avatars := avatars s; animation := animation s; sound := v;
     cache := cache s; tasks := tasks s; out := out s |}.

Definition withCache (v : Cache) (s : Session) : Session :=
  {| avatars := avatars s; animation := animation s; sound := sound s;
     cache := v; tasks := tasks s; out := out s |}.

Definition withTasks (v : list Task) (s : Session) : Session :=
  {| avatars := avatars s; animation := animation s; sound := sound s;
     cache := cache s; tasks := v; out := out s |}.

Definition emit (e : Effect) (s : Session) : Session :=
  {| avatars := avatars s; animation := animation s; sound := sound s;
     cache := cache s; tasks := tasks s; out := out s ++ [e] |}.

Definition suspend (t : Task) (s : Session) : Session :=
  withTasks (tasks s ++ [t]) s.

(** ** Avatar acquisition *)

Definition Bytes := list Byte.byte.

(** The answer to [fetch(url)], with what [arrayBuffer()] gives. *)
Record Response := {
  ok : bool;
  status : Z;
  statusText : string;
  arrayBuffer : JsError + Bytes
}.

(** An archive opened by [JSZip.loadAsync]: [zip.file(name)] is [None]
    when there is no such entry, and otherwise what
    [async('arraybuffer')] gives for it. *)
Definition Archive := string -> option (JsError + Bytes).

(** The pose model found in [gltf.userData.vrm]. *)
Inductive Vrm := VrmModel (bytes : Bytes).

(** What the script awaits from outside during acquisition. *)
Record Env := {
  (** [import('gvrm-format/gvrm.js')]: rejects, or gives a module; the
      flag tells whether [module?.GVRM] is there. *)
  importGvrm : JsError + bool;
  (** [GVRMClass.load(candidate, scene, camera, renderer)]: rejects, or
      gives an instance; the flag is its [isReady]. *)
  gvrmLoad : string -> JsError + bool;
  fetch : string -> JsError + Response;
  zipLoadAsync : Bytes -> JsError + Archive;
  (** [fallbackGLTFLoader.loadAsync] on the object URL of a blob with
      these bytes: rejects, or gives a gltf whose [userData.vrm] may be
      missing. *)
  gltfLoadAsync : Bytes -> JsError + option Vrm
}.

Definition setCapabilities (c : Capabilities) (s : Session) : Session :=
  emit (AssignCapabilities c)
    (withAvatars
       {| gvrmModulePromise := gvrmModulePromise (avatars s);
          gvrmModuleLoadError := gvrmModuleLoadError (avatars s);
          avatarCapabilities := c;
          gvrmInstance := gvrmInstance (avatars s) |} s).

Definition setGvrmInstance (a : Avatar) (s : Session) : Session :=
  withAvatars
    {| gvrmModulePromise := gvrmModulePromise (avatars s);
       gvrmModuleLoadError := gvrmModuleLoadError (avatars s);
       avatarCapabilities := avatarCapabilities (avatars s);
       gvrmInstance := Some a |} s.

Definition updateAnimationButtonState (s : Session) : Session :=
  let c := avatarCapabilities (avatars s) in
  let reason :=
    match mode c with
    | loading => "Avatar is loading – animations will unlock when ready."
    | simple_vrm =>
        "Fallback avatar loaded – animations are temporarily disabled."
    | error =>
        "Avatar failed to load animation data. Please reload to try again."
    | gvrm => ""
    end in
  emit (UpdateAnimationButtonState (supportsFBX c)
          (if supportsFBX c then "" else reason)) s.

Definition updateMetaTag (message : string) (s : Session) : Session :=
  emit (UpdateMetaTag message) s.

(** [ensureGvrmModule()], awaited: whether a GVRM class came back.  The
    import is started by the first call only; later calls return the
    promise stored by the first. *)
Definition ensureGvrmModule (env : Env) (s : Session) : bool * Session :=
  match gvrmModulePromise (avatars s) with
  | Some GVRMClass => (GVRMClass, s)
  | None =>
      let store (v : bool) (e : option JsError) :=
        withAvatars
          {| gvrmModulePromise := Some v;
             gvrmModuleLoadError := e;
             avatarCapabilities := avatarCapabilities (avatars s);
             gvrmInstance := gvrmInstance (avatars s) |} s in
      match importGvrm env with
      | inr hasGVRM =>
          (hasGVRM, store hasGVRM (gvrmModuleLoadError (avatars s)))
      | inl e =>
          (false,
           emit (ConsoleWarn
                   "GVRM runtime failed to load. Falling back to standard VRM experience."
                   None (Some e))
             (store false (Some e)))
      end
  end.

(** The object URL handed out next: URLs are named by the length of the
    trace at their creation. *)
Definition freshObjectURL (s : Session) : nat := length (out s).

Definition newSimpleVRMWrapper (url : string) : Avatar :=
  {| class := SimpleVRMWrapper; asset := url; isReady := true;
     avatarSupportsFBX := false; avatarMode := simple_vrm |}.

Definition loadSimpleVRMFromGvrm (env : Env) (url : string) (s : Session)
  : (JsError + Avatar) * Session :=
  match fetch env url with
  | inl e => (inl e, s)
  | inr response =>
      if negb (ok response) then
        (inl (Error
                (String.append "Failed to retrieve fallback VRM from "
                   (String.append url
                      (String.append ": "
                         (String.append (pretty (status response))
                            (String.append " " (statusText response))))))),
         s)
      else
        match arrayBuffer response with
        | inl e => (inl e, s)
        | inr bytes =>
            match zipLoadAsync env bytes with
            | inl e => (inl e, s)
            | inr zip =>
                match zip "model.vrm" with
                | None =>
                    (inl (Error
                            "model.vrm was not found inside the GVRM archive."),
                     s)
                | Some (inl e) => (inl e, s)
                | Some (inr vrmBuffer) =>
                    let vrmUrl := freshObjectURL s in
                    let s1 := emit (CreateObjectURL vrmUrl) s in
                    let '(r, s2) :=
                      match gltfLoadAsync env vrmBuffer with
                      | inl e => (inl e, s1)
                      | inr None =>
                          (inl (Error
                                  "VRM payload missing from fallback data."),
                           s1)
                      | inr (Some vrm) =>
                          let wrapper := newSimpleVRMWrapper url in
                          (inr wrapper, emit (SceneAdd wrapper) s1)
                      end in
                    (r, emit (RevokeObjectURL vrmUrl) s2)
                end
            end
        end
  end.

(** The [for] loop of [loadGvrmAvatar] over the candidates left, and
    the two statements after it. *)
Fixpoint candidateLoop (env : Env) (GVRMClass : bool)
    (remaining : list string) (lastError : option JsError) (s : Session)
  : (JsError + Avatar) * Session :=
  match remaining with
  | [] =>
      let lastError :=
        if negb GVRMClass
           && bool_decide (is_Some (gvrmModuleLoadError (avatars s)))
           && negb (bool_decide (is_Some lastError))
        then gvrmModuleLoadError (avatars s)
        else lastError in
      (inl (default (Error "Unable to load any avatar assets.") lastError),
       s)
  | candidate :: rest =>
      let primary :=
        if GVRMClass then
          match gvrmLoad env candidate with
          | inr ready => inr ready
          | inl e =>
              inl (Some e,
                   emit (ConsoleWarn "Failed to load GVRM candidate"
                           (Some candidate) (Some e)) s)
          end
        else inl (lastError, s) in
      match primary with
      | inr ready =>
          let instance :=
            {| class := GVRM; asset := candidate; isReady := ready;
               avatarSupportsFBX := true; avatarMode := gvrm |} in
          (inr instance,
           updateMetaTag "Simulacra Interface — Gaussian VRM Mode"
             (updateAnimationButtonState
                (setCapabilities
                   {| supportsFBX := true; mode := gvrm |} s)))
      | inl (lastError, s1) =>
          match loadSimpleVRMFromGvrm env candidate s1 with
          | (inr fallback, s2) =>
              (inr fallback,
               emit (ConsoleInfo
                       "Loaded fallback VRM avatar without Gaussian splatting:"
                       candidate)
                 (updateMetaTag "Simulacra Interface — Standard VRM Mode"
                    (updateAnimationButtonState
                       (setCapabilities
                          {| supportsFBX := false; mode := simple_vrm |}
                          s2))))
          | (inl fallbackError, s2) =>
              candidateLoop env GVRMClass rest (Some fallbackError)
                (emit (ConsoleWarn "Fallback VRM load failed for candidate"
                         (Some candidate) (Some fallbackError)) s2)
          end
      end
  end.

(** [loadGvrmAvatar], in the candidate list. *)
Definition loadGvrmAvatarFrom (env : Env) (cands : list string)
    (s : Session) : (JsError + Avatar) * Session :=
  let '(GVRMClass, s0) := ensureGvrmModule env s in
  candidateLoop env GVRMClass cands None s0.

Definition loadGvrmAvatar (env : Env) (s : Session)
  : (JsError + Avatar) * Session :=
  loadGvrmAvatarFrom env candidates s.

(** ** The animation switch *)

Definition setDesiredAnimationIndex (index : Z) (s : Session) : Session :=
  withAnimation
    {| currentAnimationIndex := currentAnimationIndex (animation s);
       desiredAnimationIndex := index;
       animationRequestId := animationRequestId (animation s) |} s.

Definition setAnimationRequestId (requestId : Z) (s : Session) : Session :=
  withAnimation
    {| currentAnimationIndex := currentAnimationIndex (animation s);
       desiredAnimationIndex := desiredAnimationIndex (animation s);
       animationRequestId := requestId |} s.

Definition setCurrentAnimationIndex (index : Z) (s : Session) : Session :=
  withAnimation
    {| currentAnimationIndex := index;
       desiredAnimationIndex := desiredAnimationIndex (animation s);
       animationRequestId := animationRequestId (animation s) |} s.

(** The [TypeError] of reading [.file] of [undefined]. *)
Definition undefinedOption : JsError :=
  TypeError "Cannot read properties of undefined (reading 'file')".

(** [switchAnimation], after [await gvrmInstance.changeFBX(option.file)]
    has resolved. *)
Definition afterChangeFBX (index requestId : Z) (s : Session) : Session :=
  if requestId =? animationRequestId (animation s)
  then setCurrentAnimationIndex index s
  else s.

(** The [catch] block of [switchAnimation]. *)
Definition animationFailed (option : AnimationOption) (e : JsError)
    (s : Session) : Session :=
  emit (ConsoleWarn "Animation load failed:" (Some (animFile option))
          (Some e)) s.

(** [switchAnimation(index)] up to its first suspension.  The result
    is [Some e] when the promise of the call is rejected with [e]: with
    no option at [index], [option.file] throws in the [try] block and
    again in the [catch] block. *)
Definition switchAnimation (index : Z) (s : Session)
  : option JsError * Session :=
  let s := emit (SetActiveButton "animation" index)
             (setDesiredAnimationIndex index s) in
  if negb (supportsFBX (avatarCapabilities (avatars s))) then (None, s)
  else
    match gvrmInstance (avatars s) with
    | None => (None, s)
    | Some instance =>
        if negb (isReady instance) then (None, s)
        else
          let requestId := animationRequestId (animation s) + 1 in
          let s := setAnimationRequestId requestId s in
          match optionAt animationOptions index with
          | None => (Some undefinedOption, s)
          | Some option =>
              match class instance with
              | GVRM =>
                  (None, suspend (AwaitChangeFBX index requestId option) s)
              | SimpleVRMWrapper =>
                  (None,
                   afterChangeFBX index requestId
                     (emit (ConsoleWarn
                              "FBX animation playback is not available in fallback VRM mode."
                              None None) s))
              end
          end
    end.

(** ** The audio switch *)

Definition setDesiredAudioIndex (index : Z) (s : Session) : Session :=
  withSound
    {| currentAudioIndex := currentAudioIndex (sound s);
       desiredAudioIndex := index;
       audioRequestId := audioRequestId (sound s);
       audio := audio (sound s);
       audioAnalyser := audioAnalyser (sound s) |} s.

Definition setAudioRequestId (requestId : Z) (s : Session) : Session :=
  withSound
    {| currentAudioIndex := currentAudioIndex (sound s);
       desiredAudioIndex := desiredAudioIndex (sound s);
       audioRequestId := requestId;
       audio := audio (sound s);
       audioAnalyser := audioAnalyser (sound s) |} s.

Definition setAudio (a : Audio) (s : Session) : Session :=
  withSound
    {| currentAudioIndex := currentAudioIndex (sound s);
       desiredAudioIndex := desiredAudioIndex (sound s);
       audioRequestId := audioRequestId (sound s);
       audio := Some a;
       audioAnalyser := audioAnalyser (sound s) |} s.

(** The last three statements of the [try] block of [switchAudio]. *)
Definition commitAudio (index : Z) (a : Audio) (s : Session) : Session :=
  withSound
    {| currentAudioIndex := index;
       desiredAudioIndex := desiredAudioIndex (sound s);
       audioRequestId := audioRequestId (sound s);
       audio := Some (play a);
       audioAnalyser := Some {| fftSize := 64 |} |}
    (if isPlaying a
     then emit (ConsoleWarn "THREE.Audio: Audio is already playing."
                  None None) s
     else s).

(** The [catch] block of [switchAudio]. *)
Definition audioFailed (option : AudioOption) (e : JsError) (s : Session)
  : Session :=
  emit (ConsoleWarn "Audio load failed:" (Some (audioFile option)) (Some e))
    s.

(** [switchAudio], after [await loadAudioBuffer(option.file)] has given
    [buffer], up to [await audioState.listener.context.resume()]. *)
Definition afterBuffer (index requestId : Z) (option : AudioOption)
    (buffer : AudioBuffer) (s : Session) : Session :=
  if negb (requestId =? audioRequestId (sound s)) then s
  else
    match audio (sound s) with
    | None => s
    | Some a =>
        let a := if isPlaying a then stop a else a in
        let a := setBuffer buffer a in
        let a := setLoop true a in
        let a := setVolume (default 0.6%float (audioVolume option)) a in
        suspend (AwaitResume index requestId option) (setAudio a s)
    end.

(** [switchAudio], after [context.resume()] has resolved. *)
Definition afterResume (index : Z) (option : AudioOption) (s : Session)
  : Session :=
  match audio (sound s) with
  | Some a => commitAudio index a s
  | None =>
      audioFailed option
        (TypeError "Cannot read properties of null (reading 'play')") s
  end.

(** [switchAudio(index)] up to its first suspension; the result is as
    for [switchAnimation]. *)
Definition switchAudio (index : Z) (s : Session)
  : option JsError * Session :=
  let s := emit (SetActiveButton "audio" index)
             (setDesiredAudioIndex index s) in
  let requestId := audioRequestId (sound s) + 1 in
  let s := setAudioRequestId requestId s in
  match optionAt audioOptions index with
  | None => (Some undefinedOption, s)
  | Some option =>
      let '(p, c) := loadAudioBuffer (audioFile option) (cache s) in
      let s := withCache c s in
      match promises c !! p with
      | Some (Fulfilled buffer) =>
          (None, afterBuffer index requestId option buffer s)
      | Some (Rejected e) => (None, audioFailed option e s)
      | _ => (None, suspend (AwaitBuffer index requestId option p) s)
      end
  end.

(** ** Events

    The user picks an option, or an awaited operation settles.  A
    settlement names the call it belongs to: the request id for
    [changeFBX] and [resume], the promise for the loader. *)

Inductive Event :=
| SelectAnimation (index : Z)
| SelectAudio (index : Z)
| ChangeFBXSettled (requestId : Z) (failure : option JsError)
| LoaderSettled (p : nat) (result : JsError + AudioBuffer)
| ResumeSettled (requestId : Z) (failure : option JsError).

(** The first task that satisfies [f], and the tasks left. *)
Fixpoint takeTask (f : Task -> bool) (ts : list Task)
  : option (Task * list Task) :=
  match ts with
  | [] => None
  | t :: rest =>
      if f t then Some (t, rest)
      else
        match takeTask f rest with
        | Some (found, others) => Some (found, t :: others)
        | None => None
        end
  end.

Definition awaitsChangeFBX (requestId : Z) (t : Task) : bool :=
  match t with
  | AwaitChangeFBX _ r _ => r =? requestId
  | _ => false
  end.

Definition awaitsBuffer (p : nat) (t : Task) : bool :=
  match t with
  | AwaitBuffer _ _ _ q => Nat.eqb q p
  | _ => false
  end.

Definition awaitsResume (requestId : Z) (t : Task) : bool :=
  match t with
  | AwaitResume _ r _ => r =? requestId
  | _ => false
  end.

(** A handler whose promise nobody awaits. *)
Definition detached (r : option JsError * Session) : Session :=
  match r with
  | (None, s) => s
  | (Some e, s) => emit (UnhandledRejection e) s
  end.

(** A call suspended on the loader's promise resumes with its outcome. *)
Definition resumeWithBuffer (result : JsError + AudioBuffer) (s : Session)
    (t : Task) : Session :=
  match t, result with
  | AwaitBuffer index requestId option _, inr buffer =>
      afterBuffer index requestId option buffer s
  | AwaitBuffer _ _ option _, inl e => audioFailed option e s
  | _, _ => s
  end.

Definition step (s : Session) (ev : Event) : Session :=
  match ev with
  | SelectAnimation index => detached (switchAnimation index s)
  | SelectAudio index => detached (switchAudio index s)
  | ChangeFBXSettled requestId failure =>
      match takeTask (awaitsChangeFBX requestId) (tasks s) with
      | Some (AwaitChangeFBX index r option, others) =>
          let s := withTasks others s in
          match failure with
          | None => afterChangeFBX index r s
          | Some e => animationFailed option e s
          end
      | _ => s
      end
  | LoaderSettled p result =>
      let settled :=
        match result with
        | inr buffer => loaderResolves p buffer (cache s)
        | inl e => loaderRejects p e (cache s)
        end in
      match settled with
      | None => s
      | Some c =>
          let waiting := List.filter (awaitsBuffer p) (tasks s) in
          let others :=
            List.filter (fun t => negb (awaitsBuffer p t)) (tasks s) in
          fold_left (resumeWithBuffer result) waiting
            (withTasks others (withCache c s))
      end
  | ResumeSettled requestId failure =>
      match takeTask (awaitsResume requestId) (tasks s) with
      | Some (AwaitResume index r option, others) =>
          let s := withTasks others s in
          match failure with
          | None => afterResume index option s
          | Some e => audioFailed option e s
          end
      | _ => s
      end
  end.

Definition run (s : Session) (evs : list Event) : Session :=
  fold_left step evs s.

(** ** Start-up: the avatar part of [init] *)

(** The [catch] block of the second [try] of [init]. *)
Definition avatarUnavailable (e : JsError) (s : Session) : Session :=
  updateMetaTag "Simulacra Interface — Avatar Unavailable"
    (updateAnimationButtonState
       (setCapabilities {| supportsFBX := false; mode := error |}
          (emit (ConsoleError e) s))).

(** The second [try] statement of [init], in the candidate list. *)
Definition initAvatarFrom (env : Env) (cands : list string) (s : Session)
  : Session :=
  match loadGvrmAvatarFrom env cands s with
  | (inr instance, s) =>
      match switchAnimation (desiredAnimationIndex (animation s))
              (setGvrmInstance instance s) with
      | (None, s) => s
      | (Some e, s) => avatarUnavailable e s
      end
  | (inl e, s) => avatarUnavailable e s
  end.

Definition initAvatar (env : Env) (s : Session) : Session :=
  initAvatarFrom env candidates s.

(** ** Vocabulary of the statements below *)

(** The animation switch is armed: the capabilities allow clips and a
    ready GVRM instance is installed. *)
Definition armed (s : Session) : bool :=
  supportsFBX (avatarCapabilities (avatars s))
  && match gvrmInstance (avatars s) with
     | Some instance =>
         isReady instance
         && match class instance with GVRM => true | _ => false end
     | None => false
     end.

(** No suspended [switchAnimation] carries a request id that is still to
    be issued. *)
Definition issued (s : Session) : bool :=
  forallb (fun t => match t with
                    | AwaitChangeFBX _ r _ =>
                        r <=? animationRequestId (animation s)
                    | _ => true
                    end) (tasks s).

Definition isSelectAnimation (ev : Event) : bool :=
  match ev with SelectAnimation _ => true | _ => false end.

(** None of the events is a new animation request. *)
Definition noAnimationRequest (evs : list Event) : bool :=
  forallb (fun ev => negb (isSelectAnimation ev)) evs.

(** None of the events settles the [changeFBX] call of [requestId]. *)
Definition unsettled (requestId : Z) (evs : list Event) : bool :=
  forallb (fun ev => match ev with
                     | ChangeFBXSettled r _ => negb (r =? requestId)
                     | _ => true
                     end) evs.

(** The assignments to [avatarCapabilities] in a trace. *)
Definition capabilityWrites (trace : list Effect) : list Capabilities :=
  omap (fun e => match e with
                 | AssignCapabilities c => Some c
                 | _ => None
                 end) trace.

(** The console lines of a trace. *)
Definition isConsole (e : Effect) : bool :=
  match e with
  | ConsoleWarn _ _ _ | ConsoleInfo _ _ | ConsoleError _ => true
  | _ => false
  end.

(** What the fallback path gives for a url: it depends on the
    environment only. *)
Definition fallbackOutcome (env : Env) (url : string) : JsError + Avatar :=
  fst (loadSimpleVRMFromGvrm env url initial).

Definition isFailure {A} (r : JsError + A) : bool :=
  match r with inl _ => true | inr _ => false end.

(** The candidate fails on every backend the loop tries for it: on the
    extended one when the GVRM class is there, and on the fallback. *)
Definition failsEverywhere (env : Env) (GVRMClass : bool) (candidate : string)
  : bool :=
  (negb GVRMClass || isFailure (gvrmLoad env candidate))
  && isFailure (fallbackOutcome env candidate).




(** The animation variables, the avatar variables and the suspended
    [switchAnimation] calls are the same in both sessions. *)
Definition sameAnimation (s s' : Session) : Prop :=
  animation s' = animation s /\ avatars s' = avatars s
  /\ forall i r o, AwaitChangeFBX i r o ∈ tasks s'
                   <-> AwaitChangeFBX i r o ∈ tasks s.

(** The request id [ridN] is the current one, and every suspended call
    that carries it asked for index [iN]. *)
Definition latest (iN ridN : Z) (s : Session) : Prop :=
  animationRequestId (animation s) = ridN
  /\ forall i o, AwaitChangeFBX i ridN o ∈ tasks s -> i = iN.

(** Every suspended [switchAnimation] carries a request id that has been
    issued. *)
Definition allIssued (s : Session) : Prop :=
  forall i r o, AwaitChangeFBX i r o ∈ tasks s ->
                r <= animationRequestId (animation s).

(** The session apart from the trace, and the capability assignments of
    the trace, are the same in both sessions. *)
Definition quiet (s s' : Session) : Prop :=
  avatars s' = avatars s /\ animation s' = animation s
  /\ sound s' = sound s /\ cache s' = cache s /\ tasks s' = tasks s
  /\ capabilityWrites (out s') = capabilityWrites (out s).


(** The last element of the list, or [d] when it is empty. *)
Definition lastOr {A} (d : option A) (l : list A) : option A :=
  match last l with Some e => Some e | None => d end.

(** What an event asks of the cache. *)
Definition cacheEvents (ev : Event) : list CacheEvent :=
  match ev with
  | SelectAudio index =>
      match optionAt audioOptions index with
      | Some o => [Get (audioFile o)]
      | None => []
      end
  | LoaderSettled p (inr b) => [Resolve p b]
  | LoaderSettled p (inl e) => [Reject p e]
  | _ => []
  end.

End Session.

(* ===================================================================== *)
(** * Sample environments *)
(* ===================================================================== *)

Module Samples.
Import Js AudioCache Session.

Definition vrmBytes : Bytes := [Byte.x76; Byte.x72; Byte.x6d].

(** An archive with the one entry the fallback path looks for. *)
Definition goodArchive : Archive :=
  fun name => if String.eqb name "model.vrm" then Some (inr vrmBytes) else None.

Definition found : Response :=
  {| ok := true; status := 200; statusText := "OK";
     arrayBuffer := inr [Byte.x50; Byte.x4b] |}.

Definition notFound : Response :=
  {| ok := false; status := 404; statusText := "Not Found";
     arrayBuffer := inr [] |}.

(** The extended backend is there and loads every candidate. *)
Definition extendedEnv : Env :=
  {| importGvrm := inr true;
     gvrmLoad := fun _ => inr true;
     fetch := fun _ => inr found;
     zipLoadAsync := fun _ => inr goodArchive;
     gltfLoadAsync := fun b => inr (Some (VrmModel b)) |}.

(** The extended backend rejects every candidate, and only [b.gvrm] is
    on the server. *)
Definition secondOnlyEnv : Env :=
  {| importGvrm := inr true;
     gvrmLoad := fun _ => inl (Error "unsupported splat data");
     fetch := fun url =>
       if String.eqb url "./assets/b.gvrm" then inr found else inr notFound;
     zipLoadAsync := fun _ => inr goodArchive;
     gltfLoadAsync := fun b => inr (Some (VrmModel b)) |}.


(** The import of the extended backend fails and nothing can be
    fetched. *)
Definition offlineEnv : Env :=
  {| importGvrm := inl (TypeError "Failed to fetch dynamically imported module");
     gvrmLoad := fun _ => inl (Error "no GVRM class");
     fetch := fun _ => inl (TypeError "Failed to fetch");
     zipLoadAsync := fun _ => inl (Error "not a zip file");
     gltfLoadAsync := fun _ => inl (Error "no loader") |}.

(** A session in which the extended avatar has been acquired. *)
Definition extendedSession : Session := initAvatar extendedEnv initial.

(** A session in which the first track plays. *)
Definition playingSession : Session :=
  run initial [ SelectAudio 0; LoaderSettled 0 (inr (Decoded 0));
                ResumeSettled 1 None ].

End Samples.


(* ===================================================================== *)
(** * The scene over its events, and vocabulary for runs *)
(* ===================================================================== *)

Module Lattice.
Import Js Noise.

(** The index [n] that the shuffle loop of [SimplexNoise] computes at
    loop index [i]. *)
Definition swapIndex (seed : float) (i : nat) : float :=
  floor (fmod (seed * 1e4 + ofZ (Z.of_nat i))%float
              (ofZ (Z.of_nat i + 1))).

(** Every [n] of the shuffle loop is an index of [p]. *)
Definition swapsInRange (seed : float) : bool :=
  forallb (fun i => bool_decide (is_Some (arrayIndex (swapIndex seed i) 256)))
          (seq 1 255).

(** The gradient indices [gi0], [gi1], [gi2] that [noise2D(x, y)] reads
    from the table. *)
Definition gradients (self : SimplexNoise) (x y : float)
  : list (option Z) :=
  let perm := perm self in
  let s := ((x + y) * F2)%float in
  let i := floor (x + s) in
  let j := floor (y + s) in
  let t := ((i + j) * G2)%float in
  let X0 := (i - t)%float in
  let Y0 := (j - t)%float in
  let x0 := (x - X0)%float in
  let y0 := (y - Y0)%float in
  let '(i1, j1) := if PrimFloat.ltb y0 x0 then (1, 0) else (0, 1) in
  let ii := Z.land (toInt32 i) 255 in
  let jj := Z.land (toInt32 j) 255 in
  [ gradIndex perm ii jj;
    gradIndex perm (ii + i1) (jj + j1);
    gradIndex perm (ii + 1) (jj + 1) ].

End Lattice.

Module FloatOrder.

(** The comparison of two doubles: [None] when one of them is NaN. *)
Definition cmp (a b : float) : option comparison :=
  SFcompare (Prim2SF a) (Prim2SF b).

End FloatOrder.

Module Scene.
Import Js Render.

(** What the page does to the scene variables: a palette button is
    clicked ([handlePaletteSelect]), the pointer moves, or the render
    loop calls [animate]. *)
Inductive StageEvent :=
| PaletteSelect (index : Z)
| PointerMove (nx ny : float)
| FrameTick (fr : Frame).

Section Run.
Variable sin : float -> float.

(** An exception of [applyPalette] ends the click handler; the
    variables stay as they are. *)
Definition stageStep (st : Stage) (ev : StageEvent) : Stage :=
  match ev with
  | PaletteSelect index =>
      match applyPalette index st with
      | inr st' => st'
      | inl _ => st
      end
  | PointerMove nx ny => pointermove nx ny st
  | FrameTick fr => animate sin fr st
  end.

Definition stageRun (st : Stage) (evs : list StageEvent) : Stage :=
  fold_left stageStep evs st.

End Run.

(** The index of the last palette request, [0] when there is none, and
    the number of frames. *)
Definition requestedPalette (evs : list StageEvent) : Z :=
  fold_left (fun index ev =>
               match ev with PaletteSelect i => i | _ => index end) evs 0.

Definition isFrameTick (ev : StageEvent) : bool :=
  match ev with FrameTick _ => true | _ => false end.

(** The look on display is the one of the palette that
    [currentPaletteIndex] selects, and the noise table is the one built
    at start-up. *)
Definition synced (seed : float) (st : Stage) : Prop :=
  exists c, selectColors (currentPaletteIndex st) = inr c
            /\ look st = lookOf c
            /\ haloBaseOpacity st = default 0.12%float (haloOpacity c)
            /\ simplex st = Noise.newSimplexNoise seed.

(** [lo <= x <= hi], which no NaN satisfies. *)
Definition within (lo hi x : float) : bool :=
  PrimFloat.leb lo x && PrimFloat.leb x hi.

End Scene.

Module CacheMore.
Import Js AudioCache.

(** Every url in the map has a loader call. *)
Definition backed (c : Cache) : Prop :=
  forall url q, buffers c !! url = Some q -> exists p, (url, p) ∈ loads c.

(** The urls asked for by the events. *)
Definition asked (evs : list CacheEvent) : list string :=
  omap (fun ev => match ev with Get url => Some url | _ => None end) evs.

End CacheMore.

Module Requests.
Import Js AudioCache Session.

Definition isSelectAudio (ev : Event) : bool :=
  match ev with SelectAudio _ => true | _ => false end.

(** The index of the last audio request among the events, [d] when
    there is none; the same for animation requests. *)
Definition lastAudioRequest (d : Z) (evs : list Event) : Z :=
  fold_left (fun index ev =>
               match ev with SelectAudio i => i | _ => index end) evs d.

Definition lastAnimationRequest (d : Z) (evs : list Event) : Z :=
  fold_left (fun index ev =>
               match ev with SelectAnimation i => i | _ => index end) evs d.

(** The request variables of the audio switch are the same in both
    sessions. *)
Definition sameRequests (s s' : Session) : Prop :=
  audioRequestId (sound s') = audioRequestId (sound s)
  /\ desiredAudioIndex (sound s') = desiredAudioIndex (sound s).

(** The committed track is the same in both sessions, and playback has
    not been started in between. *)
Definition sameTrack (s s' : Session) : Prop :=
  currentAudioIndex (sound s') = currentAudioIndex (sound s)
  /\ audioAnalyser (sound s') = audioAnalyser (sound s)
  /\ forall a', audio (sound s') = Some a' -> isPlaying a' = true ->
                audio (sound s) = Some a'.

(** The event is the settlement of a resumed audio context. *)
Definition isResumed (ev : Event) : bool :=
  match ev with ResumeSettled _ None => true | _ => false end.

Definition isAwaitChangeFBX (t : Task) : bool :=
  match t with AwaitChangeFBX _ _ _ => true | _ => false end.

(** No call of [switchAnimation] is suspended. *)
Definition noClipChange (s : Session) : bool :=
  forallb (fun t => negb (isAwaitChangeFBX t)) (tasks s).

(** Every call of [switchAudio] that waits for its buffer carries a
    request id that has been issued. *)
Definition buffersIssued (s : Session) : bool :=
  forallb (fun t => match t with
                    | AwaitBuffer _ r _ _ => r <=? audioRequestId (sound s)
                    | _ => true
                    end) (tasks s).

(** The request id of a suspended [switchAudio]. *)
Definition audioRid (t : Task) : option Z :=
  match t with
  | AwaitBuffer _ r _ _ | AwaitResume _ r _ => Some r
  | AwaitChangeFBX _ _ _ => None
  end.

(** Every suspended [switchAudio] carries a request id that has been
    issued. *)
Definition callsIssued (s : Session) : bool :=
  forallb (fun t => match audioRid t with
                    | Some r => r <=? audioRequestId (sound s)
                    | None => true
                    end) (tasks s).

(** None of the events is a new audio request, settles the loader
    promise [p], settles the [resume()] of [requestId]. *)
Definition noAudioRequest (evs : list Event) : bool :=
  forallb (fun ev => negb (isSelectAudio ev)) evs.

Definition undecoded (p : nat) (evs : list Event) : bool :=
  forallb (fun ev => match ev with
                     | LoaderSettled q _ => negb (Nat.eqb q p)
                     | _ => true
                     end) evs.

Definition unresumed (requestId : Z) (evs : list Event) : bool :=
  forallb (fun ev => match ev with
                     | ResumeSettled r _ => negb (r =? requestId)
                     | _ => true
                     end) evs.

(** The loader can still settle promise [p]. *)
Definition decoding (p : nat) (c : Cache) : bool :=
  match promises c !! p, urlOf p c with
  | Some Pending, Some _ => true
  | _, _ => false
  end.

(** The call of [requestId] is the latest, and waits for promise [p]. *)
Definition awaitingBuffer (i requestId : Z) (o : AudioOption) (p : nat)
    (s : Session) : Prop :=
  audioRequestId (sound s) = requestId
  /\ desiredAudioIndex (sound s) = i
  /\ is_Some (audio (sound s))
  /\ decoding p (cache s) = true
  /\ AwaitBuffer i requestId o p ∈ tasks s
  /\ forall t, t ∈ tasks s -> audioRid t = Some requestId ->
                t = AwaitBuffer i requestId o p.

(** The call of [requestId] is the latest, has bound buffer [b], and
    waits for [resume()]. *)
Definition awaitingResume (i requestId : Z) (o : AudioOption)
    (b : AudioBuffer) (s : Session) : Prop :=
  audioRequestId (sound s) = requestId
  /\ desiredAudioIndex (sound s) = i
  /\ (exists a, audio (sound s) = Some a /\ buffer a = Some b
                /\ loop a = true
                /\ volume a = default 0.6%float (audioVolume o)
                /\ (isPlaying a = true -> source a = Some b))
  /\ AwaitResume i requestId o ∈ tasks s
  /\ forall t, t ∈ tasks s -> audioRid t = Some requestId ->
                t = AwaitResume i requestId o.

End Requests.

(* ===================================================================== *)
(** * The page: the trace, the buttons and [init] *)
(* ===================================================================== *)

Module Trace.
Import Js AudioCache Session.

(** The object URLs that are created and not revoked, in a trace that
    starts with the URLs [live]. *)
Definition liveFrom (live : list nat) (trace : list Effect) : list nat :=
  fold_left (fun live e =>
               match e with
               | CreateObjectURL u => live ++ [u]
               | RevokeObjectURL u =>
                   List.filter (fun v => negb (Nat.eqb v u)) live
               | _ => live
               end) trace live.

Definition liveURLs (trace : list Effect) : list nat := liveFrom [] trace.

(** The avatars handed to [scene.add]. *)
Definition sceneAdds (trace : list Effect) : list Avatar :=
  omap (fun e => match e with SceneAdd a => Some a | _ => None end) trace.

(** The index last passed to [setActiveButton] for [key], [d] when the
    trace has no such call. *)
Definition highlightFrom (key : string) (d : Z) (trace : list Effect) : Z :=
  fold_left (fun index e =>
               match e with
               | SetActiveButton k i => if String.eqb k key then i else index
               | _ => index
               end) trace d.

(** What the last [updateAnimationButtonState] of the trace computed:
    [isEnabled], and the title it set. *)
Definition enabledFrom (d : bool * string) (trace : list Effect)
  : bool * string :=
  fold_left (fun d e =>
               match e with
               | UpdateAnimationButtonState isEnabled title =>
                   (isEnabled, title)
               | _ => d
               end) trace d.

(** The effect leaves the buttons as they are. *)
Definition buttonFree (e : Effect) : bool :=
  match e with
  | SetActiveButton _ _ | UpdateAnimationButtonState _ _ => false
  | _ => true
  end.

(** The effect creates no object URL. *)
Definition createFree (e : Effect) : bool :=
  match e with CreateObjectURL _ => false | _ => true end.

(** The effect marks no button as pressed. *)
Definition markFree (e : Effect) : bool :=
  match e with SetActiveButton _ _ => false | _ => true end.

(** The second session has the trace of the first, and after it effects
    that satisfy [ok]. *)
Definition appends (ok : Effect -> bool) (s s' : Session) : Prop :=
  exists l, out s' = out s ++ l /\ forallb ok l = true.

(** The second session has the trace of the first, and after it a
    trace that leaves no object URL behind. *)
Definition revokes (s s' : Session) : Prop :=
  exists l, out s' = out s ++ l /\ liveURLs l = [].

(** What [updateAnimationButtonState] computes from the capabilities. *)
Definition buttonStateOf (c : Capabilities) : bool * string :=
  enabledFrom (false, "")
    (out (updateAnimationButtonState (setCapabilities c initial))).

End Trace.

Module Dom.
Import Js Session.

(** A button element, with what the script sets on it. *)
Record Button := {
  textContent : string;
  dataIndex : string;
  classList : gset string;
  ariaPressed : option string;
  disabled : bool;
  title : string
}.

(** [buttonRegistry]. *)
Record Registry := {
  animationButtons : list Button;
  audioButtons : list Button;
  paletteButtons : list Button
}.

(** [buttonRegistry[key] ?? []]. *)
Definition buttonsOf (key : string) (r : Registry) : list Button :=
  if String.eqb key "animation" then animationButtons r
  else if String.eqb key "audio" then audioButtons r
  else if String.eqb key "palette" then paletteButtons r
  else [].

(** The keys of the registry. *)
Definition known (key : string) : Prop :=
  key = "animation" \/ key = "audio" \/ key = "palette".

(** The registry with the buttons of [key] replaced; the script uses
    the three keys of the registry only. *)
Definition withButtons (key : string) (buttons : list Button) (r : Registry)
  : Registry :=
  if String.eqb key "animation" then
    {| animationButtons := buttons; audioButtons := audioButtons r;
       paletteButtons := paletteButtons r |}
  else if String.eqb key "audio" then
    {| animationButtons := animationButtons r; audioButtons := buttons;
       paletteButtons := paletteButtons r |}
  else if String.eqb key "palette" then
    {| animationButtons := animationButtons r;
       audioButtons := audioButtons r; paletteButtons := buttons |}
  else r.

(** The callback of [options.map] in [registerButtons]. *)
Definition createButton (index : nat) (label : string) : Button :=
  {| textContent := label;
     dataIndex := pretty index;
     classList := {[ "ui-button" ]};
     ariaPressed := None;
     disabled := false;
     title := "" |}.

(** [registerButtons(container, options, key, handler)] in the labels of
    the options; the handler of button [index] is called with [index]. *)
Definition registerButtons (container : bool) (labels : list string)
    (key : string) (r : Registry) : Registry :=
  if container then withButtons key (imap createButton labels) r else r.

(** The callback of [buttons.forEach] in [setActiveButton]. *)
Definition activate (index : Z) (buttonIndex : nat) (button : Button)
  : Button :=
  let active := Z.of_nat buttonIndex =? index in
  {| textContent := textContent button;
     dataIndex := dataIndex button;
     classList := if active then classList button ∪ {[ "is-active" ]}
                  else classList button ∖ {[ "is-active" ]};
     ariaPressed := Some (if active then "true" else "false");
     disabled := disabled button;
     title := title button |}.

Definition setActiveButton (key : string) (index : Z) (r : Registry)
  : Registry :=
  withButtons key (imap (activate index) (buttonsOf key r)) r.

(** The callback of [buttons.forEach] in [updateAnimationButtonState]. *)
Definition enable (isEnabled : bool) (reason : string) (button : Button)
  : Button :=
  {| textContent := textContent button;
     dataIndex := dataIndex button;
     classList := if isEnabled then classList button ∖ {[ "is-disabled" ]}
                  else classList button ∪ {[ "is-disabled" ]};
     ariaPressed := ariaPressed button;
     disabled := negb isEnabled;
     title := if isEnabled then "" else reason |}.

Definition updateAnimationButtonState (isEnabled : bool) (reason : string)
    (r : Registry) : Registry :=
  withButtons "animation" (enable isEnabled reason <$> animationButtons r) r.

(** What an effect of the trace does to the buttons. *)
Definition apply (r : Registry) (e : Effect) : Registry :=
  match e with
  | SetActiveButton key index => setActiveButton key index r
  | UpdateAnimationButtonState isEnabled title =>
      updateAnimationButtonState isEnabled title r
  | _ => r
  end.

Definition replay (trace : list Effect) (r : Registry) : Registry :=
  fold_left apply trace r.

(** The calls the module body makes once the handlers are defined: the
    three [registerButtons], the three [setActiveButton],
    [updateAnimationButtonState()] and [updateMetaTag]. *)
Definition startup : list Effect :=
  out (updateMetaTag "Simulacra Interface — Loading Avatar"
         (Session.updateAnimationButtonState
            (emit (SetActiveButton "palette"
                     (Render.currentPaletteIndex (Render.initial 0%float)))
               (emit (SetActiveButton "audio"
                        (desiredAudioIndex (sound Session.initial)))
                  (emit (SetActiveButton "animation"
                           (desiredAnimationIndex
                              (animation Session.initial)))
                     Session.initial))))).

Definition initial : Registry :=
  let r := {| animationButtons := []; audioButtons := [];
              paletteButtons := [] |} in
  let r := registerButtons true (animLabel <$> animationOptions)
             "animation" r in
  let r := registerButtons true (audioLabel <$> audioOptions) "audio" r in
  let r := registerButtons true (Render.label <$> Render.paletteOptions)
             "palette" r in
  replay startup r.

(** The buttons as the trace of a session leaves them. *)
Definition buttonsAfter (s : Session) : Registry := replay (out s) initial.

Definition isActive (button : Button) : bool :=
  bool_decide ("is-active" ∈ classList button).

(** Of [n] buttons, the one at [index] and no other. *)
Definition only (index : Z) (n : nat) : list bool :=
  (fun k => Z.of_nat k =? index) <$> seq 0 n.

(** The [aria-pressed] attribute of a button that is marked or not. *)
Definition pressedAs (active : bool) : option string :=
  Some (if active then "true" else "false").

(** Of the buttons, the one at [index] is marked as pressed, and no
    other. *)
Definition activeAt (index : Z) (buttons : list Button) : Prop :=
  forall k b, buttons !! k = Some b ->
    isActive b = (Z.of_nat k =? index)
    /\ ariaPressed b = Some (if Z.of_nat k =? index then "true" else "false").

(** Every button is enabled or disabled as [state] tells, with its
    title. *)
Definition enabledAs (state : bool * string) (buttons : list Button) : Prop :=
  forall k b, buttons !! k = Some b ->
    disabled b = negb (fst state)
    /\ bool_decide ("is-disabled" ∈ classList b) = negb (fst state)
    /\ title b = (if fst state then "" else snd state).

End Dom.

Module Page.
Import Js AudioCache Session.

(** How far [init] has come. *)
Inductive Phase :=
| AwaitingAudio (requestId : Z)
| Acquiring
| AwaitingAnimation (requestId : Z)
| Looping.

(** The [pointerdown] listener, which is registered with [once]. *)
Inductive Unlock := Listening | Unlocking | Unlocked.

Record Page := {
  session : Session;
  stage : Render.Stage;
  phase : Phase;
  unlock : Unlock
}.

(** What the clock, the analyser and the avatar give in one frame. *)
Record Reading := {
  clockDelta : float;
  analyserAverage : float;
  hasUpdate : bool;
  hasRotation : bool
}.

(** What happens to the page. *)
Inductive Input :=
| Script (ev : Event)
| Click (key : string) (buttonIndex : nat)
| PaletteSelect (index : Z)
| AcquisitionSettled
| PointerDown
| UnlockSettled (failure : option JsError)
| PointerMove (nx ny : float)
| AnimationFrame (reading : Reading).

(** A call of [switchAudio] or of [switchAnimation] is still suspended;
    a request id names one call. *)
Definition audioCallPending (requestId : Z) (s : Session) : bool :=
  existsb (fun t => match t with
                    | AwaitBuffer _ r _ _ | AwaitResume _ r _ =>
                        r =? requestId
                    | _ => false
                    end) (tasks s).

Definition animationCallPending (requestId : Z) (s : Session) : bool :=
  existsb (awaitsChangeFBX requestId) (tasks s).

(** [setupAudio()] up to the suspension of its [switchAudio] call; the
    listener is attached to the camera when the module body runs. *)
Definition setupAudio (s : Session) : option JsError * Session :=
  let s := match audio (sound s) with
           | Some _ => s
           | None => setAudio newAudio s
           end in
  switchAudio (desiredAudioIndex (sound s)) s.

Definition withSession (v : Session) (pg : Page) : Page :=
  {| session := v; stage := stage pg; phase := phase pg;
     unlock := unlock pg |}.

Definition withStage (v : Render.Stage) (pg : Page) : Page :=
  {| session := session pg; stage := v; phase := phase pg;
     unlock := unlock pg |}.

Definition withPhase (v : Phase) (pg : Page) : Page :=
  {| session := session pg; stage := stage pg; phase := v;
     unlock := unlock pg |}.

Definition withUnlock (v : Unlock) (pg : Page) : Page :=
  {| session := session pg; stage := stage pg; phase := phase pg;
     unlock := v |}.

(** The continuation of the [pointerdown] listener. *)
Definition unlocked (failure : option JsError) (s : Session) : Session :=
  match failure with
  | Some e => emit (ConsoleWarn "Audio unlock failed:" None (Some e)) s
  | None =>
      match audio (sound s) with
      | Some a =>
          if negb (isPlaying a) && bool_decide (is_Some (buffer a))
          then setAudio (play a) s
          else s
      | None => s
      end
  end.

(** [handlePaletteSelect(index)]; an exception of [applyPalette] ends
    the handler. *)
Definition handlePaletteSelect (index : Z) (pg : Page) : Page :=
  let pg := withSession (emit (SetActiveButton "palette" index) (session pg))
              pg in
  match Render.applyPalette index (stage pg) with
  | inr st => withStage st pg
  | inl _ => pg
  end.

Section Run.
Variable sin : float -> float.
Variable env : Env.

(** The module body up to the suspension of [init()]. *)
Definition boot (seed : float) : Page :=
  let stage := Render.initial seed in
  match setupAudio Session.initial with
  | (Some e, s) =>
      {| session := emit (ConsoleWarn "Audio setup failed:" None (Some e)) s;
         stage := stage; phase := Acquiring; unlock := Listening |}
  | (None, s) =>
      let requestId := audioRequestId (sound s) in
      {| session := s; stage := stage;
         phase := if audioCallPending requestId s
                  then AwaitingAudio requestId else Acquiring;
         unlock := Listening |}
  end.

(** The second [try] statement of [init], once [loadGvrmAvatar()] has
    settled, up to the suspension of its [switchAnimation] call. *)
Definition acquired (s : Session) : Session * Phase :=
  match loadGvrmAvatar env s with
  | (inr instance, s) =>
      match switchAnimation (desiredAnimationIndex (animation s))
              (setGvrmInstance instance s) with
      | (None, s) =>
          let requestId := animationRequestId (animation s) in
          (s, if animationCallPending requestId s
              then AwaitingAnimation requestId else Looping)
      | (Some e, s) => (avatarUnavailable e s, Looping)
      end
  | (inl e, s) => (avatarUnavailable e s, Looping)
  end.

(** [init] continues when the call it awaits has ended. *)
Definition advance (pg : Page) : Page :=
  match phase pg with
  | AwaitingAudio r =>
      if audioCallPending r (session pg) then pg else withPhase Acquiring pg
  | AwaitingAnimation r =>
      if animationCallPending r (session pg) then pg
      else withPhase Looping pg
  | _ => pg
  end.

(** The frame that [animate] sees. *)
Definition frameOf (s : Session) (reading : Reading) : Render.Frame :=
  {| Render.delta := clockDelta reading;
     Render.averageFrequency :=
       match audioAnalyser (sound s) with
       | Some _ => Some (analyserAverage reading)
       | None => None
       end;
     Render.avatarUpdatable :=
       match gvrmInstance (avatars s) with
       | Some a =>
           match class a with
           | SimpleVRMWrapper => true
           | GVRM => hasUpdate reading
           end
       | None => false
       end;
     Render.avatarHasRotation :=
       match gvrmInstance (avatars s) with
       | Some a =>
           match class a with
           | SimpleVRMWrapper => true
           | GVRM => hasRotation reading
           end
       | None => false
       end |}.

Definition script (ev : Event) (pg : Page) : Page :=
  advance (withSession (step (session pg) ev) pg).

(** A click reaches the handler of a button that is there and is not
    disabled. *)
Definition click (key : string) (buttonIndex : nat) (pg : Page) : Page :=
  match Dom.buttonsOf key (Dom.buttonsAfter (session pg)) !! buttonIndex with
  | Some button =>
      if Dom.disabled button then pg
      else if String.eqb key "animation"
      then script (SelectAnimation (Z.of_nat buttonIndex)) pg
      else if String.eqb key "audio"
      then script (SelectAudio (Z.of_nat buttonIndex)) pg
      else handlePaletteSelect (Z.of_nat buttonIndex) pg
  | None => pg
  end.

Definition pageStep (pg : Page) (input : Input) : Page :=
  match input with
  | Script ev => script ev pg
  | Click key buttonIndex => click key buttonIndex pg
  | PaletteSelect index => handlePaletteSelect index pg
  | AcquisitionSettled =>
      match phase pg with
      | Acquiring =>
          let '(s, ph) := acquired (session pg) in
          withPhase ph (withSession s pg)
      | _ => pg
      end
  | PointerDown =>
      match unlock pg with
      | Listening => withUnlock Unlocking pg
      | _ => pg
      end
  | UnlockSettled failure =>
      match unlock pg with
      | Unlocking =>
          withUnlock Unlocked
            (withSession (unlocked failure (session pg)) pg)
      | _ => pg
      end
  | PointerMove nx ny => withStage (Render.pointermove nx ny (stage pg)) pg
  | AnimationFrame reading =>
      match phase pg with
      | Looping =>
          withStage
            (Render.animate sin (frameOf (session pg) reading) (stage pg)) pg
      | _ => pg
      end
  end.

Definition pageRun (pg : Page) (inputs : list Input) : Page :=
  fold_left pageStep inputs pg.

End Run.

(** ** What holds of every page the script can reach *)

(** A suspended call holds the option of its index. *)
Definition taskOk (t : Task) : Prop :=
  match t with
  | AwaitChangeFBX i _ o => optionAt animationOptions i = Some o
  | AwaitBuffer i _ o _ | AwaitResume i _ o =>
      optionAt audioOptions i = Some o
  end.

(** A source that plays has started on the buffer that is bound; a
    bound buffer loops, at the volume of one of the tracks. *)
Definition audioOk (a : Audio) : Prop :=
  (isPlaying a = true -> source a = buffer a)
  /\ (is_Some (buffer a) ->
      loop a = true
      /\ exists o, o ∈ audioOptions
                   /\ volume a = default 0.6%float (audioVolume o)).

(** The committed indices name options, the audio source is there, and
    it has a buffer when it plays or is about to. *)
Definition valid (s : Session) : Prop :=
  List.Forall taskOk (tasks s)
  /\ is_Some (optionAt audioOptions (currentAudioIndex (sound s)))
  /\ is_Some (optionAt animationOptions
                (currentAnimationIndex (animation s)))
  /\ exists a, audio (sound s) = Some a /\ audioOk a
               /\ (isPlaying a = true
                   \/ (exists i r o, AwaitResume i r o ∈ tasks s) ->
                   is_Some (buffer a)).

(** The animation buttons are as the capabilities tell. *)
Definition buttonsSynced (s : Session) : Prop :=
  Trace.enabledFrom
    (Trace.buttonStateOf (avatarCapabilities (avatars Session.initial)))
    (out s)
  = Trace.buttonStateOf (avatarCapabilities (avatars s)).

(** The button that is marked in each row is the one of the index the
    page holds for the row. *)
Definition highlighted (pg : Page) : Prop :=
  Trace.highlightFrom "animation" 0 (out (session pg))
  = desiredAnimationIndex (animation (session pg))
  /\ Trace.highlightFrom "audio" 0 (out (session pg))
     = desiredAudioIndex (sound (session pg))
  /\ Trace.highlightFrom "palette" 0 (out (session pg))
     = Render.currentPaletteIndex (stage pg).

(** [init] has not come to the end of [loadGvrmAvatar()] yet. *)
Definition early (ph : Phase) : bool :=
  match ph with
  | AwaitingAudio _ | Acquiring => true
  | AwaitingAnimation _ | Looping => false
  end.

(** The capabilities agree with the phase of [init] and with the
    avatar handle. *)
Definition consistent (pg : Page) : Prop :=
  let c := avatarCapabilities (avatars (session pg)) in
  let instance := gvrmInstance (avatars (session pg)) in
  if early (phase pg) then
    c = {| supportsFBX := false; mode := loading |} /\ instance = None
  else
    match mode c with
    | loading => False
    | gvrm =>
        supportsFBX c = true
        /\ exists a, instance = Some a /\ class a = GVRM
                     /\ avatarSupportsFBX a = true /\ avatarMode a = gvrm
    | simple_vrm =>
        supportsFBX c = false
        /\ exists a, instance = Some a /\ class a = SimpleVRMWrapper
                     /\ avatarSupportsFBX a = false
                     /\ avatarMode a = simple_vrm
    | error => supportsFBX c = false
    end.

(** The input settles the [resume()] that the [switchAudio] call of
    [requestId] awaits. *)
Definition settlesResume (requestId : Z) (input : Input) : bool :=
  match input with
  | Script (ResumeSettled r _) => r =? requestId
  | _ => false
  end.

(** [init] waits for the [switchAudio] call of [requestId], which waits
    for [resume()]; no avatar has been asked for and no frame has been
    drawn. *)
Definition waiting (requestId : Z) (pg : Page) : Prop :=
  phase pg = AwaitingAudio requestId
  /\ (exists i o, AwaitResume i requestId o ∈ tasks (session pg))
  /\ avatars (session pg) = avatars Session.initial
  /\ Render.framesRendered (Render.motion (stage pg)) = 0%nat.

End Page.



(* ===================================================================== *)
(** * Properties of the noise generator *)
(* ===================================================================== *)

Section NoiseFacts.
Import Js Noise.

Lemma bytes_lookup a k :
  bytes a -> 0 <= default 0 (a !! k) < 256.
Proof.
  intros Ha. destruct (a !! k) as [v|] eqn:E; simpl; [|lia].
  exact (proj1 (Forall_lookup _ a) Ha k v E).
Qed.

Lemma bytes_insert a k v :
  bytes a -> 0 <= v < 256 -> bytes (<[k := v]> a).
Proof.
  unfold bytes. intros Ha Hv. now apply Forall_insert.
Qed.

Lemma readCell_byte a n : bytes a -> 0 <= readCell a n < 256.
Proof.
  intros Ha. unfold readCell.
  destruct (arrayIndex n (length a)); [now apply bytes_lookup | lia].
Qed.

Lemma writeCell_bytes a n v :
  bytes a -> 0 <= v < 256 -> bytes (writeCell a n v).
Proof.
  intros Ha Hv. unfold writeCell.
  destruct (arrayIndex n (length a)); [now apply bytes_insert | easy].
Qed.

Lemma writeCell_length a n v : length (writeCell a n v) = length a.
Proof.
  unfold writeCell. destruct (arrayIndex n (length a)); [|easy].
  apply length_insert.
Qed.

Lemma identityTable_bytes : bytes identityTable.
Proof.
  unfold bytes, identityTable. apply List.Forall_forall. intros v Hv.
  apply List.in_map_iff in Hv as (i & <- & Hi).
  apply List.in_seq in Hi. lia.
Qed.

Lemma shuffleStep_bytes seed i p : bytes p -> bytes (shuffleStep seed i p).
Proof.
  intros Hp. unfold shuffleStep.
  apply writeCell_bytes; [|now apply bytes_lookup].
  apply bytes_insert; [easy | now apply readCell_byte].
Qed.

Lemma shuffleStep_length seed i p :
  length (shuffleStep seed i p) = length p.
Proof.
  unfold shuffleStep. rewrite writeCell_length. apply length_insert.
Qed.

Lemma shuffleFrom_bytes seed k :
  forall p, bytes p -> bytes (shuffleFrom seed k p).
Proof.
  induction k as [|k IH]; intros p Hp; simpl; [easy|].
  apply IH. now apply shuffleStep_bytes.
Qed.

Lemma shuffleFrom_length seed k :
  forall p, length (shuffleFrom seed k p) = length p.
Proof.
  induction k as [|k IH]; intros p; simpl; [easy|].
  rewrite IH. apply shuffleStep_length.
Qed.

(** Whatever the seed, the constructor leaves a table of 512 bytes. *)
Lemma newSimplexNoise_perm seed :
  length (perm (newSimplexNoise seed)) = 512%nat
  /\ bytes (perm (newSimplexNoise seed)).
Proof.
  unfold newSimplexNoise, doubled; cbn [perm]. split.
  - now rewrite List.length_map, List.length_seq.
  - apply List.Forall_forall. intros v Hv.
    apply List.in_map_iff in Hv as (i & <- & _).
    apply bytes_lookup, shuffleFrom_bytes, identityTable_bytes.
Qed.

(** The shuffle works on the 256 cells it started from. *)
Lemma shuffled_length seed :
  length (shuffleFrom seed 255 identityTable) = 256%nat.
Proof.
  rewrite shuffleFrom_length. unfold identityTable.
  now rewrite List.length_map, List.length_seq.
Qed.

Lemma readAt_defined (a : Uint8Array) k :
  bytes a -> 0 <= k < Z.of_nat (length a) ->
  exists v, readAt a k = Some v /\ 0 <= v < 256.
Proof.
  intros Ha Hk. unfold readAt.
  destruct (0 <=? k) eqn:E; [|lia].
  destruct (lookup_lt_is_Some_2 a (Z.to_nat k)) as [v Hv]; [lia|].
  exists v. split; [easy|].
  pose proof (bytes_lookup a (Z.to_nat k) Ha) as H. now rewrite Hv in H.
Qed.

(** On a table of 512 bytes every gradient lookup of [noise2D] finds a
    cell: the indices it forms stay below 512. *)
Lemma gradIndex_defined (table : Uint8Array) a b :
  length table = 512%nat -> bytes table ->
  0 <= a <= 256 -> 0 <= b <= 256 ->
  exists g, gradIndex table a b = Some g /\ 0 <= g < 12.
Proof.
  intros Hlen Hb Ha Hb'. unfold gradIndex.
  destruct (readAt_defined table b Hb) as (pb & -> & Hpb); [lia|]. simpl.
  destruct (readAt_defined table (a + pb) Hb) as (v & -> & Hv); [lia|].
  simpl. exists (v mod 12). split; [easy|]. apply Z.mod_pos_bound. lia.
Qed.

Lemma land_255_range z : 0 <= Z.land z 255 <= 255.
Proof.
  change 255 with (Z.ones 8). rewrite Z.land_ones by lia.
  change (2 ^ 8) with 256. change (Z.ones 8) with 255.
  pose proof (Z.mod_pos_bound z 256 ltac:(lia)). lia.
Qed.

(** Two values of the generator seeded with 0.5. *)
Example noise2D_origin :
  noise2D (newSimplexNoise 0.5%float) 0%float 0%float = 0%float.
Proof. reflexivity. Qed.

Example noise2D_sample :
  noise2D (newSimplexNoise 0.5%float) 0.3%float 1.7%float
  = 0.63858589232426299%float.
Proof. reflexivity. Qed.

End NoiseFacts.

(** C9: [noise2D] reads the permutation table of the generator and its
    two arguments and nothing else, and writes nothing: two calls made
    against module states that agree on the table, with the same [x] and
    [y], return the same value, and each call leaves every module-level
    variable, the table included, as it found it. *)
Theorem noise2D_deterministic (st1 st2 : Render.Stage) (x y : float) :
  Noise.perm (Render.simplex st1) = Noise.perm (Render.simplex st2) ->
  fst (Render.callNoise2D x y st1) = fst (Render.callNoise2D x y st2)
  /\ snd (Render.callNoise2D x y st1) = st1
  /\ snd (Render.callNoise2D x y st2) = st2.
Proof.
  intros Hperm. unfold Render.callNoise2D; simpl. split; [|easy].
  destruct (Render.simplex st1) as [p1], (Render.simplex st2) as [p2].
  simpl in Hperm. now subst.
Qed.

Lemma noise2D_deterministic_witness :
  let st1 := Render.initial 0.5%float in
  let st2 := Render.pointermove 0.25%float (-0.5)%float st1 in
  Noise.perm (Render.simplex st1) = Noise.perm (Render.simplex st2)
  /\ fst (Render.callNoise2D 0.3%float 1.7%float st1)
     = fst (Render.callNoise2D 0.3%float 1.7%float st2).
Proof.
  split; [reflexivity|].
  apply (noise2D_deterministic (Render.initial 0.5%float)
           (Render.pointermove 0.25%float (-0.5)%float
              (Render.initial 0.5%float))).
  reflexivity.
Defined.

(* ===================================================================== *)
(** * Properties of the palette switch and of the render loop *)
(* ===================================================================== *)

Section RenderFacts.
Import Js Render.

(** The palette list has an entry exactly at 0, 1 and 2. *)
Lemma paletteAt_None index :
  paletteAt index = None <-> index < 0 \/ 3 <= index.
Proof.
  unfold paletteAt. destruct (0 <=? index) eqn:E.
  - rewrite lookup_ge_None. simpl. lia.
  - split; [lia | easy].
Qed.

(** The frame writes the halo expression of the base opacity and of the
    pulse of that frame into the halo material. *)
Lemma animate_halo sin fr st :
  haloMaterialOpacity (animate sin fr st)
  = haloOpacityAt (haloBaseOpacity st)
      (pulseOf sin fr (timeAccumulator (motion st) + delta fr)%float).
Proof. reflexivity. Qed.

(** With an analyser the pulse is the average frequency over 128, kept
    within [0.2, 1.8]; the loudest reading gives 1.8. *)
Lemma pulseOf_loudest sin d time :
  pulseOf sin {| delta := d; averageFrequency := Some 255%float;
                 avatarUpdatable := false; avatarHasRotation := false |}
    time = 1.8%float.
Proof. reflexivity. Qed.

(** The table, the palette index and the base opacity are not touched
    by a frame. *)
Lemma animate_frame sin fr st :
  simplex (animate sin fr st) = simplex st
  /\ currentPaletteIndex (animate sin fr st) = currentPaletteIndex st
  /\ haloBaseOpacity (animate sin fr st) = haloBaseOpacity st
  /\ look (animate sin fr st) = look st.
Proof. now repeat split. Qed.

End RenderFacts.

(** C8, as the code has it: for base opacity 0.12 and each amplitude
    sample [a] among 0, 1 and 1.8 the halo opacity of the render loop is
    [clamp(b*(0.7+a*0.6), 0.02, 0.6)], and in all three cases that is the
    product [b*(0.7+a*0.6)] itself (about 0.084, 0.156 and 0.2136), which
    lies strictly between the two bounds: at [a = 1.8] neither bound is
    reached. *)
Theorem halo_opacity_samples :
  List.Forall
    (fun a =>
       let raw := (0.12 * (0.7 + a * 0.6))%float in
       Render.haloOpacityAt 0.12%float a
         = Js.clamp raw 0.02%float 0.6%float
       /\ Render.haloOpacityAt 0.12%float a = raw
       /\ PrimFloat.ltb 0.02%float raw = true
       /\ PrimFloat.ltb raw 0.6%float = true)
    [0%float; 1%float; 1.8%float].
Proof. repeat constructor. Qed.

(** C8 as stated fails: at [a = 1.8] the halo opacity is the product
    0.12 * 1.78, below 0.22, and not the upper bound 0.6; so it is too
    when a frame computes it from the loudest analyser reading. *)
Lemma halo_opacity_upper_counterexample :
  Render.haloOpacityAt 0.12%float 1.8%float <> 0.6%float
  /\ PrimFloat.ltb (Render.haloOpacityAt 0.12%float 1.8%float) 0.22%float
     = true
  /\ forall sin d,
       Render.haloMaterialOpacity
         (Render.animate sin
            {| Render.delta := d;
               Render.averageFrequency := Some 255%float;
               Render.avatarUpdatable := false;
               Render.avatarHasRotation := false |}
            (Render.initial 0.5%float))
       <> 0.6%float.
Proof.
  assert (H : Render.haloOpacityAt 0.12%float 1.8%float <> 0.6%float).
  { intros H. apply (f_equal (fun v => PrimFloat.ltb v 0.22%float)) in H.
    vm_compute in H. discriminate. }
  split; [exact H|]. split; [reflexivity|].
  intros sin d. exact H.
Qed.

(** C10: for an index with no palette entry, [applyPalette] does not
    throw; it writes the colors of the first palette, Aurora Bloom, into
    the materials, the lights, the fog, the renderer and the page (the
    same look, base opacity and halo opacity as [applyPalette(0)]), and
    it stores the index it was given, so that afterwards
    [currentPaletteIndex] names no palette while the first palette is
    the one on display. *)
Theorem applyPalette_out_of_range (index : Z) (st : Render.Stage) :
  Render.paletteAt index = None ->
  exists st' st0 first,
    Render.applyPalette index st = inr st'
    /\ Render.applyPalette 0 st = inr st0
    /\ Render.paletteAt 0 = Some first
    /\ Render.look st' = Render.lookOf (Render.colors first)
    /\ Render.look st' = Render.look st0
    /\ Render.haloBaseOpacity st' = Render.haloBaseOpacity st0
    /\ Render.haloMaterialOpacity st' = Render.haloMaterialOpacity st0
    /\ Render.currentPaletteIndex st' = index
    /\ Render.paletteAt (Render.currentPaletteIndex st') = None
    /\ Render.currentPaletteIndex st' <> Render.currentPaletteIndex st0
    /\ Render.label first = "Aurora Bloom"
    /\ Render.look st'
       = {| Render.uColorA := "#2077ff";
            Render.uColorB := "#ff5bd1";
            Render.uGlow := 1.0%float;
            Render.haloColor := "#1e6bff";
            Render.floorMatEmissive := "#0b1835";
            Render.floorMatEmissiveIntensity := 0.6%float;
            Render.keyLightColor := "#4aa8ff";
            Render.keyLightIntensity := 1.35%float;
            Render.rimLightColor := "#ff4d9d";
            Render.rimLightIntensity := 0.8%float;
            Render.hemiLightColor := "#87b9ff";
            Render.hemiLightGroundColor := "#050505";
            Render.fogColor := "#040712";
            Render.clearColor := "#040712";
            Render.bodyBackground :=
              "radial-gradient(circle at center, #0c1024 0%, #040614 42%, #010106 100%)";
            Render.overlayBackground :=
              "radial-gradient(circle at var(--cursor-x, 50%) var(--cursor-y, 50%), rgba(33, 136, 255, 0.24), transparent 45%)" |}
    /\ Render.haloBaseOpacity st' = 0.12%float
    /\ Render.haloMaterialOpacity st' = 0.12%float
    /\ Render.simplex st' = Render.simplex st
    /\ Render.cursor st' = Render.cursor st
    /\ Render.motion st' = Render.motion st.
Proof.
  intros Hnone. unfold Render.applyPalette, Render.selectColors.
  rewrite Hnone.
  assert (Render.paletteAt 0 = Some Render.auroraBloom) as H0
    by reflexivity.
  rewrite H0. do 2 eexists. exists Render.auroraBloom.
  repeat split; try reflexivity; simpl; [easy|].
  intros ->. rewrite H0 in Hnone. discriminate.
Qed.

Lemma applyPalette_out_of_range_witness :
  Render.paletteAt 7 = None
  /\ exists st',
       Render.applyPalette 7 (Render.initial 0.5%float) = inr st'
       /\ Render.currentPaletteIndex st' = 7
       /\ Render.uColorA (Render.look st') = "#2077ff"
       /\ Render.fogColor (Render.look st') = "#040712".
Proof.
  split; [reflexivity|].
  destruct (applyPalette_out_of_range 7 (Render.initial 0.5%float) eq_refl)
    as (st' & st0 & first & H & _ & _ & _ & _ & _ & _ & Hi & _ & _ & _
        & Hl & _).
  exists st'. split; [exact H|]. split; [exact Hi|].
  rewrite Hl. split; reflexivity.
Defined.

(* ===================================================================== *)
(** * Properties of the audio buffer cache *)
(* ===================================================================== *)

Section CacheFacts.
Import Js AudioCache.

Lemma pairs_same_fst {A B} (l : list (A * B)) x y1 y2 :
  NoDup l.*1 -> (x, y1) ∈ l -> (x, y2) ∈ l -> y1 = y2.
Proof.
  induction l as [|[a b] l IH]; simpl; intros Hnd H1 H2.
  - now apply elem_of_nil in H1.
  - apply NoDup_cons in Hnd as [Hnot Hnd].
    apply elem_of_cons in H1 as [H1|H1], H2 as [H2|H2].
    + congruence.
    + injection H1 as -> ->. exfalso. apply Hnot.
      apply list_elem_of_fmap. now exists (a, y2).
    + injection H2 as -> ->. exfalso. apply Hnot.
      apply list_elem_of_fmap. now exists (a, y1).
    + now apply IH.
Qed.

Lemma pairs_same_snd {A B} (l : list (A * B)) x1 x2 y :
  NoDup l.*2 -> (x1, y) ∈ l -> (x2, y) ∈ l -> x1 = x2.
Proof.
  induction l as [|[a b] l IH]; simpl; intros Hnd H1 H2.
  - now apply elem_of_nil in H1.
  - apply NoDup_cons in Hnd as [Hnot Hnd].
    apply elem_of_cons in H1 as [H1|H1], H2 as [H2|H2].
    + congruence.
    + injection H1 as -> ->. exfalso. apply Hnot.
      apply list_elem_of_fmap. now exists (x2, b).
    + injection H2 as -> ->. exfalso. apply Hnot.
      apply list_elem_of_fmap. now exists (x1, b).
    + now apply IH.
Qed.

(** The loader call found for a promise is a call of the list. *)
Lemma urlOf_Some c p url : urlOf p c = Some url -> (url, p) ∈ loads c.
Proof.
  unfold urlOf.
  destruct (List.find _ (loads c)) as [[u q]|] eqn:F; simpl; [|easy].
  intros [= ->]. apply List.find_some in F as [Hin Hq]. simpl in Hq.
  apply Nat.eqb_eq in Hq. subst q. now apply list_elem_of_In.
Qed.

Lemma urlOf_load c url p :
  coherent c -> (url, p) ∈ loads c -> urlOf p c = Some url.
Proof.
  intros Hc Hin. destruct (urlOf p c) as [u|] eqn:E.
  - apply urlOf_Some in E. f_equal.
    exact (pairs_same_snd _ _ _ _ (load_promises c Hc) E Hin).
  - exfalso. unfold urlOf in E.
    destruct (List.find _ (loads c)) as [?|] eqn:F; [easy|].
    apply list_elem_of_In in Hin.
    pose proof (List.find_none _ _ F _ Hin) as H. simpl in H.
    now rewrite Nat.eqb_refl in H.
Qed.

(** A url without an entry has no loader call. *)
Lemma no_entry_no_load c url p :
  coherent c -> buffers c !! url = None -> (url, p) ∉ loads c.
Proof.
  intros Hc Hnone Hin. apply (load_entry c Hc) in Hin.
  rewrite Hnone in Hin. now destruct Hin.
Qed.

Lemma decodesOf_absent c url :
  (forall p, (url, p) ∉ loads c) -> decodesOf url c = 0%nat.
Proof.
  unfold decodesOf. induction (loads c) as [|[u q] l IH]; intros H.
  - easy.
  - rewrite filter_cons. destruct (decide (fst (u, q) = url)) as [E|E].
    + simpl in E. subst u. exfalso. apply (H q). apply elem_of_cons. auto.
    + apply IH. intros p Hp. apply (H p). apply elem_of_cons. auto.
Qed.

Lemma decodesOf_present c url p :
  NoDup (loads c).*1 -> (url, p) ∈ loads c -> decodesOf url c = 1%nat.
Proof.
  unfold decodesOf. induction (loads c) as [|[u q] l IH]; intros Hnd Hin.
  - now apply elem_of_nil in Hin.
  - simpl in Hnd. apply NoDup_cons in Hnd as [Hnot Hnd].
    rewrite filter_cons. destruct (decide (fst (u, q) = url)) as [E|E].
    + simpl in E. subst u. simpl. f_equal.
      assert (H : forall x, x ∈ l -> fst x <> url).
      { intros [u' q'] Hx E'. simpl in E'. subst u'. apply Hnot.
        apply list_elem_of_fmap. now exists (url, q'). }
      clear -H. induction l as [|x l IH]; [easy|].
      rewrite filter_cons. destruct (decide (fst x = url)) as [E|E].
      * exfalso. apply (H x); [apply elem_of_cons; auto | easy].
      * apply IH. intros y Hy. apply H. apply elem_of_cons. auto.
    + apply elem_of_cons in Hin as [Hin|Hin].
      * injection Hin as -> ->. now simpl in E.
      * now apply IH.
Qed.

Lemma coherent_empty : coherent empty.
Proof.
  constructor; simpl.
  - intros ? ? H. now apply elem_of_nil in H.
  - intros ? ? H. now apply elem_of_nil in H.
  - constructor.
  - constructor.
Qed.

Lemma coherent_loadAudioBuffer url c :
  coherent c -> coherent (snd (loadAudioBuffer url c)).
Proof.
  intros Hc. unfold loadAudioBuffer.
  destruct (buffers c !! url) as [p|] eqn:E; simpl; [easy|].
  destruct Hc as [Hp He Hu Hq]. constructor; simpl.
  - intros u p. rewrite length_app. simpl.
    intros [H|H]%elem_of_app.
    + apply Hp in H. lia.
    + apply list_elem_of_singleton in H. injection H as -> ->. lia.
  - intros u p [H|H]%elem_of_app.
    + apply He in H. destruct (decide (url = u)) as [->|Hne].
      * rewrite lookup_insert_eq. eauto.
      * now rewrite lookup_insert_ne.
    + apply list_elem_of_singleton in H. injection H as -> ->.
      rewrite lookup_insert_eq. eauto.
  - rewrite fmap_app. apply NoDup_app. split; [easy|]. split.
    + intros u Hin Hin'. simpl in Hin'.
      apply list_elem_of_singleton in Hin'. subst u.
      apply list_elem_of_fmap in Hin as ([u q] & Hu' & Hin).
      simpl in Hu'. subst u. apply He in Hin. rewrite E in Hin.
      now destruct Hin.
    + simpl. apply NoDup_singleton.
  - rewrite fmap_app. apply NoDup_app. split; [easy|]. split.
    + intros q Hin Hin'. simpl in Hin'.
      apply list_elem_of_singleton in Hin'. subst q.
      apply list_elem_of_fmap in Hin as ([u q] & Hq' & Hin).
      simpl in Hq'. subst q. apply Hp in Hin. lia.
    + simpl. apply NoDup_singleton.
Qed.

Lemma coherent_loaderResolves p b c c' :
  coherent c -> loaderResolves p b c = Some c' -> coherent c'.
Proof.
  intros [Hp He Hu Hq]. unfold loaderResolves.
  destruct (urlOf p c) as [url|]; [|easy].
  destruct (promises c !! p) as [[| |]|]; try easy.
  intros [= <-]. constructor; simpl; try easy.
  - intros u q H. apply Hp in H.
    rewrite length_app, length_insert. lia.
  - intros u q H. apply He in H. destruct (decide (url = u)) as [->|Hne].
    + rewrite lookup_insert_eq. eauto.
    + now rewrite lookup_insert_ne.
Qed.

Lemma coherent_loaderRejects p e c c' :
  coherent c -> loaderRejects p e c = Some c' -> coherent c'.
Proof.
  intros [Hp He Hu Hq]. unfold loaderRejects.
  destruct (urlOf p c) as [url|]; [|easy].
  destruct (promises c !! p) as [[| |]|]; try easy.
  intros [= <-]. constructor; simpl; try easy.
  intros u q H. apply Hp in H. rewrite length_insert. lia.
Qed.

Lemma coherent_step c ev : coherent c -> coherent (cacheStep c ev).
Proof.
  intros Hc. destruct ev as [url|p b|p e]; simpl.
  - now apply coherent_loadAudioBuffer.
  - destruct (loaderResolves p b c) as [c'|] eqn:E; simpl; [|easy].
    eapply coherent_loaderResolves; eauto.
  - destruct (loaderRejects p e c) as [c'|] eqn:E; simpl; [|easy].
    eapply coherent_loaderRejects; eauto.
Qed.

Lemma coherent_run evs : forall c, coherent c -> coherent (cacheRun c evs).
Proof.
  unfold cacheRun. induction evs as [|ev evs IH]; intros c Hc; simpl.
  - easy.
  - apply IH. now apply coherent_step.
Qed.

(** A promise of the store keeps its place when the store grows at the
    end or changes at another place. *)
Lemma lookup_settle_other (ps : list PromiseState) p q v w st :
  ps !! p = Some st -> q <> p ->
  (<[q := v]> ps ++ [w]) !! p = Some st /\ <[q := v]> ps !! p = Some st.
Proof.
  intros Hp Hne. pose proof (lookup_lt_Some _ _ _ Hp) as Hlt.
  rewrite lookup_app_l by (rewrite length_insert; lia).
  now rewrite list_lookup_insert_ne.
Qed.

(** A loader call that settles another promise belongs to another
    url. *)
Lemma other_promise_other_url c url p q u :
  coherent c -> (url, p) ∈ loads c -> urlOf q c = Some u -> q <> p ->
  u <> url.
Proof.
  intros Hc Hin Hu Hne ->. apply urlOf_Some in Hu. apply Hne.
  exact (pairs_same_fst _ _ _ _ (load_urls c Hc) Hu Hin).
Qed.

Lemma inFlight_step c ev url p :
  coherent c -> inFlight url p c -> settles p ev = false ->
  inFlight url p (cacheStep c ev).
Proof.
  intros Hc (Hin & Hb & Hp) Hs. destruct ev as [u|q b|q e]; simpl.
  - unfold loadAudioBuffer. destruct (buffers c !! u) eqn:E; simpl.
    + now repeat split.
    + assert (u <> url) by congruence. repeat split; simpl.
      * apply elem_of_app. auto.
      * now rewrite lookup_insert_ne.
      * rewrite lookup_app_l; [easy|]. now apply lookup_lt_Some in Hp.
  - simpl in Hs. apply bool_decide_eq_false in Hs.
    unfold loaderResolves. destruct (urlOf q c) as [u|] eqn:U;
      [|now repeat split].
    destruct (promises c !! q) as [[| |]|]; try now repeat split.
    pose proof (other_promise_other_url c url p q u Hc Hin U Hs).
    repeat split; simpl; [easy | now rewrite lookup_insert_ne |].
    now apply lookup_settle_other.
  - simpl in Hs. apply bool_decide_eq_false in Hs.
    unfold loaderRejects. destruct (urlOf q c) as [u|] eqn:U;
      [|now repeat split].
    destruct (promises c !! q) as [[| |]|]; try now repeat split.
    repeat split; simpl; [easy | easy |].
    now apply (lookup_settle_other _ p q (Rejected e) Pending).
Qed.

Lemma inFlight_run url p evs :
  forall c, coherent c -> inFlight url p c -> leaves p evs = true ->
            inFlight url p (cacheRun c evs).
Proof.
  unfold cacheRun, leaves.
  induction evs as [|ev evs IH]; intros c Hc Hf Hl; simpl; [easy|].
  simpl in Hl. apply andb_true_iff in Hl as [Hev Hl].
  apply negb_true_iff in Hev.
  apply IH; [now apply coherent_step | now apply inFlight_step | easy].
Qed.

Lemma decoded_step c ev url p b :
  coherent c -> decoded url p b c -> decoded url p b (cacheStep c ev).
Proof.
  intros Hc (Hin & Hp & q & Hb & Hq). destruct ev as [u|r b'|r e]; simpl.
  - unfold loadAudioBuffer. destruct (buffers c !! u) eqn:E; simpl.
    + split; [easy|]. split; [easy|]. now exists q.
    + assert (u <> url) by congruence. split; simpl.
      * apply elem_of_app. auto.
      * split.
        -- rewrite lookup_app_l; [easy|]. now apply lookup_lt_Some in Hp.
        -- exists q. rewrite lookup_insert_ne by easy. split; [easy|].
           rewrite lookup_app_l; [easy|]. now apply lookup_lt_Some in Hq.
  - unfold loaderResolves. destruct (urlOf r c) as [u|] eqn:U;
      [|split; [easy|]; split; [easy|]; now exists q].
    destruct (promises c !! r) as [[| |]|] eqn:R;
      try (split; [easy|]; split; [easy|]; now exists q).
    assert (r <> p) by congruence. assert (r <> q) by congruence.
    pose proof (other_promise_other_url c url p r u Hc Hin U H).
    split; [easy|]. simpl. split; [now apply lookup_settle_other|].
    exists q. rewrite lookup_insert_ne by easy. split; [easy|].
    now apply lookup_settle_other.
  - unfold loaderRejects. destruct (urlOf r c) as [u|] eqn:U;
      [|split; [easy|]; split; [easy|]; now exists q].
    destruct (promises c !! r) as [[| |]|] eqn:R;
      try (split; [easy|]; split; [easy|]; now exists q).
    assert (r <> p) by congruence. assert (r <> q) by congruence.
    split; [easy|]. simpl. split.
    + now apply (lookup_settle_other _ p r (Rejected e) Pending).
    + exists q. split; [easy|].
      now apply (lookup_settle_other _ q r (Rejected e) Pending).
Qed.

Lemma decoded_run url p b evs :
  forall c, coherent c -> decoded url p b c ->
            decoded url p b (cacheRun c evs).
Proof.
  unfold cacheRun. induction evs as [|ev evs IH]; intros c Hc Hd; simpl.
  - easy.
  - apply IH; [now apply coherent_step | now apply decoded_step].
Qed.

Lemma failed_step c ev url p e :
  coherent c -> failed url p e c -> failed url p e (cacheStep c ev).
Proof.
  intros Hc (Hin & Hb & Hp). destruct ev as [u|r b'|r e']; simpl.
  - unfold loadAudioBuffer. destruct (buffers c !! u) eqn:E; simpl.
    + now repeat split.
    + assert (u <> url) by congruence. repeat split; simpl.
      * apply elem_of_app. auto.
      * now rewrite lookup_insert_ne.
      * rewrite lookup_app_l; [easy|]. now apply lookup_lt_Some in Hp.
  - unfold loaderResolves. destruct (urlOf r c) as [u|] eqn:U;
      [|now repeat split].
    destruct (promises c !! r) as [[| |]|] eqn:R; try now repeat split.
    assert (r <> p) by congruence.
    pose proof (other_promise_other_url c url p r u Hc Hin U H).
    repeat split; simpl; [easy | now rewrite lookup_insert_ne |].
    now apply lookup_settle_other.
  - unfold loaderRejects. destruct (urlOf r c) as [u|] eqn:U;
      [|now repeat split].
    destruct (promises c !! r) as [[| |]|] eqn:R; try now repeat split.
    assert (r <> p) by congruence.
    repeat split; simpl; [easy | easy |].
    now apply (lookup_settle_other _ p r (Rejected e') Pending).
Qed.

Lemma failed_run url p e evs :
  forall c, coherent c -> failed url p e c ->
            failed url p e (cacheRun c evs).
Proof.
  unfold cacheRun. induction evs as [|ev evs IH]; intros c Hc Hd; simpl.
  - easy.
  - apply IH; [now apply coherent_step | now apply failed_step].
Qed.

(** A miss starts the decode and stores its promise at once. *)
Lemma miss_inFlight c url :
  buffers c !! url = None ->
  inFlight url (fst (loadAudioBuffer url c)) (snd (loadAudioBuffer url c)).
Proof.
  intros Hnone. unfold loadAudioBuffer. rewrite Hnone. simpl.
  repeat split; simpl.
  - apply elem_of_app. right. now apply list_elem_of_singleton.
  - now rewrite lookup_insert_eq.
  - rewrite lookup_app_r by lia. now rewrite Nat.sub_diag.
Qed.

(** The loader's success turns a decode in flight into a decoded
    entry. *)
Lemma inFlight_resolve c url p b :
  coherent c -> inFlight url p c ->
  decoded url p b (cacheStep c (Resolve p b)).
Proof.
  intros Hc (Hin & Hb & Hp). simpl. unfold loaderResolves.
  rewrite (urlOf_load c url p Hc Hin), Hp. simpl.
  pose proof (lookup_lt_Some _ _ _ Hp) as Hlt.
  split; [easy|]. simpl. split.
  - rewrite lookup_app_l by (rewrite length_insert; lia).
    now rewrite list_lookup_insert_eq.
  - exists (length (promises c)). rewrite lookup_insert_eq.
    split; [easy|].
    rewrite lookup_app_r by (rewrite length_insert; lia).
    now rewrite length_insert, Nat.sub_diag.
Qed.

(** The loader's failure leaves the rejected promise as the entry. *)
Lemma inFlight_reject c url p e :
  coherent c -> inFlight url p c ->
  failed url p e (cacheStep c (Reject p e)).
Proof.
  intros Hc (Hin & Hb & Hp). simpl. unfold loaderRejects.
  rewrite (urlOf_load c url p Hc Hin), Hp. simpl.
  pose proof (lookup_lt_Some _ _ _ Hp) as Hlt.
  repeat split; simpl; [easy | easy |].
  now rewrite list_lookup_insert_eq.
Qed.

End CacheFacts.

(** C5: in a cache reached by any sequence of gets and loader callbacks,
    a get for a url without an entry starts one decode and stores its
    pending promise at once; a second get for the url, made while that
    decode is in flight, returns the same promise, changes nothing and
    starts no decode; when the loader delivers [b] both callers receive
    [b]; and whatever happens afterwards, every later get for the url
    returns a promise fulfilled with [b] without touching the loader: the
    url has had exactly one decode. *)
Theorem cache_collapses_gets
    (evs0 evs1 evs2 evs3 : list AudioCache.CacheEvent) (url : string)
    (b : AudioCache.AudioBuffer) :
  let c := AudioCache.cacheRun AudioCache.empty evs0 in
  let p1 := fst (AudioCache.loadAudioBuffer url c) in
  let c1 := snd (AudioCache.loadAudioBuffer url c) in
  let c2 := AudioCache.cacheRun c1 evs1 in
  let p2 := fst (AudioCache.loadAudioBuffer url c2) in
  let c3 := AudioCache.cacheRun (snd (AudioCache.loadAudioBuffer url c2)) evs2 in
  let c4 := AudioCache.cacheStep c3 (AudioCache.Resolve p1 b) in
  let c5 := AudioCache.cacheRun c4 evs3 in
  let p3 := fst (AudioCache.loadAudioBuffer url c5) in
  AudioCache.buffers c !! url = None ->
  AudioCache.leaves p1 evs1 = true ->
  AudioCache.leaves p1 evs2 = true ->
  AudioCache.decodesOf url c = 0%nat
  /\ (AudioCache.buffers c1 !! url = Some p1
      /\ AudioCache.promises c1 !! p1 = Some AudioCache.Pending
      /\ AudioCache.decodesOf url c1 = 1%nat)
  /\ (p2 = p1
      /\ snd (AudioCache.loadAudioBuffer url c2) = c2
      /\ AudioCache.decodesOf url c3 = 1%nat)
  /\ (AudioCache.received p1 c4 = Some (inr b)
      /\ AudioCache.received p2 c4 = Some (inr b))
  /\ (AudioCache.received p1 c5 = Some (inr b)
      /\ AudioCache.received p3 c5 = Some (inr b)
      /\ snd (AudioCache.loadAudioBuffer url c5) = c5
      /\ AudioCache.decodesOf url c5 = 1%nat).
Proof.
  intros c p1 c1 c2 p2 c3 c4 c5 p3 Hnone H1 H2.
  assert (Hc : AudioCache.coherent c)
    by apply coherent_run, coherent_empty.
  assert (Hc1 : AudioCache.coherent c1)
    by now apply coherent_loadAudioBuffer.
  assert (F1 : AudioCache.inFlight url p1 c1) by now apply miss_inFlight.
  assert (Hc2 : AudioCache.coherent c2) by now apply coherent_run.
  assert (F2 : AudioCache.inFlight url p1 c2) by now apply inFlight_run.
  assert (Hget : AudioCache.loadAudioBuffer url c2 = (p1, c2)).
  { unfold AudioCache.loadAudioBuffer.
    destruct F2 as (_ & -> & _). reflexivity. }
  assert (Hp2 : p2 = p1) by (unfold p2; now rewrite Hget).
  assert (Hc3 : AudioCache.coherent c3).
  { unfold c3. rewrite Hget. now apply coherent_run. }
  assert (F3 : AudioCache.inFlight url p1 c3).
  { unfold c3. rewrite Hget. now apply inFlight_run. }
  assert (D4 : AudioCache.decoded url p1 b c4) by now apply inFlight_resolve.
  assert (Hc4 : AudioCache.coherent c4) by now apply coherent_step.
  assert (D5 : AudioCache.decoded url p1 b c5) by now apply decoded_run.
  assert (Hc5 : AudioCache.coherent c5) by now apply coherent_run.
  assert (R4 : AudioCache.received p1 c4 = Some (inr b)).
  { unfold AudioCache.received. now destruct D4 as (_ & -> & _). }
  split.
  { apply decodesOf_absent. intros p. now apply no_entry_no_load. }
  split.
  { destruct F1 as (Hin & Hb & Hp). repeat split; try easy.
    apply (decodesOf_present c1 url p1); [apply Hc1 | easy]. }
  split.
  { split; [easy|]. split; [now rewrite Hget|].
    apply (decodesOf_present c3 url p1); [apply Hc3 | apply F3]. }
  split.
  { split; [easy | now rewrite Hp2]. }
  destruct D5 as (Hin & Hp & q & Hb & Hq).
  assert (Hget5 : AudioCache.loadAudioBuffer url c5 = (q, c5)).
  { unfold AudioCache.loadAudioBuffer. now rewrite Hb. }
  unfold p3. rewrite Hget5. simpl. unfold AudioCache.received.
  rewrite Hp, Hq. repeat split.
  apply (decodesOf_present c5 url p1); [apply Hc5 | easy].
Qed.

Lemma cache_collapses_gets_witness :
  let url := "./assets/KMGY%20.mp3" in
  let other := "./assets/Tokyo%20Urban%20Haka%20No%20Ura.mp3" in
  let b := AudioCache.Decoded 7 in
  let evs1 := [AudioCache.Get other] in
  let evs2 := [AudioCache.Reject 1 (Js.Error "decode")] in
  let evs3 := [AudioCache.Get url; AudioCache.Get other] in
  let c := AudioCache.cacheRun AudioCache.empty [] in
  let p1 := fst (AudioCache.loadAudioBuffer url c) in
  let c1 := snd (AudioCache.loadAudioBuffer url c) in
  let c2 := AudioCache.cacheRun c1 evs1 in
  let p2 := fst (AudioCache.loadAudioBuffer url c2) in
  let c3 := AudioCache.cacheRun (snd (AudioCache.loadAudioBuffer url c2)) evs2 in
  let c4 := AudioCache.cacheStep c3 (AudioCache.Resolve p1 b) in
  let c5 := AudioCache.cacheRun c4 evs3 in
  (AudioCache.buffers c !! url = None
   /\ AudioCache.leaves p1 evs1 = true /\ AudioCache.leaves p1 evs2 = true)
  /\ p2 = p1
  /\ AudioCache.received p2 c4 = Some (inr b)
  /\ AudioCache.decodesOf url c5 = 1%nat.
Proof.
  split; [repeat split|].
  destruct (cache_collapses_gets []
              [AudioCache.Get "./assets/Tokyo%20Urban%20Haka%20No%20Ura.mp3"]
              [AudioCache.Reject 1 (Js.Error "decode")]
              [AudioCache.Get "./assets/KMGY%20.mp3";
               AudioCache.Get "./assets/Tokyo%20Urban%20Haka%20No%20Ura.mp3"]
              "./assets/KMGY%20.mp3" (AudioCache.Decoded 7)
              eq_refl eq_refl eq_refl)
    as (_ & _ & (H2 & _) & (_ & H4) & _ & _ & _ & D).
  split; [exact H2|]. split; [exact H4 | exact D].
Defined.

(** C3 as stated fails: after a failed decode the rejected promise is
    still the entry of the url, so the next get returns that promise, with
    the same error, and the loader is not called again; a second
    [switchAudio] for the track only logs the old error once more. *)
Lemma failed_decode_is_cached_counterexample :
  let url := "./assets/KMGY%20.mp3" in
  let e := Js.Error "decode" in
  let c := AudioCache.cacheRun AudioCache.empty
             [AudioCache.Get url; AudioCache.Reject 0 e] in
  let s := Session.run Session.initial
             [Session.SelectAudio 1; Session.LoaderSettled 0 (inl e)] in
  AudioCache.loadAudioBuffer url c = (0%nat, c)
  /\ AudioCache.received 0 c = Some (inl e)
  /\ AudioCache.decodesOf url (snd (AudioCache.loadAudioBuffer url c))
     = AudioCache.decodesOf url c
  /\ Session.cache (Session.step s (Session.SelectAudio 1))
     = Session.cache s
  /\ AudioCache.loads (Session.cache (Session.step s (Session.SelectAudio 1)))
     = [(url, 0%nat)].
Proof. vm_compute. repeat split. Qed.

(** C3, as the code has it: when the decode of a url fails, the rejected
    promise stays in the map; whatever happens afterwards, a get for the
    url returns that promise, which delivers the same error, and starts
    no decode: the url has had one decode and gets no other. *)
Theorem failed_decode_is_cached
    (evs0 evs1 evs2 : list AudioCache.CacheEvent) (url : string)
    (e : Js.JsError) :
  let c := AudioCache.cacheRun AudioCache.empty evs0 in
  let p := fst (AudioCache.loadAudioBuffer url c) in
  let c1 := AudioCache.cacheRun (snd (AudioCache.loadAudioBuffer url c)) evs1 in
  let c2 :=
    AudioCache.cacheRun (AudioCache.cacheStep c1 (AudioCache.Reject p e))
      evs2 in
  AudioCache.buffers c !! url = None ->
  AudioCache.leaves p evs1 = true ->
  AudioCache.loadAudioBuffer url c2 = (p, c2)
  /\ AudioCache.received p c2 = Some (inl e)
  /\ AudioCache.decodesOf url c2 = 1%nat.
Proof.
  intros c p c1 c2 Hnone H1.
  assert (Hc : AudioCache.coherent c)
    by apply coherent_run, coherent_empty.
  assert (Hc1 : AudioCache.coherent c1)
    by now apply coherent_run, coherent_loadAudioBuffer.
  assert (F1 : AudioCache.inFlight url p c1).
  { apply inFlight_run; [now apply coherent_loadAudioBuffer | | easy].
    now apply miss_inFlight. }
  assert (R : AudioCache.failed url p e c2).
  { apply failed_run; [now apply coherent_step|].
    now apply inFlight_reject. }
  assert (Hc2 : AudioCache.coherent c2)
    by now apply coherent_run, coherent_step.
  destruct R as (Hin & Hb & Hp). split.
  { unfold AudioCache.loadAudioBuffer. now rewrite Hb. }
  split.
  { unfold AudioCache.received. now rewrite Hp. }
  apply (decodesOf_present c2 url p); [apply Hc2 | easy].
Qed.

Lemma failed_decode_is_cached_witness :
  let url := "./assets/KMGY%20.mp3" in
  let e := Js.Error "decode" in
  let evs2 := [AudioCache.Get url; AudioCache.Get url] in
  let c := AudioCache.cacheRun AudioCache.empty [] in
  let p := fst (AudioCache.loadAudioBuffer url c) in
  let c1 := AudioCache.cacheRun (snd (AudioCache.loadAudioBuffer url c)) [] in
  let c2 :=
    AudioCache.cacheRun (AudioCache.cacheStep c1 (AudioCache.Reject p e))
      evs2 in
  (AudioCache.buffers c !! url = None /\ AudioCache.leaves p [] = true)
  /\ AudioCache.loadAudioBuffer url c2 = (p, c2)
  /\ AudioCache.received p c2 = Some (inl e)
  /\ AudioCache.decodesOf url c2 = 1%nat.
Proof.
  split; [repeat split|].
  exact (failed_decode_is_cached [] []
           [AudioCache.Get "./assets/KMGY%20.mp3";
            AudioCache.Get "./assets/KMGY%20.mp3"]
           "./assets/KMGY%20.mp3" (Js.Error "decode") eq_refl eq_refl).
Defined.

(* ===================================================================== *)
(** * Properties of the switches *)
(* ===================================================================== *)

Section SwitchFacts.
Import Js AudioCache Session.

(** ** Finding a suspended call *)

Lemma takeTask_Some f ts t rest :
  takeTask f ts = Some (t, rest) ->
  f t = true /\ (forall x, x ∈ ts <-> x = t \/ x ∈ rest).
Proof.
  revert t rest. induction ts as [|a ts IH]; intros t rest; simpl; [easy|].
  destruct (f a) eqn:Fa.
  - intros [= -> ->]. split; [easy|]. intros x. apply elem_of_cons.
  - destruct (takeTask f ts) as [[found others]|]; [|easy].
    intros [= -> <-]. destruct (IH t others eq_refl) as [Hf Hin].
    split; [easy|]. intros x. rewrite !elem_of_cons, Hin. tauto.
Qed.

Lemma takeTask_None f ts :
  takeTask f ts = None -> forall t, t ∈ ts -> f t = false.
Proof.
  induction ts as [|a ts IH]; simpl; intros H t Hin.
  - now apply elem_of_nil in Hin.
  - destruct (f a) eqn:Fa; [easy|].
    destruct (takeTask f ts) as [[??]|]; [easy|].
    apply elem_of_cons in Hin as [->|Hin]; auto.
Qed.

(** ** What the audio side leaves alone *)

Lemma sameAnimation_refl s : sameAnimation s s.
Proof. now repeat split. Qed.

Lemma sameAnimation_trans s1 s2 s3 :
  sameAnimation s1 s2 -> sameAnimation s2 s3 -> sameAnimation s1 s3.
Proof.
  intros (A1 & B1 & C1) (A2 & B2 & C2). repeat split; try congruence.
  - intros H. now apply C1, C2.
  - intros H. now apply C2, C1.
Qed.

Lemma sameAnimation_audioFailed o e s : sameAnimation s (audioFailed o e s).
Proof. now repeat split. Qed.

Lemma sameAnimation_afterBuffer i r o b s :
  sameAnimation s (afterBuffer i r o b s).
Proof.
  unfold afterBuffer.
  destruct (negb _); [apply sameAnimation_refl|].
  destruct (audio (sound s)); [|apply sameAnimation_refl].
  repeat split; simpl.
  - intros [H|H]%elem_of_app; [easy|].
    now apply list_elem_of_singleton in H.
  - intros H. apply elem_of_app. auto.
Qed.

Lemma sameAnimation_afterResume i o s : sameAnimation s (afterResume i o s).
Proof.
  unfold afterResume, commitAudio.
  destruct (audio (sound s)) as [a|]; [|now repeat split].
  destruct (isPlaying a); now repeat split.
Qed.

Lemma sameAnimation_resumeAll result waiting :
  forall s, sameAnimation s (fold_left (resumeWithBuffer result) waiting s).
Proof.
  induction waiting as [|t ts IH]; intros s; simpl.
  - apply sameAnimation_refl.
  - eapply sameAnimation_trans; [|apply IH].
    destruct t, result; simpl; try apply sameAnimation_refl.
    + apply sameAnimation_audioFailed.
    + apply sameAnimation_afterBuffer.
Qed.

Lemma sameAnimation_switchAudio index s :
  sameAnimation s (detached (switchAudio index s)).
Proof.
  unfold switchAudio.
  destruct (optionAt audioOptions index) as [o|]; [|now repeat split].
  destruct (loadAudioBuffer _ _) as [p c] eqn:L.
  destruct (promises c !! p) as [[|b|e]|]; simpl.
  - repeat split; simpl.
    + intros [H|H]%elem_of_app; [easy|].
      now apply list_elem_of_singleton in H.
    + intros H. apply elem_of_app. auto.
  - eapply sameAnimation_trans; [|apply sameAnimation_afterBuffer].
    now repeat split.
  - now repeat split.
  - repeat split; simpl.
    + intros [H|H]%elem_of_app; [easy|].
      now apply list_elem_of_singleton in H.
    + intros H. apply elem_of_app. auto.
Qed.

Lemma sameAnimation_audio_event s ev :
  match ev with
  | SelectAudio _ | LoaderSettled _ _ | ResumeSettled _ _ => True
  | _ => False
  end ->
  sameAnimation s (step s ev).
Proof.
  destruct ev as [i|i|r f|p result|r f]; try easy; intros _; simpl.
  - apply sameAnimation_switchAudio.
  - destruct (match result with inl _ => _ | inr _ => _ end) as [c|];
      [|apply sameAnimation_refl].
    eapply sameAnimation_trans; [|apply sameAnimation_resumeAll].
    repeat split; simpl.
    + intros H. apply list_elem_of_In, List.filter_In in H as [H _].
      now apply list_elem_of_In.
    + intros H. apply list_elem_of_In, List.filter_In. split; [|easy].
      now apply list_elem_of_In.
  - destruct (takeTask _ _) as [[t others]|] eqn:T;
      [|apply sameAnimation_refl].
    apply takeTask_Some in T as [Ht Hin].
    destruct t as [| |i r' o]; try easy.
    assert (S0 : sameAnimation s (withTasks others s)).
    { repeat split; simpl.
      - intros H. apply Hin. auto.
      - intros H. apply Hin in H as [H|H]; [easy|easy]. }
    eapply sameAnimation_trans; [exact S0|].
    destruct f; [apply sameAnimation_audioFailed|apply sameAnimation_afterResume].
Qed.

Lemma takeTask_exists f ts t :
  t ∈ ts -> f t = true -> exists found rest, takeTask f ts = Some (found, rest).
Proof.
  intros Hin Hf. destruct (takeTask f ts) as [[found rest]|] eqn:T; [eauto|].
  rewrite (takeTask_None f ts T t Hin) in Hf. discriminate.
Qed.

(** ** The animation switch *)

Lemma latest_same iN ridN s s' :
  sameAnimation s s' -> latest iN ridN s -> latest iN ridN s'.
Proof.
  intros (A & _ & T) [R L]. split; [now rewrite A|].
  intros i o H. apply (L i o). now apply T.
Qed.

(** A settlement of [changeFBX] commits nothing but the index of the
    latest request. *)
Lemma latest_settle iN ridN s r f :
  latest iN ridN s ->
  let s' := step s (ChangeFBXSettled r f) in
  latest iN ridN s'
  /\ (currentAnimationIndex (animation s')
      = currentAnimationIndex (animation s)
      \/ currentAnimationIndex (animation s') = iN).
Proof.
  intros [R L]. simpl.
  destruct (takeTask _ _) as [[t others]|] eqn:T; [|now repeat split; auto].
  apply takeTask_Some in T as [Ht Hin].
  destruct t as [i r' o| |]; try easy. simpl in Ht.
  apply Z.eqb_eq in Ht. subst r'.
  assert (L' : forall i' o', AwaitChangeFBX i' ridN o' ∈ others -> i' = iN).
  { intros i' o' H. apply (L i' o'). apply Hin. auto. }
  destruct f as [e|].
  - split; [now split|]. now left.
  - unfold afterChangeFBX. simpl. destruct (r =? _) eqn:E.
    + split; [now split|]. right. simpl.
      apply Z.eqb_eq in E. apply (L i o). apply Hin. left. congruence.
    + split; [now split|]. now left.
Qed.

Lemma latest_step iN ridN s ev :
  isSelectAnimation ev = false -> latest iN ridN s ->
  latest iN ridN (step s ev)
  /\ (currentAnimationIndex (animation (step s ev))
      = currentAnimationIndex (animation s)
      \/ currentAnimationIndex (animation (step s ev)) = iN).
Proof.
  intros Hev HL. destruct ev as [i|i|r f|p result|r f]; try easy.
  - pose proof (sameAnimation_audio_event s (SelectAudio i) I) as S.
    split; [now apply (latest_same _ _ s)|]. left. now destruct S as [-> _].
  - now apply latest_settle.
  - pose proof (sameAnimation_audio_event s (LoaderSettled p result) I) as S.
    split; [now apply (latest_same _ _ s)|]. left. now destruct S as [-> _].
  - pose proof (sameAnimation_audio_event s (ResumeSettled r f) I) as S.
    split; [now apply (latest_same _ _ s)|]. left. now destruct S as [-> _].
Qed.

Lemma latest_run iN ridN evs :
  forall s, noAnimationRequest evs = true -> latest iN ridN s ->
  latest iN ridN (run s evs)
  /\ (currentAnimationIndex (animation (run s evs))
      = currentAnimationIndex (animation s)
      \/ currentAnimationIndex (animation (run s evs)) = iN).
Proof.
  unfold run, noAnimationRequest.
  induction evs as [|ev evs IH]; intros s Hev HL; simpl; [auto|].
  simpl in Hev. apply andb_true_iff in Hev as [H1 H2].
  apply negb_true_iff in H1.
  destruct (latest_step iN ridN s ev H1 HL) as [HL' Hc].
  destruct (IH _ H2 HL') as [HL'' Hc'].
  split; [easy|]. destruct Hc' as [-> | ->]; auto.
Qed.

(** A suspended call stays suspended until its own settlement. *)
Lemma pending_step s ev i r o :
  isSelectAnimation ev = false ->
  match ev with ChangeFBXSettled r' _ => negb (r' =? r) | _ => true end = true ->
  AwaitChangeFBX i r o ∈ tasks s -> AwaitChangeFBX i r o ∈ tasks (step s ev).
Proof.
  intros Hev Hne Hin. destruct ev as [j|j|r' f|p result|r' f]; try easy.
  - now apply (sameAnimation_audio_event s (SelectAudio j) I).
  - simpl. destruct (takeTask _ _) as [[t others]|] eqn:T; [|easy].
    apply takeTask_Some in T as [Ht Hin'].
    destruct t as [i' r'' o'| |]; try easy. simpl in Ht.
    apply Z.eqb_eq in Ht. subst r''.
    apply negb_true_iff, Z.eqb_neq in Hne.
    destruct (proj1 (Hin' _) Hin) as [E|Hin2]; [congruence|].
    destruct f; [easy|]. unfold afterChangeFBX. simpl.
    now destruct (r' =? _).
  - now apply (sameAnimation_audio_event s (LoaderSettled p result) I).
  - now apply (sameAnimation_audio_event s (ResumeSettled r' f) I).
Qed.

Lemma pending_run evs i r o :
  forall s, noAnimationRequest evs = true -> unsettled r evs = true ->
  AwaitChangeFBX i r o ∈ tasks s -> AwaitChangeFBX i r o ∈ tasks (run s evs).
Proof.
  unfold run, noAnimationRequest, unsettled.
  induction evs as [|ev evs IH]; intros s H1 H2 Hin; simpl; [easy|].
  simpl in H1, H2. apply andb_true_iff in H1 as [H1 H1'].
  apply andb_true_iff in H2 as [H2 H2']. apply negb_true_iff in H1.
  apply IH; try easy. now apply pending_step.
Qed.

(** The settlement of the latest request, when it is a success, commits
    its index. *)
Lemma latest_commits iN ridN s o :
  latest iN ridN s -> AwaitChangeFBX iN ridN o ∈ tasks s ->
  currentAnimationIndex (animation (step s (ChangeFBXSettled ridN None)))
  = iN.
Proof.
  intros [R L] Hin. simpl.
  destruct (takeTask_exists (awaitsChangeFBX ridN) (tasks s) _ Hin)
    as (t & others & T); [simpl; apply Z.eqb_refl|].
  rewrite T. apply takeTask_Some in T as [Ht Hin'].
  destruct t as [i r o'| |]; try easy. simpl in Ht.
  apply Z.eqb_eq in Ht. subst r.
  assert (i = iN) by (apply (L i o'), Hin'; auto). subst i.
  unfold afterChangeFBX. simpl. rewrite R. now rewrite Z.eqb_refl.
Qed.

(** What one request does to an armed session. *)
Lemma request_armed s i :
  armed s = true ->
  let s' := step s (SelectAnimation i) in
  armed s' = true
  /\ animationRequestId (animation s') = animationRequestId (animation s) + 1
  /\ currentAnimationIndex (animation s')
     = currentAnimationIndex (animation s)
  /\ forall t, t ∈ tasks s' <->
       t ∈ tasks s
       \/ exists o, optionAt animationOptions i = Some o
                    /\ t = AwaitChangeFBX i
                             (animationRequestId (animation s) + 1) o.
Proof.
  unfold armed. intros H. apply andb_true_iff in H as [Hc H].
  destruct (gvrmInstance (avatars s)) as [inst|] eqn:G; [|easy].
  apply andb_true_iff in H as [Hr Hk].
  destruct (class inst) eqn:K; [|easy].
  simpl. unfold switchAnimation. simpl. rewrite Hc, G, Hr. simpl.
  destruct (optionAt animationOptions i) as [o|] eqn:O; try rewrite K; simpl.
  - unfold armed. simpl. rewrite Hc, G, Hr, K. repeat split; try easy.
    + intros [H|H]%elem_of_app; [auto|]. right. exists o.
      now apply list_elem_of_singleton in H.
    + intros [H|(o' & [= <-] & ->)]; apply elem_of_app; [auto|].
      right. now apply list_elem_of_singleton.
  - unfold armed. simpl. rewrite Hc, G, Hr, K. repeat split; try easy.
    + auto.
    + now intros [H|(o' & [=] & _)].
Qed.

Lemma issued_allIssued s : issued s = true -> allIssued s.
Proof.
  unfold issued. rewrite List.forallb_forall. intros H i r o Hin.
  apply list_elem_of_In in Hin. apply H in Hin. lia.
Qed.

Lemma requests_run idxs :
  forall s, armed s = true -> allIssued s ->
  let s' := run s (List.map SelectAnimation idxs) in
  armed s' = true /\ allIssued s'
  /\ animationRequestId (animation s')
     = animationRequestId (animation s) + Z.of_nat (length idxs)
  /\ currentAnimationIndex (animation s')
     = currentAnimationIndex (animation s).
Proof.
  unfold run. induction idxs as [|i idxs IH]; intros s Ha Hi.
  - simpl. repeat split; try easy. lia.
  - change (fold_left step (List.map SelectAnimation (i :: idxs)) s)
      with (fold_left step (List.map SelectAnimation idxs)
              (step s (SelectAnimation i))).
    destruct (request_armed s i Ha) as (Ha' & Hr & Hc & Ht).
    assert (Hi' : allIssued (step s (SelectAnimation i))).
    { intros j r o Hin. rewrite Hr.
      apply Ht in Hin as [Hin|(o' & _ & [= _ -> _])]; [|lia].
      apply Hi in Hin. lia. }
    destruct (IH _ Ha' Hi') as (A & B & C & D).
    repeat split; try easy.
    + rewrite C, Hr. simpl length. lia.
    + now rewrite D, Hc.
Qed.

(** C4: in an armed session, after the requests [i1..iN] have been
    issued one after the other (the last one, [iN], for an existing
    clip), the current token is the one captured by the request for [iN];
    whatever then settles, in whatever order, the committed index is the
    one from before the requests or [iN], and never the index of an
    earlier request; once the clip change for [iN] resolves, the
    committed index is [iN] and stays so.  At every settlement, in any
    session, the committed index changes only if the call resolved and
    its token is the current one; a resolved call with another token
    changes no variable and writes nothing to the page. *)
Theorem animation_latest_wins
    (s0 : Session) (earlier : list Z) (iN : Z) (o : AnimationOption) :
  armed s0 = true -> issued s0 = true ->
  optionAt animationOptions iN = Some o ->
  let s1 := run s0 (List.map SelectAnimation (earlier ++ [iN])) in
  let ridN := animationRequestId (animation s0)
              + Z.of_nat (length (earlier ++ [iN])) in
  let committed s := currentAnimationIndex (animation s) in
  (animationRequestId (animation s1) = ridN /\ committed s1 = committed s0)
  /\ (forall evs, noAnimationRequest evs = true ->
        committed (run s1 evs) = committed s0
        \/ committed (run s1 evs) = iN)
  /\ (forall pre post,
        noAnimationRequest (pre ++ post) = true -> unsettled ridN pre = true ->
        committed (run s1 (pre ++ ChangeFBXSettled ridN None :: post)) = iN)
  /\ (forall s r failure,
        committed (step s (ChangeFBXSettled r failure)) <> committed s ->
        r = animationRequestId (animation s) /\ failure = None)
  /\ (forall s r,
        r <> animationRequestId (animation s) ->
        let s' := step s (ChangeFBXSettled r None) in
        animation s' = animation s /\ sound s' = sound s
        /\ avatars s' = avatars s /\ cache s' = cache s /\ out s' = out s).
Proof.
  intros Ha Hi Ho s1 ridN committed.
  apply issued_allIssued in Hi.
  destruct (requests_run earlier s0 Ha Hi) as (Ha1 & Hi1 & Hr1 & Hc1).
  set (sE := run s0 (List.map SelectAnimation earlier)) in *.
  assert (Es1 : s1 = step sE (SelectAnimation iN)).
  { unfold s1, sE, run. rewrite List.map_app, fold_left_app. reflexivity. }
  destruct (request_armed sE iN Ha1) as (_ & Hr & Hc & Ht).
  rewrite <- Es1 in Hr, Hc, Ht.
  assert (HridN : animationRequestId (animation s1) = ridN).
  { unfold ridN. rewrite Hr, Hr1, length_app. simpl. lia. }
  assert (Hcur : committed s1 = committed s0).
  { unfold committed. now rewrite Hc, Hc1. }
  assert (HL : latest iN ridN s1).
  { split; [easy|]. intros i o' Hin.
    apply Ht in Hin as [Hin|(o'' & _ & [= -> _ _])]; [|easy].
    apply Hi1 in Hin. rewrite <- HridN, Hr in Hin. lia. }
  assert (Hpending : AwaitChangeFBX iN ridN o ∈ tasks s1).
  { apply Ht. right. exists o. split; [easy|]. now rewrite <- Hr, HridN. }
  split; [easy|]. split.
  { intros evs Hevs.
    destruct (latest_run iN ridN evs s1 Hevs HL) as [_ [H|H]]; [left|right].
    - unfold committed. now rewrite H.
    - exact H. }
  split.
  { intros pre post Hno Hun.
    unfold noAnimationRequest in Hno. rewrite forallb_app in Hno.
    apply andb_true_iff in Hno as [Hpre Hpost].
    unfold run. rewrite fold_left_app. cbn [fold_left].
    fold (run s1 pre). set (s2 := run s1 pre).
    destruct (latest_run iN ridN pre s1 Hpre HL) as [HL2 _]. fold s2 in HL2.
    pose proof (pending_run pre iN ridN o s1 Hpre Hun Hpending) as Hin2.
    fold s2 in Hin2.
    pose proof (latest_commits iN ridN s2 o HL2 Hin2) as Hcommit.
    destruct (latest_step iN ridN s2 (ChangeFBXSettled ridN None) eq_refl HL2)
      as [HL3 _].
    destruct (latest_run iN ridN post _ Hpost HL3) as [_ [H|H]].
    - unfold committed. unfold run in H. now rewrite H.
    - exact H. }
  split.
  { intros s r failure Hchanged. unfold committed in Hchanged.
    simpl in Hchanged.
    destruct (takeTask _ _) as [[t others]|] eqn:T; [|easy].
    apply takeTask_Some in T as [Ht' _].
    destruct t as [i r' o'| |]; try easy. simpl in Ht'.
    apply Z.eqb_eq in Ht'. subst r'.
    destruct failure as [e|]; [easy|].
    unfold afterChangeFBX in Hchanged. simpl in Hchanged.
    destruct (r =? _) eqn:E; [|easy]. apply Z.eqb_eq in E. easy. }
  intros s r Hne. simpl.
  destruct (takeTask _ _) as [[t others]|] eqn:T; [|easy].
  apply takeTask_Some in T as [Ht' _].
  destruct t as [i r' o'| |]; try easy. simpl in Ht'.
  apply Z.eqb_eq in Ht'. subst r'.
  unfold afterChangeFBX. simpl.
  apply Z.eqb_neq in Hne. now rewrite Hne.
Qed.

Lemma takeTask_last f ts t :
  f t = true -> exists found rest, takeTask f (ts ++ [t]) = Some (found, rest).
Proof.
  intros Hf. induction ts as [|a ts IH]; simpl.
  - rewrite Hf. eauto.
  - destruct (f a); [eauto|]. destruct IH as (found & rest & ->). eauto.
Qed.

Lemma takeTask_found f ts t rest :
  takeTask f ts = Some (t, rest) -> f t = true.
Proof.
  revert t rest. induction ts as [|a ts IH]; intros t rest; simpl; [easy|].
  destruct (f a) eqn:Fa; [now intros [= <- _]|].
  destruct (takeTask f ts) as [[found others]|]; [|easy].
  intros [= <- _]. now apply (IH found others).
Qed.

(** ** The audio switch *)

(** The check after the decode drops a call whose token is not the
    current one: nothing changes. *)
Lemma stale_buffer_dropped s i r o b :
  r <> audioRequestId (sound s) -> afterBuffer i r o b s = s.
Proof.
  intros H. unfold afterBuffer. apply Z.eqb_neq in H. now rewrite H.
Qed.

(** There is no check after the resume: whatever the current token, a
    call whose resume resolves commits its index. *)
Lemma resume_commits_unchecked s i r o others a :
  takeTask (awaitsResume r) (tasks s) = Some (AwaitResume i r o, others) ->
  audio (sound s) = Some a ->
  let s' := step s (ResumeSettled r None) in
  currentAudioIndex (sound s') = i
  /\ audio (sound s') = Some (play a)
  /\ audioAnalyser (sound s') = Some {| fftSize := 64 |}
  /\ audioRequestId (sound s') = audioRequestId (sound s).
Proof.
  intros T A. simpl. rewrite T. unfold afterResume. simpl. rewrite A.
  unfold commitAudio. now destruct (isPlaying a).
Qed.

(** C1, on a run the code mishandles: track 1 is requested (token 1), its
    buffer arrives and passes the token check, and the call waits for the
    audio context; track 0 is requested (token 2); then the resume of the
    first call resolves.  The first call, whose token is no longer the
    current one, starts playback, creates the analyser and commits index
    1, although the current token is 2 and the desired index is 0. *)
Theorem stale_resume_commits :
  let b1 := Decoded 1 in
  let s := run initial
             [SelectAudio 1; LoaderSettled 0 (inr b1); SelectAudio 0] in
  let s' := step s (ResumeSettled 1 None) in
  (audioRequestId (sound s) = 2
   /\ desiredAudioIndex (sound s) = 0
   /\ currentAudioIndex (sound s) = 0
   /\ audioAnalyser (sound s) = None
   /\ (isPlaying <$> audio (sound s)) = Some false)
  /\ (audioRequestId (sound s') = 2
      /\ desiredAudioIndex (sound s') = 0
      /\ currentAudioIndex (sound s') = 1
      /\ audioAnalyser (sound s') = Some {| fftSize := 64 |}
      /\ (isPlaying <$> audio (sound s')) = Some true
      /\ (audio (sound s') ≫= source) = Some b1).
Proof. vm_compute. repeat split. Qed.

(** C2 as stated fails: while the first track plays, the second one is
    requested, its buffer arrives, and the resume is rejected.  The index
    stays 0, but the source has been stopped and carries the buffer of the
    second track: the previous audio does not keep playing. *)
Lemma resume_rejected_counterexample :
  let b0 := Decoded 0 in
  let b1 := Decoded 1 in
  let s := run initial
             [SelectAudio 0; LoaderSettled 0 (inr b0); ResumeSettled 1 None] in
  let s' := run s [SelectAudio 1; LoaderSettled 2 (inr b1);
                   ResumeSettled 2 (Some (Error "NotAllowedError"))] in
  ((isPlaying <$> audio (sound s)) = Some true
   /\ (audio (sound s) ≫= buffer) = Some b0)
  /\ ((isPlaying <$> audio (sound s')) = Some false
      /\ (audio (sound s') ≫= buffer) = Some b1
      /\ currentAudioIndex (sound s') = currentAudioIndex (sound s))
  /\ audio (sound s') <> audio (sound s).
Proof. vm_compute. repeat split. intros [=]. Qed.

(** C2, as the code has it: when the buffer of a call arrives and its
    token is the current one, the call stops the source, binds the new
    buffer, sets the loop flag and the volume, and only then awaits the
    resume; if the resume is rejected, the rejection changes no variable
    (the current audio index, the analyser and the token are as before
    the call resumed, the source stays stopped with the new buffer bound)
    and writes one console warning.  A rejected resume commits nothing in
    any session. *)
Theorem resume_rejected
    (s : Session) (index : Z) (opt : AudioOption) (b : AudioBuffer)
    (a : Audio) (e : JsError) :
  audio (sound s) = Some a ->
  let requestId := audioRequestId (sound s) in
  let s1 := afterBuffer index requestId opt b s in
  let s2 := step s1 (ResumeSettled requestId (Some e)) in
  audio (sound s1)
    = Some {| isPlaying := false; buffer := Some b; loop := true;
              volume := default 0.6%float (audioVolume opt);
              source := source a |}
  /\ (sound s2 = sound s1 /\ cache s2 = cache s /\ animation s2 = animation s
      /\ avatars s2 = avatars s)
  /\ (currentAudioIndex (sound s2) = currentAudioIndex (sound s)
      /\ audioAnalyser (sound s2) = audioAnalyser (sound s)
      /\ audioRequestId (sound s2) = audioRequestId (sound s))
  /\ (exists file,
        out s2 = out s ++ [ConsoleWarn "Audio load failed:" (Some file)
                             (Some e)])
  /\ (forall s' r,
        let s'' := step s' (ResumeSettled r (Some e)) in
        sound s'' = sound s' /\ cache s'' = cache s'
        /\ animation s'' = animation s' /\ avatars s'' = avatars s').
Proof.
  intros A requestId s1 s2.
  assert (E1 : s1 = suspend (AwaitResume index requestId opt)
                      (setAudio {| isPlaying := false; buffer := Some b;
                                   loop := true;
                                   volume := default 0.6%float
                                               (audioVolume opt);
                                   source := source a |} s)).
  { unfold s1, afterBuffer, requestId. rewrite Z.eqb_refl, A. simpl.
    destruct a as [playing ? ? ? ?]. destruct playing; reflexivity. }
  clearbody s1. unfold s2. clear s2.
  destruct (takeTask_last (awaitsResume requestId) (tasks s)
              (AwaitResume index requestId opt))
    as (found & rest & T); [simpl; apply Z.eqb_refl|].
  assert (Ht : tasks s1 = tasks s ++ [AwaitResume index requestId opt])
    by now rewrite E1.
  cbn [step]. rewrite Ht, T.
  pose proof (takeTask_found _ _ _ _ T) as Hf.
  destruct found as [| |i r o]; try discriminate Hf.
  rewrite E1. do 3 (split; [now repeat split|]).
  split; [now exists (audioFile o)|].
  intros s' r'. cbn [step].
  destruct (takeTask (awaitsResume r') (tasks s')) as [[[| |] ?]|];
    now repeat split.
Qed.

(** ** Reachable sessions *)

Lemma allIssued_same s s' :
  sameAnimation s s' -> allIssued s -> allIssued s'.
Proof.
  intros (A & _ & T) H i r o Hin. rewrite A. apply (H i r o). now apply T.
Qed.

(** Every step keeps the request ids of the suspended calls below the
    counter. *)
Lemma allIssued_step s ev : allIssued s -> allIssued (step s ev).
Proof.
  intros H. destruct ev as [i|i|r f|p result|r f].
  - simpl. unfold switchAnimation. simpl.
    destruct (negb (supportsFBX _)); [exact H|].
    destruct (gvrmInstance (avatars s)) as [inst|]; [|exact H].
    destruct (negb (isReady inst)); [exact H|].
    assert (H' : forall j r o, AwaitChangeFBX j r o ∈ tasks s ->
                   r <= animationRequestId (animation s) + 1).
    { intros j r o Hin. apply H in Hin. lia. }
    destruct (optionAt animationOptions i) as [o|]; [|exact H'].
    destruct (class inst); simpl.
    + intros j r o' [Hin|Hin]%elem_of_app; [now apply (H' j r o')|].
      apply list_elem_of_singleton in Hin. injection Hin as -> -> ->.
      simpl. lia.
    + unfold afterChangeFBX. simpl. rewrite Z.eqb_refl. exact H'.
  - exact (allIssued_same s _
             (sameAnimation_audio_event s (SelectAudio i) I) H).
  - simpl. destruct (takeTask _ _) as [[t others]|] eqn:T; [|exact H].
    apply takeTask_Some in T as [_ Hin].
    destruct t as [i r' o| |]; try exact H.
    assert (H' : allIssued (withTasks others s)).
    { intros j q o' Hq. apply (H j q o'). apply Hin. now right. }
    destruct f; [exact H'|]. unfold afterChangeFBX.
    destruct (r' =? _); exact H'.
  - exact (allIssued_same s _
             (sameAnimation_audio_event s (LoaderSettled p result) I) H).
  - exact (allIssued_same s _
             (sameAnimation_audio_event s (ResumeSettled r f) I) H).
Qed.

Lemma allIssued_run evs : forall s, allIssued s -> allIssued (run s evs).
Proof.
  unfold run. induction evs as [|ev evs IH]; intros s H; simpl; [easy|].
  apply IH. now apply allIssued_step.
Qed.

Lemma allIssued_initial : allIssued initial.
Proof. intros i r o H. now apply elem_of_nil in H. Qed.

Lemma allIssued_issued s : allIssued s -> issued s = true.
Proof.
  intros H. unfold issued. apply List.forallb_forall. intros t Hin.
  apply list_elem_of_In in Hin. destruct t as [i r o| |]; try easy.
  apply Z.leb_le. now apply (H i r o).
Qed.

(** ** The cache of a session *)

Lemma cache_afterBuffer i r o b s : cache (afterBuffer i r o b s) = cache s.
Proof.
  unfold afterBuffer. destruct (negb _); [easy|].
  now destruct (audio (sound s)).
Qed.

Lemma cache_resumeAll result waiting :
  forall s, cache (fold_left (resumeWithBuffer result) waiting s) = cache s.
Proof.
  induction waiting as [|t ts IH]; intros s; simpl; [easy|].
  rewrite IH. destruct t, result; simpl; try easy. apply cache_afterBuffer.
Qed.

(** The cache of a session changes by a get or by a callback of the
    loader, and by nothing else. *)
Lemma step_cache s ev :
  cache (step s ev) = cacheRun (cache s) (cacheEvents ev).
Proof.
  destruct ev as [i|i|r f|p result|r f]; simpl.
  - unfold switchAnimation. simpl.
    destruct (negb (supportsFBX _)); [reflexivity|].
    destruct (gvrmInstance (avatars s)) as [inst|]; [|reflexivity].
    destruct (negb (isReady inst)); [reflexivity|].
    destruct (optionAt animationOptions i); [|reflexivity].
    destruct (class inst); [reflexivity|]. unfold afterChangeFBX. simpl.
    now rewrite Z.eqb_refl.
  - unfold switchAudio.
    destruct (optionAt audioOptions i) as [o|]; [|reflexivity].
    unfold cacheRun. simpl.
    destruct (loadAudioBuffer (audioFile o) (cache s)) as [p c].
    simpl. destruct (promises c !! p) as [[|b|e]|]; simpl; try reflexivity.
    now rewrite cache_afterBuffer.
  - destruct (takeTask _ _) as [[[i r' o| |] others]|]; try reflexivity.
    destruct f; [reflexivity|]. unfold afterChangeFBX. simpl.
    now destruct (r' =? _).
  - destruct result as [e|b]; unfold cacheRun; simpl.
    + destruct (loaderRejects p e (cache s)); simpl; [|reflexivity].
      now rewrite cache_resumeAll.
    + destruct (loaderResolves p b (cache s)); simpl; [|reflexivity].
      now rewrite cache_resumeAll.
  - destruct (takeTask _ _) as [[[| |i r' o] others]|]; try reflexivity.
    destruct f; [reflexivity|]. unfold afterResume, commitAudio. simpl.
    destruct (audio (sound s)) as [a|]; [|reflexivity].
    now destruct (isPlaying a).
Qed.

Lemma run_cache evs :
  forall s, cache (run s evs) = cacheRun (cache s) (evs ≫= cacheEvents).
Proof.
  unfold run, cacheRun.
  induction evs as [|ev evs IH]; intros s; simpl; [easy|].
  rewrite IH, step_cache. unfold cacheRun. now rewrite fold_left_app.
Qed.

(** The cache of every session reached from the start is coherent. *)
Lemma run_coherent evs : coherent (cache (run initial evs)).
Proof. rewrite run_cache. apply coherent_run, coherent_empty. Qed.

End SwitchFacts.

(* ===================================================================== *)
(** * Properties of the avatar acquisition *)
(* ===================================================================== *)

Section AcquisitionFacts.
Import Js AudioCache Session.

(** ** Acquisition *)

Lemma capabilityWrites_app t1 t2 :
  capabilityWrites (t1 ++ t2) = capabilityWrites t1 ++ capabilityWrites t2.
Proof. apply omap_app. Qed.

Lemma quiet_refl s : quiet s s.
Proof. now repeat split. Qed.

Lemma quiet_trans s1 s2 s3 : quiet s1 s2 -> quiet s2 s3 -> quiet s1 s3.
Proof.
  intros (A & B & C & D & E & F) (A' & B' & C' & D' & E' & F').
  repeat split; congruence.
Qed.

Lemma quiet_emit e s :
  match e with AssignCapabilities _ => False | _ => True end ->
  quiet s (emit e s).
Proof.
  intros H. repeat split. simpl. rewrite capabilityWrites_app.
  destruct e; try easy; simpl; now rewrite app_nil_r.
Qed.

(** The fallback path gives what the environment decides, and leaves the
    variables and the capability record alone. *)
Lemma loadSimpleVRMFromGvrm_outcome env url s :
  fst (loadSimpleVRMFromGvrm env url s) = fallbackOutcome env url
  /\ quiet s (snd (loadSimpleVRMFromGvrm env url s)).
Proof.
  unfold fallbackOutcome, loadSimpleVRMFromGvrm.
  destruct (fetch env url) as [e|response]; [split; [easy|apply quiet_refl]|].
  destruct (negb (ok response)); [split; [easy|apply quiet_refl]|].
  destruct (arrayBuffer response) as [e|bytes];
    [split; [easy|apply quiet_refl]|].
  destruct (zipLoadAsync env bytes) as [e|zip];
    [split; [easy|apply quiet_refl]|].
  destruct (zip "model.vrm") as [[e|vrmBuffer]|];
    [split; [easy|apply quiet_refl]| |split; [easy|apply quiet_refl]].
  destruct (gltfLoadAsync env vrmBuffer) as [e|[vrm|]]; simpl.
  - split; [easy|].
    eapply quiet_trans; [|now apply quiet_emit]. now apply quiet_emit.
  - split; [easy|].
    eapply quiet_trans; [|now apply quiet_emit].
    eapply quiet_trans; [|now apply quiet_emit]. now apply quiet_emit.
  - split; [easy|].
    eapply quiet_trans; [|now apply quiet_emit]. now apply quiet_emit.
Qed.

(** A handle from the fallback path is a [SimpleVRMWrapper] of the
    candidate. *)
Lemma fallbackOutcome_wrapper env url w :
  fallbackOutcome env url = inr w -> w = newSimpleVRMWrapper url.
Proof.
  unfold fallbackOutcome, loadSimpleVRMFromGvrm.
  destruct (fetch env url) as [e|response]; [easy|].
  destruct (negb (ok response)); [easy|].
  destruct (arrayBuffer response) as [e|bytes]; [easy|].
  destruct (zipLoadAsync env bytes) as [e|zip]; [easy|].
  destruct (zip "model.vrm") as [[e|vrmBuffer]|]; try easy.
  destruct (gltfLoadAsync env vrmBuffer) as [e|[vrm|]]; simpl; try easy.
  now intros [= <-].
Qed.

Lemma lastOr_app {A} (d : option A) l1 l2 :
  lastOr d (l1 ++ l2) = lastOr (lastOr d l1) l2.
Proof.
  unfold lastOr. destruct l2 as [|x l2] using rev_ind.
  - rewrite app_nil_r. simpl. now destruct (last l1).
  - rewrite app_assoc, !last_snoc. reflexivity.
Qed.

Lemma lastOr_cons {A} (d : option A) x l :
  lastOr d (x :: l) = lastOr (Some x) l.
Proof. exact (lastOr_app d [x] l). Qed.

(** A candidate that fails everywhere is passed over: the loop goes on
    with the fallback error as the last error, having written nothing but
    console lines and a revoked object URL. *)
Lemma candidateLoop_skip env G c rest lastError s :
  failsEverywhere env G c = true ->
  exists e2 s',
    fallbackOutcome env c = inl e2
    /\ candidateLoop env G (c :: rest) lastError s
       = candidateLoop env G rest (Some e2) s'
    /\ quiet s s'.
Proof.
  unfold failsEverywhere. intros [Hext Hfb]%andb_true_iff.
  destruct (fallbackOutcome env c) as [e2|w] eqn:F; [|easy].
  exists e2. simpl. destruct G; simpl in Hext.
  - destruct (gvrmLoad env c) as [e1|ready] eqn:L; [|easy].
    set (s1 := emit _ s).
    destruct (loadSimpleVRMFromGvrm_outcome env c s1) as [Hr Hq].
    destruct (loadSimpleVRMFromGvrm env c s1) as [r s2]. simpl in Hr, Hq.
    rewrite F in Hr. subst r. eexists. split; [reflexivity|]. split; [reflexivity|].
    eapply quiet_trans; [|now apply quiet_emit].
    eapply quiet_trans; [|exact Hq]. now apply quiet_emit.
  - destruct (loadSimpleVRMFromGvrm_outcome env c s) as [Hr Hq].
    destruct (loadSimpleVRMFromGvrm env c s) as [r s2]. simpl in Hr, Hq.
    rewrite F in Hr. subst r. eexists. split; [reflexivity|]. split; [reflexivity|].
    eapply quiet_trans; [|now apply quiet_emit]. exact Hq.
Qed.



(** A candidate that the extended path does not deliver and the fallback
    path does ends the loop: the wrapper is returned and the capability
    record is written once. *)
Lemma candidateLoop_fallback env G c rest lastError s w :
  negb G || isFailure (gvrmLoad env c) = true ->
  fallbackOutcome env c = inr w ->
  let r := candidateLoop env G (c :: rest) lastError s in
  let fallbackCaps := {| supportsFBX := false; mode := simple_vrm |} in
  fst r = inr w
  /\ avatarCapabilities (avatars (snd r)) = fallbackCaps
  /\ capabilityWrites (out (snd r))
     = capabilityWrites (out s) ++ [fallbackCaps]
  /\ gvrmInstance (avatars (snd r)) = gvrmInstance (avatars s)
  /\ animation (snd r) = animation s /\ sound (snd r) = sound s
  /\ cache (snd r) = cache s /\ tasks (snd r) = tasks s.
Proof.
  intros Hext F. simpl.
  assert (K : forall s1, quiet s s1 ->
    let r := match loadSimpleVRMFromGvrm env c s1 with
             | (inr fallback, s2) =>
                 (inr fallback,
                  emit (ConsoleInfo
                          "Loaded fallback VRM avatar without Gaussian splatting:"
                          c)
                    (updateMetaTag "Simulacra Interface — Standard VRM Mode"
                       (updateAnimationButtonState
                          (setCapabilities
                             {| supportsFBX := false; mode := simple_vrm |}
                             s2))))
             | (inl fallbackError, s2) =>
                 candidateLoop env G rest (Some fallbackError)
                   (emit (ConsoleWarn "Fallback VRM load failed for candidate"
                            (Some c) (Some fallbackError)) s2)
             end in
    fst r = inr w
    /\ avatarCapabilities (avatars (snd r))
       = {| supportsFBX := false; mode := simple_vrm |}
    /\ capabilityWrites (out (snd r))
       = capabilityWrites (out s)
           ++ [{| supportsFBX := false; mode := simple_vrm |}]
    /\ gvrmInstance (avatars (snd r)) = gvrmInstance (avatars s)
    /\ animation (snd r) = animation s /\ sound (snd r) = sound s
    /\ cache (snd r) = cache s /\ tasks (snd r) = tasks s).
  { intros s1 Hq1.
    destruct (loadSimpleVRMFromGvrm_outcome env c s1) as [Hr Hq].
    destruct (loadSimpleVRMFromGvrm env c s1) as [r s2]. simpl in Hr, Hq.
    rewrite F in Hr. subst r. simpl.
    destruct (quiet_trans _ _ _ Hq1 Hq) as (A & B & C & D & E & W).
    repeat split; try easy.
    - rewrite !capabilityWrites_app, W. simpl. now rewrite !app_nil_r.
    - now rewrite A. }
  destruct G; simpl in Hext.
  - destruct (gvrmLoad env c) as [e1|ready]; [|easy].
    apply K. now apply quiet_emit.
  - apply K. apply quiet_refl.
Qed.

(** A candidate that the extended path delivers ends the loop before the
    fallback path is tried. *)
Lemma candidateLoop_extended env c rest lastError s ready :
  gvrmLoad env c = inr ready ->
  let r := candidateLoop env true (c :: rest) lastError s in
  fst r = inr {| class := GVRM; asset := c; isReady := ready;
                 avatarSupportsFBX := true; avatarMode := gvrm |}
  /\ avatarCapabilities (avatars (snd r))
     = {| supportsFBX := true; mode := gvrm |}.
Proof. intros L. simpl. now rewrite L. Qed.


(** The import leaves the capability record, the instance and the
    switches alone. *)
Lemma ensureGvrmModule_steady env s :
  let s0 := snd (ensureGvrmModule env s) in
  avatarCapabilities (avatars s0) = avatarCapabilities (avatars s)
  /\ gvrmInstance (avatars s0) = gvrmInstance (avatars s)
  /\ animation s0 = animation s /\ sound s0 = sound s
  /\ cache s0 = cache s /\ tasks s0 = tasks s
  /\ capabilityWrites (out s0) = capabilityWrites (out s).
Proof.
  unfold ensureGvrmModule.
  destruct (gvrmModulePromise (avatars s)); [now repeat split|].
  destruct (importGvrm env); simpl; repeat split.
  rewrite capabilityWrites_app. simpl. now rewrite app_nil_r.
Qed.




(** C7: for the candidate list [c1; c2], when [c1] fails on the extended
    backend (if it is there) and on the fallback, and [c2] is not
    delivered by the extended backend and loads on the fallback,
    [loadGvrmAvatar] returns the fallback handle of [c2], a
    [SimpleVRMWrapper] without clip support, and leaves the capability
    record at [{supportsFBX: false, mode: 'simple-vrm'}], written once;
    [init] installs the handle and writes the record no further. *)
Theorem acquisition_second_fallback
    (env : Env) (c1 c2 : string) (s : Session) (w : Avatar) :
  let GVRMClass := fst (ensureGvrmModule env s) in
  failsEverywhere env GVRMClass c1 = true ->
  negb GVRMClass || isFailure (gvrmLoad env c2) = true ->
  fallbackOutcome env c2 = inr w ->
  let r := loadGvrmAvatarFrom env [c1; c2] s in
  let after := initAvatarFrom env [c1; c2] s in
  let fallbackCaps := {| supportsFBX := false; mode := simple_vrm |} in
  (fst r = inr w /\ class w = SimpleVRMWrapper /\ asset w = c2
   /\ avatarSupportsFBX w = false /\ avatarMode w = simple_vrm)
  /\ (avatarCapabilities (avatars (snd r)) = fallbackCaps
      /\ capabilityWrites (out (snd r))
         = capabilityWrites (out s) ++ [fallbackCaps])
  /\ (gvrmInstance (avatars after) = Some w
      /\ avatarCapabilities (avatars after) = fallbackCaps
      /\ capabilityWrites (out after)
         = capabilityWrites (out s) ++ [fallbackCaps]).
Proof.
  intros G H1 H2 F r after caps.
  pose proof (fallbackOutcome_wrapper env c2 w F) as Hw.
  unfold r, after, initAvatarFrom, loadGvrmAvatarFrom. unfold G in *.
  destruct (ensureGvrmModule_steady env s) as (_ & _ & _ & _ & _ & _ & W).
  destruct (ensureGvrmModule env s) as [G' s0].
  cbn [fst snd] in H1, H2, W |- *.
  destruct (candidateLoop_skip env G' c1 [c2] None s0 H1)
    as (e2 & s1 & _ & -> & Hq).
  destruct (candidateLoop_fallback env G' c2 [] (Some e2) s1 w H2 F)
    as (Hr & Hcaps & Hwrites & _).
  destruct (candidateLoop env G' [c2] (Some e2) s1) as [r' s2].
  cbn [fst snd] in Hr, Hcaps, Hwrites |- *. subst r'.
  assert (Hw2 : capabilityWrites (out s2) = capabilityWrites (out s) ++ [caps]).
  { rewrite Hwrites. destruct Hq as (_ & _ & _ & _ & _ & ->). now rewrite W. }
  split; [now subst w|]. split; [easy|].
  unfold switchAnimation. simpl. rewrite Hcaps. simpl.
  repeat split; try easy.
  rewrite capabilityWrites_app, Hw2. simpl. now rewrite app_nil_r.
Qed.

(** Acquisition does not touch the switches: their variables, the cache
    and the suspended calls are as before. *)
Lemma candidateLoop_switches env G cands :
  forall lastError s,
    let s' := snd (candidateLoop env G cands lastError s) in
    animation s' = animation s /\ sound s' = sound s
    /\ cache s' = cache s /\ tasks s' = tasks s.
Proof.
  induction cands as [|c cands IH]; intros lastError s; [now repeat split|].
  assert (K : forall s1,
    animation s1 = animation s /\ sound s1 = sound s
    /\ cache s1 = cache s /\ tasks s1 = tasks s ->
    let s' := snd (match loadSimpleVRMFromGvrm env c s1 with
                   | (inr fallback, s2) =>
                       (inr fallback,
                        emit (ConsoleInfo
                                "Loaded fallback VRM avatar without Gaussian splatting:"
                                c)
                          (updateMetaTag
                             "Simulacra Interface — Standard VRM Mode"
                             (updateAnimationButtonState
                                (setCapabilities
                                   {| supportsFBX := false;
                                      mode := simple_vrm |} s2))))
                   | (inl fallbackError, s2) =>
                       candidateLoop env G cands (Some fallbackError)
                         (emit (ConsoleWarn
                                  "Fallback VRM load failed for candidate"
                                  (Some c) (Some fallbackError)) s2)
                   end) in
    animation s' = animation s /\ sound s' = sound s
    /\ cache s' = cache s /\ tasks s' = tasks s).
  { intros s1 (A & B & C & D).
    destruct (loadSimpleVRMFromGvrm_outcome env c s1)
      as [_ (_ & A' & B' & C' & D' & _)].
    destruct (loadSimpleVRMFromGvrm env c s1) as [[e|w] s2];
      simpl in A', B', C', D'.
    - destruct (IH (Some e) (emit (ConsoleWarn
                  "Fallback VRM load failed for candidate" (Some c) (Some e))
                  s2)) as (A2 & B2 & C2 & D2).
      simpl in A2, B2, C2, D2. repeat split; congruence.
    - simpl. repeat split; congruence. }
  simpl. destruct G.
  - destruct (gvrmLoad env c) as [e|ready]; [|now repeat split].
    now apply K.
  - now apply K.
Qed.

Lemma loadGvrmAvatarFrom_switches env cands s :
  let s' := snd (loadGvrmAvatarFrom env cands s) in
  animation s' = animation s /\ sound s' = sound s
  /\ cache s' = cache s /\ tasks s' = tasks s.
Proof.
  unfold loadGvrmAvatarFrom.
  destruct (ensureGvrmModule_steady env s) as (_ & _ & A & B & C & D & _).
  destruct (ensureGvrmModule env s) as [G s0]. simpl in A, B, C, D.
  destruct (candidateLoop_switches env G cands None s0) as (A' & B' & C' & D').
  repeat split; congruence.
Qed.

(** Start-up keeps the request ids of the suspended calls below the
    counter. *)
Lemma allIssued_initAvatarFrom env cands s :
  allIssued s -> allIssued (initAvatarFrom env cands s).
Proof.
  intros H. unfold initAvatarFrom.
  destruct (loadGvrmAvatarFrom_switches env cands s) as (A & _ & _ & D).
  destruct (loadGvrmAvatarFrom env cands s) as [[e|inst] s1];
    simpl in A, D.
  - intros i r o Hin. simpl in Hin |- *. rewrite A. apply (H i r o).
    now rewrite <- D.
  - assert (H1 : allIssued (setGvrmInstance inst s1)).
    { intros i r o Hin. simpl in Hin |- *. rewrite A. apply (H i r o).
      now rewrite <- D. }
    pose proof (allIssued_step _ (SelectAnimation
                  (desiredAnimationIndex (animation s1))) H1) as H2.
    simpl in H2. change (animation (setGvrmInstance inst s1)) with (animation s1).
    destruct (switchAnimation _ (setGvrmInstance inst s1)) as [[e|] s2];
      simpl in H2 |- *; [|exact H2].
    intros i r o Hin. exact (H2 i r o Hin).
Qed.

End AcquisitionFacts.

(* ===================================================================== *)
(** * The statements on the sample runs *)
(* ===================================================================== *)

Lemma animation_latest_wins_witness :
  let s0 := Samples.extendedSession in
  let s1 := Session.run s0 (List.map Session.SelectAnimation ([1; 2] ++ [3])) in
  let ridN := Session.animationRequestId (Session.animation s0)
              + Z.of_nat (length ([1; 2] ++ [3])) in
  let pre := [Session.ChangeFBXSettled 3 None] in
  let post := [ Session.ChangeFBXSettled 2 None;
                Session.ChangeFBXSettled 1 (Some (Js.Error "404")) ] in
  (Session.armed s0 = true /\ Session.issued s0 = true /\ ridN = 4)
  /\ Session.currentAnimationIndex
       (Session.animation
          (Session.run s1 (pre ++ Session.ChangeFBXSettled ridN None :: post)))
     = 3.
Proof.
  split; [repeat split|].
  destruct (animation_latest_wins Samples.extendedSession [1; 2] 3
              {| Session.animLabel := "Future Talk";
                 Session.animFile := "./assets/Talking.fbx" |}
              eq_refl eq_refl eq_refl) as (_ & _ & H & _).
  exact (H [Session.ChangeFBXSettled 3 None]
           [Session.ChangeFBXSettled 2 None;
            Session.ChangeFBXSettled 1 (Some (Js.Error "404"))]
           eq_refl eq_refl).
Defined.

Lemma resume_rejected_witness :
  let opt := {| Session.audioLabel := "KMGY Glitch";
                Session.audioFile := "./assets/KMGY%20.mp3";
                Session.audioVolume := Some 0.55%float |} in
  let playing := {| Session.isPlaying := true;
                    Session.buffer := Some (AudioCache.Decoded 0);
                    Session.loop := true; Session.volume := 0.6%float;
                    Session.source := Some (AudioCache.Decoded 0) |} in
  let s := Samples.playingSession in
  let requestId := Session.audioRequestId (Session.sound s) in
  let s1 := Session.afterBuffer 1 requestId opt (AudioCache.Decoded 1) s in
  let s2 := Session.step s1
              (Session.ResumeSettled requestId
                 (Some (Js.Error "NotAllowedError"))) in
  Session.audio (Session.sound s) = Some playing
  /\ Session.currentAudioIndex (Session.sound s2)
     = Session.currentAudioIndex (Session.sound s)
  /\ Session.audio (Session.sound s1)
     = Some {| Session.isPlaying := false;
               Session.buffer := Some (AudioCache.Decoded 1);
               Session.loop := true;
               Session.volume := default 0.6%float (Session.audioVolume opt);
               Session.source := Session.source playing |}.
Proof.
  split; [reflexivity|].
  destruct (resume_rejected Samples.playingSession 1
              {| Session.audioLabel := "KMGY Glitch";
                 Session.audioFile := "./assets/KMGY%20.mp3";
                 Session.audioVolume := Some 0.55%float |}
              (AudioCache.Decoded 1)
              {| Session.isPlaying := true;
                 Session.buffer := Some (AudioCache.Decoded 0);
                 Session.loop := true; Session.volume := 0.6%float;
                 Session.source := Some (AudioCache.Decoded 0) |}
              (Js.Error "NotAllowedError") eq_refl)
    as (Ha & _ & (Hi & _) & _).
  split; [exact Hi | exact Ha].
Defined.


Lemma acquisition_second_fallback_witness :
  let env := Samples.secondOnlyEnv in
  let cands := ["./assets/a.gvrm"; "./assets/b.gvrm"] in
  let GVRMClass := fst (Session.ensureGvrmModule env Session.initial) in
  let fallbackCaps :=
    {| Session.supportsFBX := false; Session.mode := Session.simple_vrm |} in
  (Session.failsEverywhere env GVRMClass "./assets/a.gvrm" = true
   /\ negb GVRMClass || Session.isFailure (Session.gvrmLoad env "./assets/b.gvrm")
      = true
   /\ Session.fallbackOutcome env "./assets/b.gvrm"
      = inr (Session.newSimpleVRMWrapper "./assets/b.gvrm"))
  /\ Session.avatarCapabilities
       (Session.avatars (Session.initAvatarFrom env cands Session.initial))
     = fallbackCaps
  /\ Session.capabilityWrites
       (Session.out (Session.initAvatarFrom env cands Session.initial))
     = Session.capabilityWrites (Session.out Session.initial) ++ [fallbackCaps].
Proof.
  split; [repeat split|].
  destruct (acquisition_second_fallback Samples.secondOnlyEnv
              "./assets/a.gvrm" "./assets/b.gvrm" Session.initial
              (Session.newSimpleVRMWrapper "./assets/b.gvrm")
              eq_refl eq_refl eq_refl)
    as (_ & _ & _ & Hc & Hw).
  split; [exact Hc | exact Hw].
Defined.


(* ===================================================================== *)
(** * Properties of the noise table *)
(* ===================================================================== *)


Section LatticeFacts.
Import Js Noise Lattice.

(** A table of 256 cells is doubled into itself twice. *)
Lemma doubled_app (p : Uint8Array) :
  length p = 256%nat -> doubled p = p ++ p.
Proof.
  intros L. apply list_eq. intros i. unfold doubled.
  rewrite list_lookup_fmap.
  destruct (decide (i < 512)%nat) as [Hi|Hi].
  - rewrite lookup_seq_lt by exact Hi. cbn [fmap option_fmap option_map Nat.add].
    change 255 with (Z.ones 8). rewrite Z.land_ones by lia.
    change (2 ^ 8) with 256.
    destruct (decide (i < 256)%nat) as [Hj|Hj].
    + rewrite lookup_app_l by lia.
      rewrite Z.mod_small by lia. rewrite Nat2Z.id.
      destruct (lookup_lt_is_Some_2 p i) as [v Hv]; [lia|]. now rewrite Hv.
    + rewrite lookup_app_r by lia. rewrite L.
      replace (Z.of_nat i mod 256) with (Z.of_nat (i - 256)).
      2:{ apply Z.mod_unique with (q := 1); lia. }
      rewrite Nat2Z.id.
      destruct (lookup_lt_is_Some_2 p (i - 256)) as [v Hv]; [lia|].
      now rewrite Hv.
  - rewrite lookup_seq_ge by lia. symmetry. apply lookup_ge_None.
    rewrite length_app. lia.
Qed.

(** X1.  For every seed, also one that is NaN, negative or infinite,
    the table [perm] built by [SimplexNoise] is the shuffled table [p]
    twice in a row: [p] has 256 cells, each of them a byte, so [perm]
    has 512 cells and [perm[i + 256] = perm[i]]. *)
Theorem simplex_table_doubled (seed : float) :
  let p := shuffleFrom seed 255 identityTable in
  perm (newSimplexNoise seed) = p ++ p
  /\ length p = 256%nat
  /\ bytes p.
Proof.
  intros p. split; [|split].
  - apply doubled_app, shuffled_length.
  - apply shuffled_length.
  - apply shuffleFrom_bytes, identityTable_bytes.
Qed.

(** A gradient index below 12 selects two entries of [grad3]. *)
Lemma gradAt_defined g :
  0 <= g < 12 ->
  is_Some (readAt grad3 (g * 3)) /\ is_Some (readAt grad3 (g * 3 + 1)).
Proof.
  intros Hg.
  assert (g = 0 \/ g = 1 \/ g = 2 \/ g = 3 \/ g = 4 \/ g = 5 \/ g = 6
          \/ g = 7 \/ g = 8 \/ g = 9 \/ g = 10 \/ g = 11) as H by lia.
  repeat (destruct H as [-> | H]); try subst g; split; eexists; reflexivity.
Qed.

(** X2.  [noise2D] never reads outside its tables: for every seed and
    all doubles [x] and [y], NaN and the infinities among them, each of
    the three gradient indices is a number below 12, and the two reads
    of [grad3] that it selects are defined. *)
Theorem noise2D_reads_defined (seed x y : float) :
  length (gradients (newSimplexNoise seed) x y) = 3%nat
  /\ List.Forall
       (fun gi => exists g, gi = Some g /\ 0 <= g < 12
                            /\ is_Some (readAt grad3 (g * 3))
                            /\ is_Some (readAt grad3 (g * 3 + 1)))
       (gradients (newSimplexNoise seed) x y).
Proof.
  destruct (newSimplexNoise_perm seed) as [L B].
  unfold gradients.
  set (i := floor _). set (j := floor _).
  pose proof (land_255_range (toInt32 i)) as Hi.
  pose proof (land_255_range (toInt32 j)) as Hj.
  assert (forall a b, 0 <= a <= 256 -> 0 <= b <= 256 ->
            exists g, gradIndex (perm (newSimplexNoise seed)) a b = Some g
                      /\ 0 <= g < 12
                      /\ is_Some (readAt grad3 (g * 3))
                      /\ is_Some (readAt grad3 (g * 3 + 1))) as G.
  { intros a b Ha Hb.
    destruct (gradIndex_defined _ a b L B Ha Hb) as (g & E & R).
    exists g. split; [exact E|]. split; [exact R|]. now apply gradAt_defined. }
  destruct (PrimFloat.ltb _ _); cbn zeta; (split; [reflexivity|]);
    repeat constructor; apply G; lia.
Qed.

(** An array index is below the length. *)
Lemma arrayIndex_lt n len k : arrayIndex n len = Some k -> (k < len)%nat.
Proof.
  unfold arrayIndex. destruct (PrimFloat.eqb _ _); [|discriminate].
  destruct (0 <=? truncZ n) eqn:E0; [|discriminate].
  destruct (truncZ n <? Z.of_nat len) eqn:E1; [|discriminate].
  cbn [andb]. destruct (negb _); [|discriminate].
  intros [= <-]. apply Z.leb_le in E0. apply Z.ltb_lt in E1. lia.
Qed.

(** What a write does to the number of occurrences of a value. *)
Lemma count_occ_insert (l : list Z) i u v x :
  l !! i = Some u ->
  (count_occ Z.eq_dec (<[i := v]> l) x + (if Z.eq_dec u x then 1 else 0)
   = count_occ Z.eq_dec l x + (if Z.eq_dec v x then 1 else 0))%nat.
Proof.
  revert i. induction l as [|a l IH]; intros [|i] H; try discriminate.
  - injection H as ->. change (<[0%nat := v]> (u :: l)) with (v :: l).
    cbn [count_occ].
    destruct (Z.eq_dec v x), (Z.eq_dec u x); lia.
  - change (<[S i := v]> (a :: l)) with (a :: <[i := v]> l).
    change ((a :: l) !! S i) with (l !! i) in H.
    cbn [count_occ]. specialize (IH i H).
    destruct (Z.eq_dec a x); lia.
Qed.

(** A turn of the loop whose [n] is an index exchanges two cells. *)
Lemma shuffleStep_swap seed i (p : Uint8Array) :
  (i < length p)%nat ->
  is_Some (arrayIndex (swapIndex seed i) (length p)) ->
  shuffleStep seed i p ≡ₚ p.
Proof.
  intros Hi [k Hk]. unfold shuffleStep.
  change (floor _) with (swapIndex seed i).
  unfold readCell, writeCell. rewrite length_insert, Hk.
  pose proof (arrayIndex_lt _ _ _ Hk) as Hlt.
  destruct (lookup_lt_is_Some_2 p i Hi) as [u Hu].
  destruct (lookup_lt_is_Some_2 p k Hlt) as [w Hw].
  rewrite Hu, Hw. cbn [default from_option]. unfold id.
  apply (Permutation_count_occ Z.eq_dec). intros x.
  pose proof (count_occ_insert p i u w x Hu) as E1.
  assert (<[i := w]> p !! k = Some w) as Hk'.
  { destruct (decide (i = k)) as [->|Hne].
    - now apply list_lookup_insert_eq.
    - now rewrite list_lookup_insert_ne. }
  pose proof (count_occ_insert (<[i := w]> p) k w u x Hk') as E2.
  destruct (Z.eq_dec u x), (Z.eq_dec w x); lia.
Qed.

Lemma shuffleFrom_swaps seed k :
  forall p : Uint8Array,
    (k < length p)%nat ->
    (forall i, (1 <= i <= k)%nat ->
               is_Some (arrayIndex (swapIndex seed i) (length p))) ->
    shuffleFrom seed k p ≡ₚ p.
Proof.
  induction k as [|k IH]; intros p Hk H; [reflexivity|].
  cbn [shuffleFrom]. etransitivity.
  - apply IH.
    + rewrite shuffleStep_length. lia.
    + intros i Hi. rewrite shuffleStep_length. apply H. lia.
  - apply shuffleStep_swap; [lia|]. apply H. lia.
Qed.

(** X3.  When every index [n] of the shuffle loop is an index of the
    table, the loop exchanges cells only: the shuffled table is a
    permutation of 0, ..., 255 and holds no value twice. *)
Theorem shuffle_is_permutation (seed : float) :
  swapsInRange seed = true ->
  shuffleFrom seed 255 identityTable ≡ₚ identityTable
  /\ NoDup (shuffleFrom seed 255 identityTable).
Proof.
  intros H.
  assert (shuffleFrom seed 255 identityTable ≡ₚ identityTable) as P.
  { apply shuffleFrom_swaps.
    - unfold identityTable. rewrite length_map, length_seq. lia.
    - intros i Hi.
      replace (length identityTable) with 256%nat
        by (unfold identityTable; now rewrite length_map, length_seq).
      unfold swapsInRange in H. rewrite forallb_forall in H.
      specialize (H i). rewrite bool_decide_eq_true in H. apply H.
      apply in_seq. lia. }
  split; [exact P|]. rewrite P. unfold identityTable.
  apply NoDup_fmap_2; [intros a b; lia | apply NoDup_seq].
Qed.

Lemma shuffle_is_permutation_witness :
  swapsInRange 0.5%float = true
  /\ shuffleFrom 0.5%float 255 identityTable ≡ₚ identityTable.
Proof.
  split; [reflexivity|].
  apply (shuffle_is_permutation 0.5%float). reflexivity.
Defined.

End LatticeFacts.

(* ===================================================================== *)
(** * The order of doubles, the clamp and the events of the scene *)
(* ===================================================================== *)


Section FloatOrderFacts.
Import FloatOrder.

(** A double that is not NaN is equal to itself. *)
Lemma cmp_nan a : PrimFloat.is_nan a = false -> cmp a a = Some Eq.
Proof.
  unfold PrimFloat.is_nan. rewrite FloatAxioms.eqb_spec. unfold SFeqb, cmp.
  destruct (SFcompare _ _) as [[]|]; now intros.
Qed.

(** Two doubles that are not NaN are comparable. *)
Lemma cmp_Some a b :
  PrimFloat.is_nan a = false -> PrimFloat.is_nan b = false ->
  exists c, cmp a b = Some c.
Proof.
  intros Ha%cmp_nan Hb%cmp_nan. unfold cmp in *.
  destruct (Prim2SF a), (Prim2SF b); try discriminate; cbn; eauto.
Qed.

(** Exchanging the arguments reverses the comparison. *)
Lemma SFcompare_antisym x y :
  SFcompare y x = option_map CompOpp (SFcompare x y).
Proof.
  destruct x as [[]|[]| |[] m1 e1], y as [[]|[]| |[] m2 e2]; try reflexivity;
    cbn; f_equal.
  - rewrite (Z.compare_antisym e1 e2).
    destruct (e1 ?= e2); cbn; try reflexivity.
    rewrite (Pos.compare_cont_antisym m1 m2 Eq). reflexivity.
  - rewrite (Z.compare_antisym e1 e2).
    destruct (e1 ?= e2); cbn; try reflexivity.
    rewrite (Pos.compare_cont_antisym m1 m2 Eq). reflexivity.
Qed.

Lemma cmp_antisym a b : cmp b a = option_map CompOpp (cmp a b).
Proof. apply SFcompare_antisym. Qed.

Lemma ltb_cmp a b : PrimFloat.ltb a b = true <-> cmp a b = Some Lt.
Proof.
  rewrite FloatAxioms.ltb_spec. unfold SFltb, cmp.
  destruct (SFcompare _ _) as [[]|]; split; congruence.
Qed.

Lemma leb_cmp a b :
  PrimFloat.leb a b = true <-> cmp a b = Some Lt \/ cmp a b = Some Eq.
Proof.
  rewrite FloatAxioms.leb_spec. unfold SFleb, cmp.
  destruct (SFcompare _ _) as [[]|]; split; intros; try tauto; try congruence;
    destruct H; congruence.
Qed.

End FloatOrderFacts.

Section ClampFacts.
Import Js Render Scene FloatOrder.

Lemma leb_refl a : PrimFloat.is_nan a = false -> PrimFloat.leb a a = true.
Proof. intros H. apply leb_cmp. right. now apply cmp_nan. Qed.

Lemma ltb_leb a b : PrimFloat.ltb a b = true -> PrimFloat.leb a b = true.
Proof. intros H. apply leb_cmp. left. now apply ltb_cmp. Qed.

(** Of two doubles that are not NaN, one is at most the other. *)
Lemma not_ltb_leb a b :
  PrimFloat.is_nan a = false -> PrimFloat.is_nan b = false ->
  PrimFloat.ltb b a = false -> PrimFloat.leb a b = true.
Proof.
  intros Ha Hb H. apply leb_cmp.
  destruct (cmp_Some a b Ha Hb) as [[] E]; [now right | now left |].
  assert (PrimFloat.ltb b a = true) as L.
  { apply ltb_cmp. rewrite cmp_antisym, E. reflexivity. }
  congruence.
Qed.

(** [Math.min] and [Math.max] of two doubles that are not NaN. *)
Lemma jsMin_range a b :
  PrimFloat.is_nan a = false -> PrimFloat.is_nan b = false ->
  PrimFloat.is_nan (jsMin a b) = false
  /\ PrimFloat.leb (jsMin a b) a = true /\ PrimFloat.leb (jsMin a b) b = true.
Proof.
  intros Ha Hb. unfold jsMin. rewrite Ha, Hb. cbn [orb].
  destruct (PrimFloat.ltb b a) eqn:L1.
  { repeat split; [exact Hb | now apply ltb_leb | now apply leb_refl]. }
  destruct (PrimFloat.ltb a b) eqn:L2.
  { repeat split; [exact Ha | now apply leb_refl | now apply ltb_leb]. }
  destruct (PrimFloat.get_sign a).
  - repeat split; [exact Ha | now apply leb_refl | now apply not_ltb_leb].
  - repeat split; [exact Hb | now apply not_ltb_leb | now apply leb_refl].
Qed.

Lemma jsMax_range a b :
  PrimFloat.is_nan a = false -> PrimFloat.is_nan b = false ->
  PrimFloat.is_nan (jsMax a b) = false
  /\ PrimFloat.leb a (jsMax a b) = true /\ PrimFloat.leb b (jsMax a b) = true
  /\ (jsMax a b = a \/ jsMax a b = b).
Proof.
  intros Ha Hb. unfold jsMax. rewrite Ha, Hb. cbn [orb].
  destruct (PrimFloat.ltb a b) eqn:L1.
  { repeat split; [exact Hb | now apply ltb_leb | now apply leb_refl | now right]. }
  destruct (PrimFloat.ltb b a) eqn:L2.
  { repeat split; [exact Ha | now apply leb_refl | now apply ltb_leb | now left]. }
  destruct (PrimFloat.get_sign a).
  - repeat split; [exact Hb | now apply not_ltb_leb | now apply leb_refl | now right].
  - repeat split; [exact Ha | now apply leb_refl | now apply not_ltb_leb | now left].
Qed.

(** The clamp of NaN is NaN. *)
Lemma clamp_nan value mn mx :
  PrimFloat.is_nan value = true -> PrimFloat.is_nan (clamp value mn mx) = true.
Proof.
  intros H. unfold clamp, jsMin, jsMax. rewrite H, orb_true_r.
  change (PrimFloat.is_nan nan) with true. rewrite orb_true_r. reflexivity.
Qed.

(** The clamp of a double that is not NaN is between the bounds. *)
Lemma clamp_range value mn mx :
  PrimFloat.is_nan mn = false -> PrimFloat.is_nan mx = false ->
  PrimFloat.ltb mx mn = false ->
  PrimFloat.is_nan value = false ->
  PrimFloat.is_nan (clamp value mn mx) = false
  /\ within mn mx (clamp value mn mx) = true.
Proof.
  intros Hmn Hmx Hle Hv. unfold clamp, within.
  destruct (jsMin_range mx value Hmx Hv) as (Nw & W1 & W2).
  destruct (jsMax_range mn _ Hmn Nw) as (Nr & R1 & R2 & R3).
  split; [exact Nr|]. rewrite R1. cbn [andb].
  destruct R3 as [-> | ->]; [|exact W1].
  now apply not_ltb_leb.
Qed.

(** The halo opacity of a frame is NaN or in [0.02, 0.6]. *)
Lemma haloOpacityAt_range base pulse :
  let raw := (base * (0.7 + pulse * 0.6))%float in
  PrimFloat.is_nan (haloOpacityAt base pulse) = PrimFloat.is_nan raw
  /\ (PrimFloat.is_nan raw = false ->
      within 0.02%float 0.6%float (haloOpacityAt base pulse) = true).
Proof.
  intros raw. unfold haloOpacityAt. fold raw.
  destruct (PrimFloat.is_nan raw) eqn:N.
  - split; [now apply clamp_nan | discriminate].
  - destruct (clamp_range raw 0.02%float 0.6%float) as [A B]; try reflexivity.
    + exact N.
    + split; [exact A | intros _; exact B].
Qed.

End ClampFacts.

Section SceneFacts.
Import Js Render Scene.
Variable sin : float -> float.

(** [selectColors] gives one of the three palettes, for every index. *)
Lemma selectColors_total index :
  exists c, selectColors index = inr c
            /\ (c = colors auroraBloom \/ c = colors crimsonPulse
                \/ c = colors deepTide).
Proof.
  unfold selectColors, paletteAt.
  destruct (0 <=? index) eqn:E; [|eexists; split; [reflexivity | now left]].
  apply Z.leb_le in E.
  destruct (Z.to_nat index) as [|[|[|n]]]; cbn;
    eexists; (split; [reflexivity|]); tauto.
Qed.

Lemma synced_step seed st ev :
  synced seed st -> synced seed (stageStep sin st ev).
Proof.
  intros (c & S & L & B & N). destruct ev as [index|nx ny|fr]; cbn.
  - unfold applyPalette.
    destruct (selectColors_total index) as (c' & E & _). rewrite E.
    exists c'. cbn. now repeat split.
  - exists c. now repeat split.
  - exists c. now repeat split.
Qed.

Lemma stageRun_snoc st evs ev :
  stageRun sin st (evs ++ [ev]) = stageStep sin (stageRun sin st evs) ev.
Proof. unfold stageRun. now rewrite fold_left_app. Qed.

(** The palette [applyPalette] takes for an index: the second and the
    third for 1 and 2, the first for every other index. *)
Lemma selectColors_index index :
  selectColors index
  = inr (colors match index with
                | 1 => crimsonPulse
                | 2 => deepTide
                | _ => auroraBloom
                end).
Proof.
  unfold selectColors, paletteAt.
  destruct index as [|p|p]; [reflexivity| |reflexivity].
  assert (p = 1 \/ p = 2 \/ 3 <= p)%positive as [-> | [-> | G]] by lia;
    [reflexivity | reflexivity |].
  change (0 <=? Z.pos p) with true. cbn match.
  rewrite lookup_ge_None_2 by (cbn; lia).
  destruct p as [[q|q|]|[q|q|]|]; try lia; reflexivity.
Qed.

(** The scene variables follow the events: the palette last asked for,
    the noise table of start-up, one frame counted for each call of
    [animate]. *)
Lemma stage_follows_events (seed : float) (evs : list StageEvent) :
  let st := stageRun sin (initial seed) evs in
  (exists c, selectColors (currentPaletteIndex st) = inr c
             /\ look st = lookOf c
             /\ haloBaseOpacity st = default 0.12%float (haloOpacity c))
  /\ currentPaletteIndex st = requestedPalette evs
  /\ simplex st = Noise.newSimplexNoise seed
  /\ framesRendered (motion st) = length (List.filter isFrameTick evs).
Proof.
  induction evs as [|ev evs IH] using rev_ind.
  - cbn. split; [|now repeat split]. eexists. now repeat split.
  - cbn zeta in *. rewrite stageRun_snoc.
    destruct IH as ((c & S & L & B) & I & N & F).
    unfold requestedPalette in *. rewrite fold_left_app, List.filter_app, length_app.
    destruct (synced_step seed (stageRun sin (initial seed) evs) ev) as (c' & S' & L' & B' & N').
    { exists c. now repeat split. }
    split; [exists c'; now repeat split|].
    split; [|split; [exact N'|]].
    + destruct ev as [index|nx ny|fr]; cbn; try exact I.
      unfold applyPalette.
      destruct (selectColors_total index) as (c2 & E & _). now rewrite E.
    + destruct ev as [index|nx ny|fr]; cbn; try lia.
      unfold applyPalette.
      destruct (selectColors_total index) as (c2 & E & _). rewrite E. cbn. lia.
Qed.

(** X5.  After every sequence of palette choices, pointer moves and
    frames, the look on display and the base opacity of the halo are
    those of the palette that [currentPaletteIndex] selects (the first
    palette when the index is out of range); the index is the one last
    asked for; the noise table is the one built at start-up; and
    [animate] has counted one frame for each call.  The look is given
    in full: the sixteen values that [applyPalette] writes, for Crimson
    Pulse at index 1, for Deep Tide at index 2, and for Aurora Bloom at
    every other index. *)
Theorem look_follows_palette (seed : float) (evs : list StageEvent) :
  let st := stageRun sin (initial seed) evs in
  (exists c, selectColors (currentPaletteIndex st) = inr c
             /\ look st = lookOf c
             /\ haloBaseOpacity st = default 0.12%float (haloOpacity c))
  /\ currentPaletteIndex st = requestedPalette evs
  /\ simplex st = Noise.newSimplexNoise seed
  /\ framesRendered (motion st) = length (List.filter isFrameTick evs)
  /\ look st
     = match requestedPalette evs with
       | 1 =>
         {| uColorA := "#ff6a88"; uColorB := "#ffc371"; uGlow := 1.25%float;
            haloColor := "#ff945a"; floorMatEmissive := "#270d16";
            floorMatEmissiveIntensity := 0.75%float;
            keyLightColor := "#ff9f6b"; keyLightIntensity := 1.35%float;
            rimLightColor := "#ff3d7f"; rimLightIntensity := 0.8%float;
            hemiLightColor := "#ffe1b5"; hemiLightGroundColor := "#22030a";
            fogColor := "#19050d"; clearColor := "#19050d";
            bodyBackground :=
              "radial-gradient(circle at center, #1f0410 0%, #11000c 45%, #030005 100%)";
            overlayBackground :=
              "radial-gradient(circle at var(--cursor-x, 50%) var(--cursor-y, 50%), rgba(255, 118, 90, 0.24), transparent 45%)" |}
       | 2 =>
         {| uColorA := "#2bd5c5"; uColorB := "#3f7bff"; uGlow := 0.92%float;
            haloColor := "#38c7c9"; floorMatEmissive := "#061c24";
            floorMatEmissiveIntensity := 0.68%float;
            keyLightColor := "#3fafff"; keyLightIntensity := 1.35%float;
            rimLightColor := "#2fffd2"; rimLightIntensity := 0.8%float;
            hemiLightColor := "#4dd0ff"; hemiLightGroundColor := "#021318";
            fogColor := "#021018"; clearColor := "#021018";
            bodyBackground :=
              "radial-gradient(circle at center, #021620 0%, #00101b 45%, #00050d 100%)";
            overlayBackground :=
              "radial-gradient(circle at var(--cursor-x, 50%) var(--cursor-y, 50%), rgba(75, 180, 255, 0.2), transparent 45%)" |}
       | _ =>
         {| uColorA := "#2077ff"; uColorB := "#ff5bd1"; uGlow := 1.0%float;
            haloColor := "#1e6bff"; floorMatEmissive := "#0b1835";
            floorMatEmissiveIntensity := 0.6%float;
            keyLightColor := "#4aa8ff"; keyLightIntensity := 1.35%float;
            rimLightColor := "#ff4d9d"; rimLightIntensity := 0.8%float;
            hemiLightColor := "#87b9ff"; hemiLightGroundColor := "#050505";
            fogColor := "#040712"; clearColor := "#040712";
            bodyBackground :=
              "radial-gradient(circle at center, #0c1024 0%, #040614 42%, #010106 100%)";
            overlayBackground :=
              "radial-gradient(circle at var(--cursor-x, 50%) var(--cursor-y, 50%), rgba(33, 136, 255, 0.24), transparent 45%)" |}
       end
  /\ haloBaseOpacity st
     = match requestedPalette evs with
       | 1 => 0.16%float
       | 2 => 0.14%float
       | _ => 0.12%float
       end.
Proof.
  destruct (stage_follows_events seed evs) as ((c & S & L & B) & I & N & F).
  cbn zeta in *.
  split; [exists c; now repeat split|].
  split; [exact I|]. split; [exact N|]. split; [exact F|].
  rewrite <- I. rewrite selectColors_index in S. injection S as [= <-].
  rewrite L, B.
  destruct (currentPaletteIndex _) as [|[[p|p|]|[p|p|]|]|p];
    split; reflexivity.
Qed.

(** X4.  Whatever palettes are chosen, however the pointer moves and
    whatever the frames read, the opacity of the halo material is in
    [0.02, 0.6] or is NaN, at start-up and after every event. *)
Theorem halo_opacity_stays_in_range (seed : float) (evs : list StageEvent) :
  let st := stageRun sin (initial seed) evs in
  PrimFloat.is_nan (haloMaterialOpacity st) = true
  \/ within 0.02%float 0.6%float (haloMaterialOpacity st) = true.
Proof.
  induction evs as [|ev evs IH] using rev_ind.
  - right. reflexivity.
  - cbn zeta in *. rewrite stageRun_snoc.
    destruct ev as [index|nx ny|fr]; cbn.
    + unfold applyPalette.
      destruct (selectColors_total index) as (c & E & C). rewrite E. cbn.
      right. destruct C as [-> | [-> | ->]]; reflexivity.
    + exact IH.
    + match goal with |- context [haloOpacityAt ?b ?p] =>
        destruct (haloOpacityAt_range b p) as [A B] end.
      match type of A with _ = PrimFloat.is_nan ?r =>
        destruct (PrimFloat.is_nan r) end.
      * now left.
      * right. now apply B.
Qed.

End SceneFacts.

(* ===================================================================== *)
(** * Properties of the audio buffer cache over all runs *)
(* ===================================================================== *)


Section CacheMoreFacts.
Import Js AudioCache Session CacheMore.

(** Entries are made by loader calls only. *)
Lemma backed_step c ev : backed c -> backed (cacheStep c ev).
Proof.
  intros B. destruct ev as [url|p b|p e]; cbn.
  - unfold loadAudioBuffer. destruct (buffers c !! url) eqn:E; [exact B|].
    cbn. intros u q H. cbn in H.
    destruct (decide (u = url)) as [->|Hne].
    + eexists. apply elem_of_app. right. apply list_elem_of_singleton.
      reflexivity.
    + rewrite lookup_insert_ne in H by congruence.
      destruct (B u q H) as [p Hp]. exists p. apply elem_of_app. now left.
  - unfold loaderResolves. destruct (urlOf p c) as [url|] eqn:U; [|exact B].
    destruct (promises c !! p) as [[]|]; try exact B.
    cbn. intros u q H. cbn in H. cbn.
    destruct (decide (u = url)) as [->|Hne].
    + exists p. now apply urlOf_Some.
    + rewrite lookup_insert_ne in H by congruence. exact (B u q H).
  - unfold loaderRejects. destruct (urlOf p c) as [url|]; [|exact B].
    destruct (promises c !! p) as [[]|]; exact B.
Qed.

Lemma backed_run evs : forall c, backed c -> backed (cacheRun c evs).
Proof.
  induction evs as [|ev evs IH]; intros c B; [exact B|].
  apply IH, backed_step, B.
Qed.

Lemma backed_empty : backed empty.
Proof. intros url q H. cbn in H. now rewrite lookup_empty in H. Qed.

(** X6.  In every cache that [loadAudioBuffer] and the loader callbacks
    can produce from the empty one, at most one decode has been started
    for a url, and one has been started exactly when the url has an
    entry: no entry is made without a decode and no decode is started
    for an entry that is there, also after a failure. *)
Theorem one_decode_per_url (evs : list CacheEvent) (url : string) :
  let c := cacheRun empty evs in
  (decodesOf url c <= 1)%nat
  /\ (decodesOf url c = 1%nat <-> is_Some (buffers c !! url)).
Proof.
  intros c.
  pose proof (coherent_run evs empty coherent_empty) as C. fold c in C.
  pose proof (backed_run evs empty backed_empty) as B. fold c in B.
  destruct (buffers c !! url) as [q|] eqn:E.
  - destruct (B url q E) as [p Hp].
    rewrite (decodesOf_present c url p (load_urls c C) Hp).
    split; [lia|]. split; [eauto | reflexivity].
  - rewrite decodesOf_absent.
    + split; [lia|]. split; [discriminate | intros [? [=]]].
    + intros p. now apply no_entry_no_load.
Qed.

(** A loader call is made for a url that is asked for. *)
Lemma loads_step c ev url p :
  (url, p) ∈ loads (cacheStep c ev) ->
  (url, p) ∈ loads c \/ ev = Get url.
Proof.
  destruct ev as [u|q b|q e]; cbn.
  - unfold loadAudioBuffer. destruct (buffers c !! u); [now left|].
    cbn. intros [H|H%list_elem_of_singleton]%elem_of_app; [now left|].
    injection H as -> ->. now right.
  - unfold loaderResolves. destruct (urlOf q c); [|now left].
    destruct (promises c !! q) as [[]|]; now left.
  - unfold loaderRejects. destruct (urlOf q c); [|now left].
    destruct (promises c !! q) as [[]|]; now left.
Qed.

Lemma loads_run evs :
  forall c url p,
    (url, p) ∈ loads (cacheRun c evs) ->
    (url, p) ∈ loads c \/ url ∈ asked evs.
Proof.
  induction evs as [|ev evs IH]; intros c url p H; [now left|].
  cbn in H. destruct (IH _ _ _ H) as [H1|H1].
  - destruct (loads_step _ _ _ _ H1) as [H2 | ->]; [now left|].
    right. cbn. now left.
  - right. unfold asked. cbn. destruct ev; try exact H1. now right.
Qed.

(** The session asks for the files of the audio options only. *)
Lemma asked_cacheEvents evs url :
  url ∈ asked (evs ≫= cacheEvents) -> url ∈ audioFile <$> audioOptions.
Proof.
  induction evs as [|ev evs IH]; cbn.
  - intros H. now apply elem_of_nil in H.
  - unfold asked. rewrite omap_app.
    intros [H|H]%elem_of_app; [|exact (IH H)].
    destruct ev as [i|i|r f|p [e|b]|r f]; cbn in H;
      try (now apply elem_of_nil in H).
    unfold optionAt in H.
    destruct (0 <=? i); [|now apply elem_of_nil in H].
    destruct (audioOptions !! Z.to_nat i) as [o|] eqn:E;
      [|now apply elem_of_nil in H].
    cbn in H. apply list_elem_of_singleton in H. subst url.
    apply (list_elem_of_fmap_2 audioFile audioOptions o).
    eapply list_elem_of_lookup_2, E.
Qed.

(** X7.  Whatever is requested and however the loader, [changeFBX]
    and the audio context settle, the script calls the loader at most
    twice in a session: once for each of the two audio files, and for
    no other url. *)
Theorem loader_calls_bounded (evs : list Event) :
  let c := cache (run initial evs) in
  NoDup (loads c).*1
  /\ (loads c).*1 ⊆ audioFile <$> audioOptions
  /\ (length (loads c) <= 2)%nat.
Proof.
  intros c. pose proof (run_coherent evs) as C. fold c in C.
  assert ((loads c).*1 ⊆ audioFile <$> audioOptions) as S.
  { intros url [[u p] [-> H]]%list_elem_of_fmap. cbn.
    unfold c in H. rewrite run_cache in H.
    destruct (loads_run _ _ _ _ H) as [H1|H1].
    - now apply elem_of_nil in H1.
    - now apply asked_cacheEvents in H1. }
  split; [exact (load_urls c C)|]. split; [exact S|].
  rewrite <- (length_fmap fst).
  change 2%nat with (length (audioFile <$> audioOptions)).
  apply submseteq_length, NoDup_submseteq; [exact (load_urls c C) | exact S].
Qed.

End CacheMoreFacts.

(* ===================================================================== *)
(** * Properties of the switches over all runs *)
(* ===================================================================== *)


Section RequestFacts.
Import Js AudioCache Session Requests.

Lemma sameRequests_refl s : sameRequests s s.
Proof. now split. Qed.

Lemma sameRequests_trans s1 s2 s3 :
  sameRequests s1 s2 -> sameRequests s2 s3 -> sameRequests s1 s3.
Proof. intros [A B] [C D]. split; congruence. Qed.

Lemma sameTrack_refl s : sameTrack s s.
Proof. now repeat split. Qed.

Lemma sameTrack_trans s1 s2 s3 :
  sameTrack s1 s2 -> sameTrack s2 s3 -> sameTrack s1 s3.
Proof.
  intros (A & B & C) (D & E & F). repeat split; try congruence.
  intros a' H P. apply C; [|exact P]. now apply F.
Qed.

(** Binding a buffer keeps the request variables and the committed
    track. *)
Lemma afterBuffer_requests i r o b s : sameRequests s (afterBuffer i r o b s).
Proof.
  unfold afterBuffer. destruct (negb _); [apply sameRequests_refl|].
  destruct (audio (sound s)); [|apply sameRequests_refl]. now split.
Qed.

Lemma afterBuffer_track i r o b s : sameTrack s (afterBuffer i r o b s).
Proof.
  unfold afterBuffer. destruct (negb _); [apply sameTrack_refl|].
  destruct (audio (sound s)) as [a|] eqn:A; [|apply sameTrack_refl].
  repeat split. cbn. intros a' [= <-]. cbn.
  destruct (isPlaying a) eqn:P; cbn; [discriminate|]. now rewrite P.
Qed.

Lemma resumeAll_requests result waiting :
  forall s, sameRequests s (fold_left (resumeWithBuffer result) waiting s).
Proof.
  induction waiting as [|t ts IH]; intros s; [apply sameRequests_refl|].
  cbn [fold_left]. eapply sameRequests_trans; [|apply IH].
  destruct t, result; cbn; try apply sameRequests_refl;
    [now split | apply afterBuffer_requests].
Qed.

Lemma resumeAll_track result waiting :
  forall s, sameTrack s (fold_left (resumeWithBuffer result) waiting s).
Proof.
  induction waiting as [|t ts IH]; intros s; [apply sameTrack_refl|].
  cbn [fold_left]. eapply sameTrack_trans; [|apply IH].
  destruct t, result; cbn; try apply sameTrack_refl;
    [now repeat split | apply afterBuffer_track].
Qed.

(** The animation switch leaves the sound and the cache alone. *)
Lemma switchAnimation_sound index s :
  sound (detached (switchAnimation index s)) = sound s
  /\ cache (detached (switchAnimation index s)) = cache s.
Proof.
  unfold switchAnimation. cbn.
  destruct (negb (supportsFBX _)); [now split|].
  destruct (gvrmInstance (avatars s)) as [inst|]; [|now split].
  destruct (negb (isReady inst)); [now split|].
  destruct (optionAt animationOptions index); [|now split].
  destruct (class inst); cbn; [now split|].
  unfold afterChangeFBX. cbn. rewrite Z.eqb_refl. now split.
Qed.

Lemma changeFBXSettled_sound r f s :
  sound (step s (ChangeFBXSettled r f)) = sound s.
Proof.
  cbn. destruct (takeTask _ _) as [[[] others]|]; try reflexivity.
  destruct f; cbn; [reflexivity|].
  unfold afterChangeFBX. cbn. now destruct (_ =? _).
Qed.

Lemma switchAudio_track index s : sameTrack s (detached (switchAudio index s)).
Proof.
  unfold switchAudio.
  destruct (optionAt audioOptions index) as [o|]; [|now repeat split].
  destruct (loadAudioBuffer _ _) as [p c].
  destruct (promises c !! p) as [[]|]; cbn [detached]; try now repeat split.
  eapply sameTrack_trans; [|apply afterBuffer_track]. now repeat split.
Qed.

(** Only the settlement of a resumed context changes the committed
    track. *)
Lemma step_track s ev : isResumed ev = false -> sameTrack s (step s ev).
Proof.
  intros H. destruct ev as [i|i|r f|p result|r f].
  - destruct (switchAnimation_sound i s) as [E _]. cbn [step].
    unfold sameTrack. rewrite E. now repeat split.
  - apply switchAudio_track.
  - unfold sameTrack. rewrite changeFBXSettled_sound. now repeat split.
  - cbn [step]. destruct (match result with inl _ => _ | inr _ => _ end);
      [|apply sameTrack_refl].
    eapply sameTrack_trans; [|apply resumeAll_track]. now repeat split.
  - destruct f as [e|]; [|discriminate]. cbn [step].
    destruct (takeTask _ _) as [[[] others]|]; try apply sameTrack_refl.
    now repeat split.
Qed.

(** X10.  The committed track changes only when an audio context
    resumes: every other event (a request, a decoded or failed buffer,
    a rejected [resume()], anything about animations) leaves
    [currentAudioIndex] and [audioAnalyser] as they are, and does not
    start playback. *)
Theorem audio_commit_points (s : Session) (ev : Event) :
  isResumed ev = false ->
  currentAudioIndex (sound (step s ev)) = currentAudioIndex (sound s)
  /\ audioAnalyser (sound (step s ev)) = audioAnalyser (sound s)
  /\ forall a', audio (sound (step s ev)) = Some a' -> isPlaying a' = true ->
                audio (sound s) = Some a'.
Proof. intros H. exact (step_track s ev H). Qed.

Lemma audio_commit_points_witness :
  let s := step initial (SelectAudio 1) in
  let ev := LoaderSettled 0 (inr (Decoded 1)) in
  isResumed ev = false
  /\ currentAudioIndex (sound (step s ev)) = currentAudioIndex (sound s).
Proof.
  intros s ev. split; [reflexivity|].
  exact (proj1 (audio_commit_points s ev eq_refl)).
Defined.

(** Only an audio request changes the request variables. *)
Lemma step_requests s ev :
  isSelectAudio ev = false -> sameRequests s (step s ev).
Proof.
  intros H. destruct ev as [i|i|r f|p result|r f]; try discriminate.
  - destruct (switchAnimation_sound i s) as [E _]. cbn [step].
    unfold sameRequests. now rewrite E.
  - unfold sameRequests. now rewrite changeFBXSettled_sound.
  - cbn [step]. destruct (match result with inl _ => _ | inr _ => _ end);
      [|apply sameRequests_refl].
    eapply sameRequests_trans; [|apply resumeAll_requests]. now split.
  - cbn [step].
    destruct (takeTask _ _) as [[[] others]|]; try apply sameRequests_refl.
    destruct f; cbn; [now split|].
    unfold afterResume. cbn. destruct (audio (sound s)); now split.
Qed.

(** An audio request takes the next request id. *)
Lemma switchAudio_requests index s :
  let s' := detached (switchAudio index s) in
  audioRequestId (sound s') = audioRequestId (sound s) + 1
  /\ desiredAudioIndex (sound s') = index.
Proof.
  unfold switchAudio.
  destruct (optionAt audioOptions index) as [o|]; [|now split].
  destruct (loadAudioBuffer _ _) as [p c].
  destruct (promises c !! p) as [[]|]; cbn [detached]; try now split.
  match goal with |- context [afterBuffer ?i ?r ?o ?b ?s0] =>
    destruct (afterBuffer_requests i r o b s0) as [A B] end.
  cbn zeta. rewrite A, B. now split.
Qed.

(** X8.  Every call of [switchAudio] takes a request id, also one
    for an index without an option, and nothing else does: after any
    events [audioRequestId] has grown by the number of audio requests,
    and [desiredAudioIndex] is the index of the last one. *)
Theorem audio_requests_counted (s : Session) (evs : list Event) :
  audioRequestId (sound (run s evs))
  = audioRequestId (sound s)
    + Z.of_nat (length (List.filter isSelectAudio evs))
  /\ desiredAudioIndex (sound (run s evs))
     = lastAudioRequest (desiredAudioIndex (sound s)) evs.
Proof.
  revert s. induction evs as [|ev evs IH]; intros s.
  - cbn. split; [lia | reflexivity].
  - change (run s (ev :: evs)) with (run (step s ev) evs).
    destruct (IH (step s ev)) as [A B]. rewrite A, B.
    unfold lastAudioRequest. cbn [fold_left List.filter].
    destruct (isSelectAudio ev) eqn:E.
    + destruct ev; try discriminate.
      destruct (switchAudio_requests index s) as [C D]. cbn zeta in C, D.
      cbn [step]. rewrite C, D. cbn [length]. split; [lia | reflexivity].
    + destruct (step_requests s ev E) as [C D]. rewrite C, D.
      split; [lia|]. now destruct ev.
Qed.

(** No event changes the avatar variables. *)
Lemma step_avatars s ev : avatars (step s ev) = avatars s.
Proof.
  destruct ev as [i|i|r f|p result|r f];
    try (apply (sameAnimation_audio_event s); exact I).
  - cbn [step]. unfold switchAnimation. cbn.
    destruct (negb (supportsFBX _)); [reflexivity|].
    destruct (gvrmInstance (avatars s)) as [inst|]; [|reflexivity].
    destruct (negb (isReady inst)); [reflexivity|].
    destruct (optionAt animationOptions i); [|reflexivity].
    destruct (class inst); cbn; [reflexivity|].
    unfold afterChangeFBX. cbn. now rewrite Z.eqb_refl.
  - cbn. destruct (takeTask _ _) as [[[] others]|]; try reflexivity.
    destruct f; cbn; [reflexivity|].
    unfold afterChangeFBX. cbn. now destruct (_ =? _).
Qed.

Lemma noClipChange_spec s :
  noClipChange s = true <-> forall i r o, AwaitChangeFBX i r o ∉ tasks s.
Proof.
  unfold noClipChange. rewrite forallb_forall. split.
  - intros H i r o In. apply list_elem_of_In in In. now specialize (H _ In).
  - intros H t In. apply list_elem_of_In in In.
    destruct t; try reflexivity. now apply H in In.
Qed.

(** Without FBX support an event changes the request only. *)
Lemma inert_step s ev :
  supportsFBX (avatarCapabilities (avatars s)) = false ->
  noClipChange s = true ->
  let s' := step s ev in
  currentAnimationIndex (animation s') = currentAnimationIndex (animation s)
  /\ animationRequestId (animation s') = animationRequestId (animation s)
  /\ desiredAnimationIndex (animation s')
     = lastAnimationRequest (desiredAnimationIndex (animation s)) [ev]
  /\ noClipChange s' = true.
Proof.
  intros F N s'. subst s'.
  assert (forall e, sameAnimation s (step s e) ->
            lastAnimationRequest (desiredAnimationIndex (animation s)) [e]
            = desiredAnimationIndex (animation s) ->
            currentAnimationIndex (animation (step s e))
            = currentAnimationIndex (animation s)
            /\ animationRequestId (animation (step s e))
               = animationRequestId (animation s)
            /\ desiredAnimationIndex (animation (step s e))
               = lastAnimationRequest (desiredAnimationIndex (animation s)) [e]
            /\ noClipChange (step s e) = true) as Audio.
  { intros e (A & _ & T) L. rewrite A, L. repeat split.
    apply noClipChange_spec. intros i' r' o' In. apply T in In.
    revert In. now apply noClipChange_spec. }
  destruct ev as [i|i|r f|p result|r f].
  2,4,5: apply Audio; [now apply sameAnimation_audio_event | reflexivity].
  - cbn [step]. unfold switchAnimation. cbn. rewrite F. cbn.
    now repeat split.
  - cbn [step].
    destruct (takeTask _ _) as [[t others]|] eqn:E; [|now repeat split].
    destruct (takeTask_Some _ _ _ _ E) as [Ft M].
    destruct t; try discriminate.
    exfalso. rewrite noClipChange_spec in N. eapply N, M. now left.
Qed.

(** X9.  While the capabilities do not support FBX (the avatar is
    loading, is the fallback, or has failed) and no clip change is
    under way, no sequence of events changes the animation that is
    committed: [currentAnimationIndex] and [animationRequestId] stay,
    no [changeFBX] is awaited, and only [desiredAnimationIndex] follows
    the requests. *)
Theorem fallback_switch_inert (s : Session) (evs : list Event) :
  supportsFBX (avatarCapabilities (avatars s)) = false ->
  noClipChange s = true ->
  let s' := run s evs in
  currentAnimationIndex (animation s') = currentAnimationIndex (animation s)
  /\ animationRequestId (animation s') = animationRequestId (animation s)
  /\ desiredAnimationIndex (animation s')
     = lastAnimationRequest (desiredAnimationIndex (animation s)) evs
  /\ avatars s' = avatars s
  /\ noClipChange s' = true.
Proof.
  revert s. induction evs as [|ev evs IH]; intros s F N; [now repeat split|].
  destruct (inert_step s ev F N) as (A & B & C & D).
  cbn zeta in *. change (run s (ev :: evs)) with (run (step s ev) evs).
  destruct (IH (step s ev)) as (A' & B' & C' & D' & E').
  { now rewrite step_avatars. }
  { exact D. }
  rewrite A', B', C', D', A, B, C, step_avatars. now repeat split.
Qed.

Lemma fallback_switch_inert_witness :
  let s := initAvatarFrom Samples.secondOnlyEnv ["./assets/b.gvrm"] initial in
  let evs := [SelectAnimation 2; ChangeFBXSettled 1 None; SelectAnimation 3] in
  (supportsFBX (avatarCapabilities (avatars s)) = false
   /\ noClipChange s = true)
  /\ currentAnimationIndex (animation (run s evs))
     = currentAnimationIndex (animation s).
Proof.
  intros s evs. split; [split; reflexivity|].
  exact (proj1 (fallback_switch_inert s evs eq_refl eq_refl)).
Defined.

(** X11.  [switchAnimation] with an index that has no option, on an
    armed session: the promise of the call is rejected with a
    [TypeError] that nobody handles, no clip change is started, and yet
    the call has taken a request id, so that the clip changes that are
    still under way are discarded when they settle: the committed
    animation stays until the next request. *)
Theorem animation_request_out_of_range (s : Session) (index : Z) :
  armed s = true ->
  issued s = true ->
  optionAt animationOptions index = None ->
  let s' := step s (SelectAnimation index) in
  out s' = out s ++ [ SetActiveButton "animation" index;
                      UnhandledRejection undefinedOption ]
  /\ animationRequestId (animation s') = animationRequestId (animation s) + 1
  /\ desiredAnimationIndex (animation s') = index
  /\ currentAnimationIndex (animation s') = currentAnimationIndex (animation s)
  /\ tasks s' = tasks s
  /\ forall evs, noAnimationRequest evs = true ->
       currentAnimationIndex (animation (run s' evs))
       = currentAnimationIndex (animation s).
Proof.
  intros A Is O s'.
  assert (s' = emit (UnhandledRejection undefinedOption)
                 (setAnimationRequestId (animationRequestId (animation s) + 1)
                    (emit (SetActiveButton "animation" index)
                       (setDesiredAnimationIndex index s)))) as E.
  { subst s'. cbn [step]. unfold switchAnimation. cbn.
    unfold armed in A. apply andb_true_iff in A as [A1 A2]. rewrite A1. cbn.
    destruct (gvrmInstance (avatars s)) as [inst|]; [|discriminate].
    apply andb_true_iff in A2 as [A2 A3]. rewrite A2. cbn.
    rewrite O. reflexivity. }
  rewrite E. cbn. rewrite <- app_assoc. repeat split.
  intros evs NR. rewrite <- E.
  assert (latest (currentAnimationIndex (animation s))
            (animationRequestId (animation s) + 1) s') as L.
  { rewrite E. split; [reflexivity|]. cbn. intros i o In.
    apply issued_allIssued in Is. apply Is in In. lia. }
  destruct (latest_run _ _ evs s' NR L) as [_ [H|H]]; rewrite H; [|reflexivity].
  rewrite E. reflexivity.
Qed.

Lemma animation_request_out_of_range_witness :
  let s := run Samples.extendedSession [SelectAnimation 2] in
  let s' := step s (SelectAnimation 9) in
  (armed s = true /\ issued s = true /\ optionAt animationOptions 9 = None)
  /\ currentAnimationIndex
       (animation (run s' [ChangeFBXSettled 2 None; ChangeFBXSettled 1 None]))
     = currentAnimationIndex (animation s).
Proof.
  intros s s'. split; [repeat split|].
  exact (proj2 (proj2 (proj2 (proj2 (proj2
           (animation_request_out_of_range s 9 eq_refl eq_refl eq_refl)))))
           [ChangeFBXSettled 2 None; ChangeFBXSettled 1 None] eq_refl).
Defined.

(** Calls with an old request id leave the sound as it is when their
    buffer arrives. *)
Lemma stale_buffers_dropped result waiting :
  forall s,
    Forall (fun t => match t with
                     | AwaitBuffer _ r _ _ => r <> audioRequestId (sound s)
                     | _ => True
                     end) waiting ->
    sound (fold_left (resumeWithBuffer result) waiting s) = sound s.
Proof.
  induction waiting as [|t ts IH]; intros s H; [reflexivity|].
  apply Forall_cons in H as [Ht Hts]. cbn [fold_left].
  assert (sound (resumeWithBuffer result s t) = sound s) as E.
  { destruct t, result; cbn; try reflexivity.
    now rewrite stale_buffer_dropped. }
  rewrite IH; [exact E|]. now rewrite E.
Qed.

(** X12.  [switchAudio] with an index that has no option: the promise
    of the call is rejected with a [TypeError] that nobody handles, the
    cache and the audio source are not touched, and yet the call has
    taken a request id, so that a buffer that arrives for an earlier
    call is dropped. *)
Theorem audio_request_out_of_range (s : Session) (index : Z) :
  buffersIssued s = true ->
  optionAt audioOptions index = None ->
  let s' := step s (SelectAudio index) in
  out s' = out s ++ [ SetActiveButton "audio" index;
                      UnhandledRejection undefinedOption ]
  /\ audioRequestId (sound s') = audioRequestId (sound s) + 1
  /\ desiredAudioIndex (sound s') = index
  /\ currentAudioIndex (sound s') = currentAudioIndex (sound s)
  /\ audio (sound s') = audio (sound s)
  /\ cache s' = cache s
  /\ tasks s' = tasks s
  /\ forall p result,
       audio (sound (step s' (LoaderSettled p result))) = audio (sound s)
       /\ currentAudioIndex (sound (step s' (LoaderSettled p result)))
          = currentAudioIndex (sound s).
Proof.
  intros Is O s'.
  assert (s' = emit (UnhandledRejection undefinedOption)
                 (setAudioRequestId (audioRequestId (sound s) + 1)
                    (emit (SetActiveButton "audio" index)
                       (setDesiredAudioIndex index s)))) as E.
  { subst s'. cbn [step]. unfold switchAudio. cbn. now rewrite O. }
  rewrite E. cbn. rewrite <- app_assoc. repeat split.
  all: destruct (match result with inl _ => _ | inr _ => _ end);
    [|reflexivity].
  all: rewrite stale_buffers_dropped; [reflexivity|].
  all: cbn; apply List.Forall_forall; intros t [In _]%List.filter_In.
  all: unfold buffersIssued in Is; rewrite forallb_forall in Is.
  all: apply Is in In.
  all: destruct t; try exact I; apply Z.leb_le in In; lia.
Qed.

Lemma audio_request_out_of_range_witness :
  let s := step initial (SelectAudio 1) in
  let s' := step s (SelectAudio 5) in
  (buffersIssued s = true /\ optionAt audioOptions 5 = None)
  /\ audio (sound (step s' (LoaderSettled 0 (inr (Decoded 1)))))
     = audio (sound s).
Proof.
  intros s s'. split; [split; reflexivity|].
  exact (proj1 (proj2 (proj2 (proj2 (proj2 (proj2 (proj2 (proj2
           (audio_request_out_of_range s 5 eq_refl eq_refl))))))) 0%nat
           (inr (Decoded 1)))).
Defined.

End RequestFacts.

(* ===================================================================== *)
(** * Properties of the buttons *)
(* ===================================================================== *)

Section DomFacts.
Import Js Session Trace Dom.

(** Reading a row of the registry after writing one. *)
Lemma buttonsOf_withButtons key key' bs r :
  known key' ->
  buttonsOf key (withButtons key' bs r)
  = if String.eqb key key' then bs else buttonsOf key r.
Proof.
  intros [-> | [-> | ->]]; unfold buttonsOf, withButtons; cbn;
    destruct (String.eqb_spec key "animation");
    destruct (String.eqb_spec key "audio");
    destruct (String.eqb_spec key "palette"); try reflexivity; congruence.
Qed.

Lemma withButtons_unknown key bs r : ~ known key -> withButtons key bs r = r.
Proof.
  intros H. unfold withButtons.
  destruct (String.eqb key "animation") eqn:E1.
  { apply String.eqb_eq in E1. exfalso. apply H. now left. }
  destruct (String.eqb key "audio") eqn:E2.
  { apply String.eqb_eq in E2. exfalso. apply H. right. now left. }
  destruct (String.eqb key "palette") eqn:E3.
  { apply String.eqb_eq in E3. exfalso. apply H. right. now right. }
  reflexivity.
Qed.

Lemma known_dec key : known key \/ ~ known key.
Proof.
  unfold known.
  destruct (decide (key = "animation")); [tauto|].
  destruct (decide (key = "audio")); [tauto|].
  destruct (decide (key = "palette")); tauto.
Qed.

(** [setActiveButton] marks the button of the index, and no other. *)
Lemma activeAt_activate index bs : activeAt index (imap (activate index) bs).
Proof.
  intros k b H. rewrite list_lookup_imap in H.
  destruct (bs !! k) as [b0|]; [|discriminate]. injection H as [= <-].
  unfold isActive, activate. cbn.
  destruct (Z.of_nat k =? index); (split; [|reflexivity]).
  - apply bool_decide_eq_true, elem_of_union. right.
    now apply elem_of_singleton.
  - apply bool_decide_eq_false. rewrite elem_of_difference, elem_of_singleton.
    tauto.
Qed.

(** Enabling and marking touch different classes and attributes. *)
Lemma activeAt_enable index en reason bs :
  activeAt index bs -> activeAt index (enable en reason <$> bs).
Proof.
  intros H k b E. rewrite list_lookup_fmap in E.
  destruct (bs !! k) as [b0|] eqn:B; [|discriminate]. injection E as [= <-].
  destruct (H k b0 B) as [A P]. split; [|exact P].
  rewrite <- A. unfold isActive, enable. cbn.
  apply bool_decide_ext.
  destruct en; [rewrite elem_of_difference | rewrite elem_of_union];
    rewrite elem_of_singleton.
  - split; [tauto | intros ?; split; [assumption | discriminate]].
  - split; [intros [?|?]; [assumption | discriminate] | tauto].
Qed.

Lemma enabledAs_enable (en : bool) reason bs :
  enabledAs (en, reason) (enable en reason <$> bs).
Proof.
  intros k b E. rewrite list_lookup_fmap in E.
  destruct (bs !! k) as [b0|]; [|discriminate]. injection E as [= <-].
  unfold enable. cbn. split; [reflexivity|]. split.
  - destruct en; cbn.
    + apply bool_decide_eq_false.
      rewrite elem_of_difference, elem_of_singleton. tauto.
    + apply bool_decide_eq_true, elem_of_union. right.
      now apply elem_of_singleton.
  - reflexivity.
Qed.

Lemma enabledAs_activate state index bs :
  enabledAs state bs -> enabledAs state (imap (activate index) bs).
Proof.
  intros H k b E. rewrite list_lookup_imap in E.
  destruct (bs !! k) as [b0|] eqn:B; [|discriminate]. injection E as [= <-].
  destruct (H k b0 B) as (A & C & T). split; [exact A|]. split; [|exact T].
  rewrite <- C. unfold activate. cbn. apply bool_decide_ext.
  destruct (_ =? _); [rewrite elem_of_union | rewrite elem_of_difference];
    rewrite elem_of_singleton.
  - split; [intros [?|?]; [assumption | discriminate] | tauto].
  - split; [tauto | intros ?; split; [assumption | discriminate]].
Qed.

Lemma replay_app l1 l2 r : replay (l1 ++ l2) r = replay l2 (replay l1 r).
Proof. apply fold_left_app. Qed.

Lemma highlightFrom_app key d l1 l2 :
  highlightFrom key d (l1 ++ l2) = highlightFrom key (highlightFrom key d l1) l2.
Proof. apply fold_left_app. Qed.

Lemma enabledFrom_app d l1 l2 :
  enabledFrom d (l1 ++ l2) = enabledFrom (enabledFrom d l1) l2.
Proof. apply fold_left_app. Qed.

Lemma apply_length key r e :
  length (buttonsOf key (apply r e)) = length (buttonsOf key r).
Proof.
  destruct e; try reflexivity; cbn [apply].
  - unfold setActiveButton. destruct (known_dec key0) as [K|K].
    + rewrite buttonsOf_withButtons by exact K.
      destruct (String.eqb key key0) eqn:E; [|reflexivity].
      apply String.eqb_eq in E. subst. apply length_imap.
    + now rewrite withButtons_unknown.
  - unfold updateAnimationButtonState.
    rewrite buttonsOf_withButtons by now left.
    destruct (String.eqb key "animation") eqn:E; [|reflexivity].
    apply String.eqb_eq in E. subst. apply length_fmap.
Qed.

(** No effect adds or removes a button. *)
Lemma replay_length key trace :
  forall r, length (buttonsOf key (replay trace r)) = length (buttonsOf key r).
Proof.
  induction trace as [|e l IH]; intros r; [reflexivity|].
  cbn [replay fold_left]. unfold replay in IH. rewrite IH. apply apply_length.
Qed.

(** The button that is marked after a trace is the one of the last
    [setActiveButton] of the row. *)
Lemma replay_activeAt key trace :
  known key ->
  forall r d,
    activeAt d (buttonsOf key r) ->
    activeAt (highlightFrom key d trace) (buttonsOf key (replay trace r)).
Proof.
  intros K. induction trace as [|e l IH]; intros r d H; [exact H|].
  cbn [replay fold_left highlightFrom]. apply IH.
  destruct e; try exact H; cbn [apply].
  - unfold setActiveButton. destruct (known_dec key0) as [K0|K0].
    + rewrite buttonsOf_withButtons by exact K0.
      rewrite (String.eqb_sym key0 key).
      destruct (String.eqb key key0) eqn:E; [|exact H].
      apply String.eqb_eq in E. subst. apply activeAt_activate.
    + rewrite withButtons_unknown by exact K0.
      destruct (String.eqb key0 key) eqn:E; [|exact H].
      apply String.eqb_eq in E. now subst.
  - unfold updateAnimationButtonState.
    rewrite buttonsOf_withButtons by now left.
    destruct (String.eqb key "animation") eqn:E; [|exact H].
    apply String.eqb_eq in E. subst. now apply activeAt_enable.
Qed.

Lemma enabledAs_normal state bs :
  enabledAs state bs ->
  enabledAs (fst state, if fst state then "" else snd state) bs.
Proof.
  intros H k b E. destruct (H k b E) as (A & B & C). cbn.
  repeat split; try assumption. rewrite C. now destruct (fst state).
Qed.

(** The animation buttons after a trace are as the last
    [updateAnimationButtonState] has set them. *)
Lemma replay_enabledAs trace :
  forall r d,
    enabledAs d (animationButtons r) ->
    enabledAs (fst (enabledFrom d trace),
               if fst (enabledFrom d trace) then ""
               else snd (enabledFrom d trace))
      (animationButtons (replay trace r)).
Proof.
  induction trace as [|e l IH]; intros r d H; [now apply enabledAs_normal|].
  cbn [replay fold_left enabledFrom]. apply IH.
  destruct e; try exact H; cbn [apply].
  - unfold setActiveButton. destruct (known_dec key) as [K0|K0].
    + change (animationButtons ?x) with (buttonsOf "animation" x).
      rewrite buttonsOf_withButtons by exact K0.
      destruct (String.eqb "animation" key) eqn:E; [|exact H].
      apply String.eqb_eq in E. subst. now apply enabledAs_activate.
    + now rewrite withButtons_unknown.
  - apply enabledAs_enable.
Qed.

End DomFacts.

(* ===================================================================== *)
(** * What the events keep of a session *)
(* ===================================================================== *)

Section ValidFacts.
Import Js AudioCache Session Page.

(** [valid] reads the suspended calls, the sound and the animation
    variables only. *)
Lemma valid_same s s' :
  tasks s' = tasks s -> sound s' = sound s -> animation s' = animation s ->
  valid s -> valid s'.
Proof. unfold valid. intros -> -> ->. exact id. Qed.

Lemma valid_emit e s : valid s -> valid (emit e s).
Proof. now apply valid_same. Qed.

(** Resuming or dropping calls keeps a session valid. *)
Lemma valid_fewer ts s :
  (forall t, t ∈ ts -> t ∈ tasks s) -> valid s -> valid (withTasks ts s).
Proof.
  intros Sub (T & A & B & a & Ea & Ok & Bound).
  split; [|split; [exact A|split; [exact B|]]].
  - apply List.Forall_forall. intros t In. rewrite List.Forall_forall in T.
    apply T. apply list_elem_of_In, Sub, list_elem_of_In, In.
  - exists a. split; [exact Ea|]. split; [exact Ok|].
    intros [P|(i & r & o & In)]; apply Bound; [now left|].
    right. exists i, r, o. now apply Sub.
Qed.

Lemma optionAt_elem {A} (l : list A) i o : optionAt l i = Some o -> o ∈ l.
Proof.
  unfold optionAt. destruct (0 <=? i); [|discriminate].
  apply list_elem_of_lookup_2.
Qed.

(** Binding a buffer keeps a session valid. *)
Lemma valid_afterBuffer i r o b s :
  optionAt audioOptions i = Some o -> valid s -> valid (afterBuffer i r o b s).
Proof.
  intros O V. unfold afterBuffer. destruct (negb _); [exact V|].
  destruct V as (T & A & B & a & Ea & Ok & Bound). rewrite Ea.
  split; [|split; [exact A|split; [exact B|]]].
  - cbn. apply List.Forall_app. split; [exact T|]. now repeat constructor.
  - eexists. split; [reflexivity|]. cbn. split; [split|].
    + destruct (isPlaying a) eqn:P; cbn; [discriminate|].
      rewrite P. discriminate.
    + intros _. split; [reflexivity|]. exists o. split; [|reflexivity].
      eapply optionAt_elem, O.
    + intros _. eauto.
Qed.

Lemma valid_resumeAll result waiting :
  forall s, List.Forall taskOk waiting -> valid s ->
            valid (fold_left (resumeWithBuffer result) waiting s).
Proof.
  induction waiting as [|t ts IH]; intros s H V; [exact V|].
  apply Forall_cons in H as [Ht Hts]. cbn [fold_left]. apply IH; [exact Hts|].
  destruct t, result; cbn [resumeWithBuffer]; try exact V.
  now apply valid_afterBuffer.
Qed.

Lemma valid_commit i s :
  is_Some (optionAt animationOptions i) -> valid s ->
  valid (setCurrentAnimationIndex i s).
Proof.
  intros O (T & A & B & R). split; [exact T|]. split; [exact A|].
  split; [exact O | exact R].
Qed.

Lemma valid_switchAnimation index s :
  valid s -> valid (snd (switchAnimation index s)).
Proof.
  intros V. unfold switchAnimation.
  assert (valid (emit (SetActiveButton "animation" index)
                   (setDesiredAnimationIndex index s))) as V1.
  { destruct V as (T & A & B & R). now repeat split. }
  revert V1. generalize (emit (SetActiveButton "animation" index)
                           (setDesiredAnimationIndex index s)).
  intros s1 V1.
  destruct (negb (supportsFBX _)); [exact V1|].
  destruct (gvrmInstance (avatars s1)) as [inst|]; [|exact V1].
  destruct (negb (isReady inst)); [exact V1|].
  assert (valid (setAnimationRequestId (animationRequestId (animation s1) + 1)
                   s1)) as V2.
  { destruct V1 as (T & A & B & R). now repeat split. }
  destruct (optionAt animationOptions index) as [o|] eqn:O; [|exact V2].
  destruct (class inst); cbn [snd].
  - destruct V2 as (T & A & B & a & Ea & Ok & Bound).
    split; [|split; [exact A|split; [exact B|]]].
    + cbn. apply List.Forall_app. split; [exact T|]. now repeat constructor.
    + exists a. split; [exact Ea|]. split; [exact Ok|].
      intros [P|(i & r & o' & In)]; apply Bound; [now left|]. right.
      cbn in In. apply elem_of_app in In as [In|In]; [eauto|].
      apply list_elem_of_singleton in In. discriminate.
  - unfold afterChangeFBX. cbn. rewrite Z.eqb_refl.
    apply (valid_commit index); [rewrite O; eauto|].
    now apply valid_emit.
Qed.

Lemma valid_switchAudio index s :
  valid s -> valid (snd (switchAudio index s)).
Proof.
  intros V. unfold switchAudio.
  assert (valid (setAudioRequestId (audioRequestId (sound
                   (emit (SetActiveButton "audio" index)
                      (setDesiredAudioIndex index s))) + 1)
                   (emit (SetActiveButton "audio" index)
                      (setDesiredAudioIndex index s)))) as V1.
  { destruct V as (T & A & B & R). now repeat split. }
  revert V1. generalize (setAudioRequestId (audioRequestId (sound
                   (emit (SetActiveButton "audio" index)
                      (setDesiredAudioIndex index s))) + 1)
                   (emit (SetActiveButton "audio" index)
                      (setDesiredAudioIndex index s))).
  generalize (audioRequestId (sound
                   (emit (SetActiveButton "audio" index)
                      (setDesiredAudioIndex index s))) + 1).
  intros rid s1 V1.
  destruct (optionAt audioOptions index) as [o|] eqn:O; [|exact V1].
  destruct (loadAudioBuffer (audioFile o) (cache s1)) as [p c].
  assert (valid (withCache c s1)) as V2 by now apply (valid_same s1).
  destruct (promises c !! p) as [[| b | e]|]; cbn [snd].
  2: now apply valid_afterBuffer.
  2: unfold audioFailed; now apply valid_emit.
  all: destruct V2 as (T & A & B & a & Ea & Ok & Bound);
    (split; [|split; [exact A|split; [exact B|]]]);
    [ cbn; apply List.Forall_app; split; [exact T|]; now repeat constructor
    | exists a; split; [exact Ea|]; split; [exact Ok|];
      intros [P|(i & r & o' & In)]; apply Bound; [now left|]; right;
      cbn in In; apply elem_of_app in In as [In|In]; [eauto|];
      apply list_elem_of_singleton in In; discriminate ].
Qed.

Lemma valid_detached r : valid (snd r) -> valid (detached r).
Proof. destruct r as [[e|] s]; cbn; [apply valid_emit | exact id]. Qed.

Lemma valid_tasks s t : valid s -> t ∈ tasks s -> taskOk t.
Proof.
  intros (T & _) In. rewrite List.Forall_forall in T.
  now apply T, list_elem_of_In.
Qed.

(** Every event keeps a session valid. *)
Lemma valid_step s ev : valid s -> valid (step s ev).
Proof.
  intros V. destruct ev as [i|i|r f|p result|r f]; cbn [step].
  - now apply valid_detached, valid_switchAnimation.
  - now apply valid_detached, valid_switchAudio.
  - destruct (takeTask _ _) as [[t others]|] eqn:E; [|exact V].
    destruct (takeTask_Some _ _ _ _ E) as [Ft M].
    destruct t as [i r' o| |]; try exact V.
    assert (valid (withTasks others s)) as V1.
    { apply valid_fewer; [|exact V]. intros t In. apply M. now right. }
    destruct f as [e|]; [unfold animationFailed; now apply valid_emit|].
    unfold afterChangeFBX. destruct (_ =? _); [|exact V1].
    apply (valid_commit i); [|exact V1].
    assert (taskOk (AwaitChangeFBX i r' o)) as Ok.
    { apply (valid_tasks s); [exact V|]. apply M. now left. }
    cbn in Ok. rewrite Ok. eauto.
  - destruct (match result with inl _ => _ | inr _ => _ end) as [c|];
      [|exact V].
    apply valid_resumeAll.
    + apply List.Forall_forall. intros t [In _]%List.filter_In.
      apply (valid_tasks s); [exact V|]. now apply list_elem_of_In.
    + apply (valid_same (withTasks
               (List.filter (fun t => negb (awaitsBuffer p t)) (tasks s)) s));
        try reflexivity.
      apply valid_fewer; [|exact V].
      intros t In%list_elem_of_In%List.filter_In.
      now apply list_elem_of_In.
  - destruct (takeTask _ _) as [[t others]|] eqn:E; [|exact V].
    destruct (takeTask_Some _ _ _ _ E) as [Ft M].
    destruct t as [| |i r' o]; try exact V.
    assert (valid (withTasks others s)) as V1.
    { apply valid_fewer; [|exact V]. intros t In. apply M. now right. }
    destruct f as [e|]; [unfold audioFailed; now apply valid_emit|].
    assert (taskOk (AwaitResume i r' o)) as Ok.
    { apply (valid_tasks s); [exact V|]. apply M. now left. }
    destruct V as (_ & _ & _ & a & Ea & _ & Bound).
    assert (is_Some (buffer a)) as Bd.
    { apply Bound. right. exists i, r', o. apply M. now left. }
    destruct V1 as (T & A & B & a' & Ea' & [Ok1 Ok2] & Bound').
    cbn in Ea'. rewrite Ea in Ea'. injection Ea' as [= <-].
    unfold afterResume. cbn [withTasks sound audio]. rewrite Ea.
    unfold commitAudio.
    split; [|split; [|split]].
    + now destruct (isPlaying a).
    + cbn. cbn in Ok. rewrite Ok. eauto.
    + now destruct (isPlaying a).
    + exists (play a). split; [reflexivity|]. unfold play.
      destruct (isPlaying a) eqn:P.
      * split; [split; [intros _; now apply Ok1 | exact Ok2]|].
        intros _. exact Bd.
      * cbn. split; [split|]; [reflexivity | exact Ok2 | intros _; exact Bd].
Qed.

(** The [pointerdown] listener keeps a session valid. *)
Lemma valid_unlocked f s : valid s -> valid (unlocked f s).
Proof.
  intros V. unfold unlocked. destruct f as [e|]; [now apply valid_emit|].
  destruct (audio (sound s)) as [a|] eqn:Ea; [|exact V].
  destruct (negb (isPlaying a)) eqn:P; [|exact V]. cbn [andb].
  destruct (bool_decide _) eqn:Bd; [|exact V].
  apply bool_decide_eq_true in Bd. apply negb_true_iff in P.
  destruct V as (T & A & B & a' & Ea' & [Ok1 Ok2] & Bound).
  rewrite Ea in Ea'. injection Ea' as [= <-].
  split; [exact T|]. split; [exact A|]. split; [exact B|].
  exists (play a). split; [reflexivity|]. unfold play. rewrite P. cbn.
  split; [split|]; [reflexivity | exact Ok2 | intros _; exact Bd].
Qed.

(** The avatar part of [init] keeps a session valid. *)
Lemma valid_initAvatarFrom env cands s :
  valid s -> valid (initAvatarFrom env cands s).
Proof.
  intros V. unfold initAvatarFrom.
  destruct (loadGvrmAvatarFrom_switches env cands s) as (A & B & _ & D).
  destruct (loadGvrmAvatarFrom env cands s) as [[e|inst] s1];
    cbn [snd] in A, B, D.
  - now apply (valid_same s).
  - assert (valid (setGvrmInstance inst s1)) as V1 by now apply (valid_same s).
    pose proof (valid_switchAnimation
                  (desiredAnimationIndex (animation s1)) _ V1) as V2.
    change (animation (setGvrmInstance inst s1)) with (animation s1).
    destruct (switchAnimation _ (setGvrmInstance inst s1)) as [[e|] s2];
      cbn [snd] in V2; [|exact V2].
    now apply (valid_same s2).
Qed.

Lemma valid_initial : valid initial.
Proof.
  split; [constructor|]. split; [cbn; eauto|]. split; [cbn; eauto|].
  exists newAudio. split; [reflexivity|]. split; [split|].
  - discriminate.
  - intros [? [=]].
  - intros [[=]|(i & r & o & In)]. now apply elem_of_nil in In.
Qed.

End ValidFacts.

(* ===================================================================== *)
(** * Steps of the page *)
(* ===================================================================== *)

Section PageFacts.
Import Js AudioCache Session Page.
Variable sin : float -> float.
Variable env : Env.

(** The page runs the avatar part of [init] as the session does. *)
Lemma acquired_session s : fst (acquired env s) = initAvatar env s.
Proof.
  unfold acquired, initAvatar, initAvatarFrom, loadGvrmAvatar.
  destruct (loadGvrmAvatarFrom env candidates s) as [[e|inst] s1];
    [reflexivity|].
  destruct (switchAnimation _ _) as [[e|] s2]; reflexivity.
Qed.

Lemma session_advance pg : session (advance pg) = session pg.
Proof.
  unfold advance. destruct (phase pg) as [r| |r|]; try reflexivity.
  - now destruct (audioCallPending r (session pg)).
  - now destruct (animationCallPending r (session pg)).
Qed.

Lemma stage_advance pg : stage (advance pg) = stage pg.
Proof.
  unfold advance. destruct (phase pg) as [r| |r|]; try reflexivity.
  - now destruct (audioCallPending r (session pg)).
  - now destruct (animationCallPending r (session pg)).
Qed.

Lemma session_handlePaletteSelect index pg :
  session (handlePaletteSelect index pg)
  = emit (SetActiveButton "palette" index) (session pg).
Proof.
  unfold handlePaletteSelect. cbn.
  now destruct (Render.applyPalette index (stage pg)).
Qed.

(** What a step of the page does to the session. *)
Lemma pageStep_session (Q : Session -> Prop) pg input :
  (forall s ev, Q s -> Q (step s ev)) ->
  (forall s index, Q s -> Q (emit (SetActiveButton "palette" index) s)) ->
  (forall s, Q s -> Q (initAvatar env s)) ->
  (forall s f, Q s -> Q (unlocked f s)) ->
  Q (session pg) -> Q (session (pageStep sin env pg input)).
Proof.
  intros St Pal Acq Unl H.
  destruct input as [ev|key k|index| | |f|nx ny|reading]; cbn [pageStep].
  - unfold script. rewrite session_advance. now apply St.
  - unfold click. destruct (_ !! k) as [b|]; [|exact H].
    destruct (Dom.disabled b); [exact H|].
    destruct (String.eqb key "animation");
      [unfold script; rewrite session_advance; now apply St|].
    destruct (String.eqb key "audio");
      [unfold script; rewrite session_advance; now apply St|].
    rewrite session_handlePaletteSelect. now apply Pal.
  - rewrite session_handlePaletteSelect. now apply Pal.
  - destruct (phase pg); try exact H.
    pose proof (acquired_session (session pg)) as E.
    destruct (acquired env (session pg)) as [s ph]. cbn in E |- *.
    rewrite E. now apply Acq.
  - now destruct (unlock pg).
  - destruct (unlock pg); try exact H. cbn. now apply Unl.
  - exact H.
  - now destruct (phase pg).
Qed.

Lemma pageRun_snoc pg inputs input :
  pageRun sin env pg (inputs ++ [input])
  = pageStep sin env (pageRun sin env pg inputs) input.
Proof. unfold pageRun. now rewrite fold_left_app. Qed.

(** What holds at start-up and is kept by every step holds of every
    page that is reached. *)
Lemma pageRun_invariant (P : Page -> Prop) pg inputs :
  (forall pg input, P pg -> P (pageStep sin env pg input)) ->
  P pg -> P (pageRun sin env pg inputs).
Proof.
  intros St H. induction inputs as [|input inputs IH] using rev_ind;
    [exact H|].
  rewrite pageRun_snoc. now apply St.
Qed.

Lemma session_boot seed :
  session (boot seed) = snd (switchAudio 0 initial)
  /\ phase (boot seed) = AwaitingAudio 1.
Proof. split; reflexivity. Qed.

(** X13.  In every state the page can reach from start-up:
    [currentAudioIndex] and [currentAnimationIndex] name options, also
    after requests for indices that name none; every suspended call
    holds the option of its index; the audio source is there, a source
    that plays has started on the buffer that is bound, and a bound
    buffer loops at the volume of one of the tracks. *)
Theorem reachable_valid (seed : float) (inputs : list Input) :
  valid (session (pageRun sin env (boot seed) inputs)).
Proof.
  apply (pageRun_invariant (fun pg => valid (session pg))).
  - intros pg input V. apply pageStep_session; try exact V.
    + intros s ev. apply valid_step.
    + intros s index. apply valid_emit.
    + intros s. apply valid_initAvatarFrom.
    + intros s f. apply valid_unlocked.
  - rewrite (proj1 (session_boot seed)).
    apply valid_switchAudio, valid_initial.
Qed.

End PageFacts.

(* ===================================================================== *)
(** * What the switches append to the trace *)
(* ===================================================================== *)

Section TraceFacts.
Import Js AudioCache Session Trace.

(** [appends] is a preorder, and holds of [emit]. *)
Lemma appends_refl ok s : appends ok s s.
Proof. exists []. split; [now rewrite app_nil_r | reflexivity]. Qed.

Lemma appends_trans ok s1 s2 s3 :
  appends ok s1 s2 -> appends ok s2 s3 -> appends ok s1 s3.
Proof.
  intros (l1 & E1 & F1) (l2 & E2 & F2). exists (l1 ++ l2). split.
  - now rewrite E2, E1, app_assoc.
  - rewrite forallb_app, F1, F2. reflexivity.
Qed.

Lemma appends_emit (ok : Effect -> bool) e s :
  ok e = true -> appends ok s (emit e s).
Proof. intros H. exists [e]. split; [reflexivity|]. cbn. now rewrite H. Qed.

Lemma appends_out ok s s' : out s' = out s -> appends ok s s'.
Proof. intros E. exists []. split; [now rewrite app_nil_r | reflexivity]. Qed.

Lemma appends_weaken (ok ok' : Effect -> bool) s s' :
  (forall e, ok e = true -> ok' e = true) ->
  appends ok s s' -> appends ok' s s'.
Proof.
  intros W (l & E & F). exists l. split; [exact E|].
  rewrite forallb_forall in *. intros e In. apply W, F, In.
Qed.

(** Effects that leave the buttons alone change neither the marked
    button nor the state of the animation buttons. *)
Lemma highlightFrom_free key l :
  forallb buttonFree l = true -> forall d, highlightFrom key d l = d.
Proof.
  induction l as [|e l IH]; intros F d; [reflexivity|].
  cbn in F. apply andb_true_iff in F as [Fe Fl].
  unfold highlightFrom in *. cbn [fold_left].
  destruct e; try discriminate Fe; apply IH, Fl.
Qed.

Lemma enabledFrom_free l :
  forallb buttonFree l = true -> forall d, enabledFrom d l = d.
Proof.
  induction l as [|e l IH]; intros F d; [reflexivity|].
  cbn in F. apply andb_true_iff in F as [Fe Fl].
  unfold enabledFrom in *. cbn [fold_left].
  destruct e; try discriminate Fe; apply IH, Fl.
Qed.

Lemma appends_highlight s s' key d :
  appends buttonFree s s' ->
  highlightFrom key d (out s') = highlightFrom key d (out s).
Proof.
  intros (l & -> & F). unfold highlightFrom at 1. rewrite fold_left_app.
  now apply highlightFrom_free.
Qed.

Lemma appends_enabled s s' d :
  appends buttonFree s s' ->
  enabledFrom d (out s') = enabledFrom d (out s).
Proof.
  intros (l & -> & F). unfold enabledFrom at 1. rewrite fold_left_app.
  now apply enabledFrom_free.
Qed.

(** ** The switches *)

Section Switches.
Variable ok : Effect -> bool.
Hypothesis ok_warn : forall m sub r, ok (ConsoleWarn m sub r) = true.

Lemma appends_afterBuffer i r o b s : appends ok s (afterBuffer i r o b s).
Proof.
  apply appends_out. unfold afterBuffer. destruct (negb _); [reflexivity|].
  now destruct (audio (sound s)).
Qed.

Lemma appends_audioFailed o e s : appends ok s (audioFailed o e s).
Proof. apply appends_emit, ok_warn. Qed.

Lemma appends_afterResume i o s : appends ok s (afterResume i o s).
Proof.
  unfold afterResume. destruct (audio (sound s)) as [a|];
    [|apply appends_audioFailed].
  unfold commitAudio. destruct (isPlaying a).
  - eapply appends_trans; [apply appends_emit, ok_warn|].
    now apply appends_out.
  - now apply appends_out.
Qed.

Lemma appends_resumeAll result waiting :
  forall s, appends ok s (fold_left (resumeWithBuffer result) waiting s).
Proof.
  induction waiting as [|t ts IH]; intros s; [apply appends_refl|].
  cbn [fold_left]. eapply appends_trans; [|apply IH].
  destruct t, result; cbn [resumeWithBuffer]; try apply appends_refl.
  - apply appends_audioFailed.
  - apply appends_afterBuffer.
Qed.

Lemma appends_afterChangeFBX i r s : appends ok s (afterChangeFBX i r s).
Proof.
  apply appends_out. unfold afterChangeFBX. now destruct (_ =? _).
Qed.

(** A settlement appends console lines only. *)
Lemma appends_settled s ev :
  match ev with SelectAnimation _ | SelectAudio _ => False | _ => True end ->
  appends ok s (step s ev).
Proof.
  destruct ev as [i|i|r f|p result|r f]; intros H; try contradiction;
    cbn [step].
  - destruct (takeTask _ _) as [[[] others]|]; try apply appends_refl.
    destruct f.
    + eapply appends_trans; [|apply appends_emit, ok_warn].
      now apply appends_out.
    + eapply appends_trans; [|apply appends_afterChangeFBX].
      now apply appends_out.
  - destruct (match result with inl _ => _ | inr _ => _ end);
      [|apply appends_refl].
    eapply appends_trans; [|apply appends_resumeAll]. now apply appends_out.
  - destruct (takeTask _ _) as [[[] others]|]; try apply appends_refl.
    destruct f.
    + eapply appends_trans; [|apply appends_audioFailed].
      now apply appends_out.
    + eapply appends_trans; [|apply appends_afterResume].
      now apply appends_out.
Qed.

Hypothesis ok_rejection : forall r, ok (UnhandledRejection r) = true.

(** A request marks its button, and appends nothing else that is not
    [ok]. *)
Lemma appends_switchAudio index s :
  appends ok (emit (SetActiveButton "audio" index) s)
    (detached (switchAudio index s)).
Proof.
  unfold switchAudio.
  destruct (optionAt audioOptions index) as [o|];
    [|cbn [detached]; eapply appends_trans;
      [|apply appends_emit, ok_rejection]; now apply appends_out].
  destruct (loadAudioBuffer _ _) as [p c].
  destruct (promises c !! p) as [[]|]; cbn [detached];
    try now apply appends_out.
  - eapply appends_trans; [|apply appends_afterBuffer]. now apply appends_out.
  - eapply appends_trans; [|apply appends_audioFailed]. now apply appends_out.
Qed.

Lemma appends_switchAnimation index s :
  appends ok (emit (SetActiveButton "animation" index) s)
    (snd (switchAnimation index s))
  /\ appends ok (emit (SetActiveButton "animation" index) s)
       (detached (switchAnimation index s)).
Proof.
  unfold switchAnimation.
  destruct (negb (supportsFBX _)); [split; now apply appends_out|].
  destruct (gvrmInstance _) as [inst|]; [|split; now apply appends_out].
  destruct (negb (isReady inst)); [split; now apply appends_out|].
  destruct (optionAt animationOptions index) as [o|].
  2:{ split; [now apply appends_out|]. cbn [detached].
      eapply appends_trans; [|apply appends_emit, ok_rejection].
      now apply appends_out. }
  destruct (class inst); cbn [snd detached];
    [split; now apply appends_out|].
  assert (appends ok (emit (SetActiveButton "animation" index) s)
            (afterChangeFBX index
               (animationRequestId
                  (animation (emit (SetActiveButton "animation" index)
                     (setDesiredAnimationIndex index s))) + 1)
               (emit (ConsoleWarn
                  "FBX animation playback is not available in fallback VRM mode."
                  None None)
                  (setAnimationRequestId
                     (animationRequestId
                        (animation (emit (SetActiveButton "animation" index)
                           (setDesiredAnimationIndex index s))) + 1)
                     (emit (SetActiveButton "animation" index)
                        (setDesiredAnimationIndex index s)))))) as A.
  { eapply appends_trans; [|apply appends_afterChangeFBX].
    eapply appends_trans; [|apply appends_emit, ok_warn].
    now apply appends_out. }
  split; exact A.
Qed.

End Switches.

End TraceFacts.

(* ===================================================================== *)
(** * Properties of the avatar acquisition over all candidates *)
(* ===================================================================== *)

Section AcquisitionMore.
Import Js AudioCache Session Trace.

(** The loop of [loadGvrmAvatar] stands in a relation to its start that
    every step of the loop respects. *)
Lemma candidateLoop_rel (R : Session -> Session -> Prop) env G :
  (forall s, R s s) ->
  (forall a b c, R a b -> R b c -> R a c) ->
  (forall m sub r s, R s (emit (ConsoleWarn m sub r) s)) ->
  (forall a b s, R s (emit (ConsoleInfo a b) s)) ->
  (forall c s, R s (snd (loadSimpleVRMFromGvrm env c s))) ->
  (forall caps m s,
     R s (updateMetaTag m
            (updateAnimationButtonState (setCapabilities caps s)))) ->
  forall cands lastError s,
    R s (snd (candidateLoop env G cands lastError s)).
Proof.
  intros Refl Trans Warn Info Simple Caps.
  induction cands as [|c cands IH]; intros lastError s; [apply Refl|].
  assert (forall s1, R s s1 ->
    R s (snd (match loadSimpleVRMFromGvrm env c s1 with
              | (inr fallback, s2) =>
                  (inr fallback,
                   emit (ConsoleInfo
                           "Loaded fallback VRM avatar without Gaussian splatting:"
                           c)
                     (updateMetaTag
                        "Simulacra Interface — Standard VRM Mode"
                        (updateAnimationButtonState
                           (setCapabilities
                              {| supportsFBX := false;
                                 mode := simple_vrm |} s2))))
              | (inl fallbackError, s2) =>
                  candidateLoop env G cands (Some fallbackError)
                    (emit (ConsoleWarn
                             "Fallback VRM load failed for candidate"
                             (Some c) (Some fallbackError)) s2)
              end))) as K.
  { intros s1 H. pose proof (Simple c s1) as S.
    destruct (loadSimpleVRMFromGvrm env c s1) as [[e|w] s2]; cbn [snd] in *.
    - eapply Trans; [|apply IH]. eapply Trans; [|apply Warn].
      eapply Trans; eassumption.
    - eapply Trans; [|apply Info]. eapply Trans; [|apply Caps].
      eapply Trans; eassumption. }
  cbn [candidateLoop]. destruct G.
  - destruct (gvrmLoad env c) as [e|ready]; [|apply Caps].
    apply K. apply Warn.
  - apply K. apply Refl.
Qed.

Lemma liveFrom_app live l1 l2 :
  liveFrom live (l1 ++ l2) = liveFrom (liveFrom live l1) l2.
Proof. apply fold_left_app. Qed.

Lemma revokes_refl s : revokes s s.
Proof. exists []. split; [now rewrite app_nil_r | reflexivity]. Qed.

Lemma revokes_trans s1 s2 s3 : revokes s1 s2 -> revokes s2 s3 -> revokes s1 s3.
Proof.
  intros (l1 & E1 & F1) (l2 & E2 & F2). exists (l1 ++ l2). split.
  - now rewrite E2, E1, app_assoc.
  - unfold liveURLs in *. now rewrite liveFrom_app, F1.
Qed.

Lemma revokes_emit e s :
  match e with CreateObjectURL _ => False | _ => True end ->
  revokes s (emit e s).
Proof.
  intros H. exists [e]. split; [reflexivity|]. now destruct e.
Qed.

Lemma revokes_out s s' : out s' = out s -> revokes s s'.
Proof. intros E. exists []. split; [now rewrite app_nil_r | reflexivity]. Qed.

(** The trace of the fallback path. *)
Lemma loadSimpleVRMFromGvrm_trace env url s :
  let r := loadSimpleVRMFromGvrm env url s in
  let u := freshObjectURL s in
  exists l,
    out (snd r) = out s ++ l
    /\ ((l = [] /\ isFailure (fst r) = true)
        \/ (l = [CreateObjectURL u; RevokeObjectURL u]
            /\ isFailure (fst r) = true)
        \/ (l = [CreateObjectURL u; SceneAdd (newSimpleVRMWrapper url);
                 RevokeObjectURL u]
            /\ fst r = inr (newSimpleVRMWrapper url))).
Proof.
  unfold loadSimpleVRMFromGvrm.
  assert (forall (e : JsError),
            exists l, out s = out s ++ l
                      /\ ((l = [] /\ isFailure (inl e : JsError + Avatar) = true)
                          \/ (l = [CreateObjectURL (freshObjectURL s);
                                   RevokeObjectURL (freshObjectURL s)]
                              /\ isFailure (inl e : JsError + Avatar) = true)
                          \/ (l = [CreateObjectURL (freshObjectURL s);
                                   SceneAdd (newSimpleVRMWrapper url);
                                   RevokeObjectURL (freshObjectURL s)]
                              /\ (inl e : JsError + Avatar)
                                 = inr (newSimpleVRMWrapper url)))) as Fail.
  { intros e. exists []. split; [now rewrite app_nil_r|]. now left. }
  destruct (fetch env url) as [e|response]; [apply Fail|].
  destruct (negb (ok response)); [apply Fail|].
  destruct (arrayBuffer response) as [e|bytes]; [apply Fail|].
  destruct (zipLoadAsync env bytes) as [e|zip]; [apply Fail|].
  destruct (zip "model.vrm") as [[e|vrmBuffer]|]; [apply Fail| |apply Fail].
  destruct (gltfLoadAsync env vrmBuffer) as [e|[vrm|]]; cbn.
  - eexists. split; [rewrite <- app_assoc; reflexivity|]. right. now left.
  - eexists. split; [rewrite <- !app_assoc; reflexivity|]. right. now right.
  - eexists. split; [rewrite <- app_assoc; reflexivity|]. right. now left.
Qed.

Lemma liveURLs_pair u : liveURLs [CreateObjectURL u; RevokeObjectURL u] = [].
Proof. cbn. now rewrite Nat.eqb_refl. Qed.

Lemma liveURLs_triple u a :
  liveURLs [CreateObjectURL u; SceneAdd a; RevokeObjectURL u] = [].
Proof. cbn. now rewrite Nat.eqb_refl. Qed.

(** The fallback path revokes what it creates. *)
Lemma revokes_loadSimple env url s :
  revokes s (snd (loadSimpleVRMFromGvrm env url s)).
Proof.
  destruct (loadSimpleVRMFromGvrm_trace env url s)
    as (l & E & [[-> _] | [[-> _] | [-> _]]]);
    (eexists; split; [exact E|]);
    [reflexivity | apply liveURLs_pair | apply liveURLs_triple].
Qed.

Lemma appends_loadSimple (ok : Effect -> bool) env url s :
  (forall u, ok (CreateObjectURL u) = true) ->
  (forall u, ok (RevokeObjectURL u) = true) ->
  (forall a, ok (SceneAdd a) = true) ->
  appends ok s (snd (loadSimpleVRMFromGvrm env url s)).
Proof.
  intros C R A.
  destruct (loadSimpleVRMFromGvrm_trace env url s)
    as (l & E & [[-> _] | [[-> _] | [-> _]]]);
    (eexists; split; [exact E|]); cbn; now rewrite ?C, ?R, ?A.
Qed.

(** The import appends at most a console line. *)
Lemma out_ensureGvrmModule env s :
  exists l, out (snd (ensureGvrmModule env s)) = out s ++ l
            /\ forallb isConsole l = true.
Proof.
  unfold ensureGvrmModule.
  destruct (gvrmModulePromise (avatars s));
    [exists []; split; [now rewrite app_nil_r | reflexivity]|].
  destruct (importGvrm env); cbn.
  - eexists. split; reflexivity.
  - exists []. split; [now rewrite app_nil_r | reflexivity].
Qed.

Lemma revokes_console s s' :
  (exists l, out s' = out s ++ l /\ forallb isConsole l = true) ->
  revokes s s'.
Proof.
  intros (l & E & F). exists l. split; [exact E|].
  clear E. unfold liveURLs. generalize (@nil nat).
  induction l as [|e l IH]; intros live; [reflexivity|].
  cbn in F. apply andb_true_iff in F as [Fe Fl].
  unfold liveFrom in *. cbn [fold_left].
  destruct e; try discriminate Fe; apply IH, Fl.
Qed.

Lemma revokes_createFree s s' : appends createFree s s' -> revokes s s'.
Proof.
  intros (l & E & F). exists l. split; [exact E|].
  clear E. unfold liveURLs.
  induction l as [|e l IH]; [reflexivity|].
  cbn in F. apply andb_true_iff in F as [Fe Fl].
  unfold liveFrom in *. cbn [fold_left].
  destruct e; try discriminate Fe; apply IH, Fl.
Qed.

Lemma revokes_candidateLoop env G cands lastError s :
  revokes s (snd (candidateLoop env G cands lastError s)).
Proof.
  apply candidateLoop_rel.
  - apply revokes_refl.
  - apply revokes_trans.
  - intros. now apply revokes_emit.
  - intros. now apply revokes_emit.
  - intros. apply revokes_loadSimple.
  - intros caps m s0. apply revokes_createFree.
    exists [AssignCapabilities caps;
            UpdateAnimationButtonState (supportsFBX caps)
              (if supportsFBX caps then ""
               else match mode caps with
                    | loading =>
                        "Avatar is loading – animations will unlock when ready."
                    | simple_vrm =>
                        "Fallback avatar loaded – animations are temporarily disabled."
                    | error =>
                        "Avatar failed to load animation data. Please reload to try again."
                    | gvrm => ""
                    end);
            UpdateMetaTag m].
    split; [|reflexivity]. cbn. now rewrite <- !app_assoc.
Qed.

Lemma revokes_loadGvrmAvatarFrom env cands s :
  revokes s (snd (loadGvrmAvatarFrom env cands s)).
Proof.
  unfold loadGvrmAvatarFrom.
  pose proof (out_ensureGvrmModule env s) as H.
  destruct (ensureGvrmModule env s) as [G s0]. cbn [snd] in H.
  eapply revokes_trans; [|apply revokes_candidateLoop].
  now apply revokes_console.
Qed.

Lemma createFree_avatarUnavailable e s :
  appends createFree s (avatarUnavailable e s).
Proof.
  eexists. split; [cbn; rewrite <- !app_assoc; reflexivity | reflexivity].
Qed.

Lemma revokes_initAvatarFrom env cands s :
  revokes s (initAvatarFrom env cands s).
Proof.
  unfold initAvatarFrom.
  pose proof (revokes_loadGvrmAvatarFrom env cands s) as H.
  destruct (loadGvrmAvatarFrom env cands s) as [[e|inst] s1]; cbn [snd] in H.
  - eapply revokes_trans; [exact H|].
    apply revokes_createFree, createFree_avatarUnavailable.
  - eapply revokes_trans; [exact H|].
    destruct (appends_switchAnimation createFree
                (fun _ _ _ => eq_refl) (fun _ => eq_refl)
                (desiredAnimationIndex (animation s1))
                (setGvrmInstance inst s1)) as [A _].
    assert (appends createFree s1
              (snd (switchAnimation (desiredAnimationIndex (animation s1))
                      (setGvrmInstance inst s1)))) as B.
    { eapply appends_trans; [|exact A].
      eapply appends_trans; [|now apply appends_emit].
      now apply appends_out. }
    destruct (switchAnimation _ _) as [[e|] s2]; cbn [snd] in B.
    + apply revokes_createFree. eapply appends_trans; [exact B|].
      apply createFree_avatarUnavailable.
    + now apply revokes_createFree.
Qed.

(** X15.  The fallback path leaves no object URL behind: whether
    [loadSimpleVRMFromGvrm] returns or throws, every URL it has created
    is revoked, and it adds its wrapper to the scene exactly when it
    returns; the same holds of [loadGvrmAvatar] over all candidates and
    of the avatar part of [init]. *)
Theorem object_urls_revoked
    (env : Env) (url : string) (cands : list string) (s : Session) :
  (let r := loadSimpleVRMFromGvrm env url s in
   exists l, out (snd r) = out s ++ l
             /\ liveURLs l = []
             /\ sceneAdds l = match fst r with
                              | inr w => [w]
                              | inl _ => []
                              end)
  /\ (exists l, out (snd (loadGvrmAvatarFrom env cands s)) = out s ++ l
                /\ liveURLs l = [])
  /\ (exists l, out (initAvatarFrom env cands s) = out s ++ l
                /\ liveURLs l = []).
Proof.
  split; [|split].
  - destruct (loadSimpleVRMFromGvrm_trace env url s)
      as (l & E & [[-> F] | [[-> F] | [-> F]]]);
      (eexists; split; [exact E|]); cbn zeta.
    + destruct (fst _); [now split | discriminate].
    + split; [apply liveURLs_pair|].
      destruct (fst _); [reflexivity | discriminate].
    + split; [apply liveURLs_triple|]. now rewrite F.
  - apply revokes_loadGvrmAvatarFrom.
  - apply revokes_initAvatarFrom.
Qed.

(** The loop returns the avatar of the first candidate that does not
    fail everywhere. *)
Lemma candidateLoop_first env G cands :
  forall lastError s a,
    fst (candidateLoop env G cands lastError s) = inr a ->
    let s' := snd (candidateLoop env G cands lastError s) in
    let caps := {| supportsFBX := avatarSupportsFBX a;
                   mode := avatarMode a |} in
    exists pre post,
      cands = pre ++ asset a :: post
      /\ forallb (failsEverywhere env G) pre = true
      /\ failsEverywhere env G (asset a) = false
      /\ (if G && negb (isFailure (gvrmLoad env (asset a)))
          then class a = GVRM /\ gvrmLoad env (asset a) = inr (isReady a)
               /\ avatarSupportsFBX a = true /\ avatarMode a = gvrm
          else a = newSimpleVRMWrapper (asset a))
      /\ avatarCapabilities (avatars s') = caps
      /\ capabilityWrites (out s') = capabilityWrites (out s) ++ [caps].
Proof.
  induction cands as [|c cands IH]; intros lastError s a H; [discriminate|].
  destruct (failsEverywhere env G c) eqn:F.
  - destruct (candidateLoop_skip env G c cands lastError s F)
      as (e2 & s1 & _ & E & Q).
    rewrite E in H |- *.
    destruct (IH _ _ _ H) as (pre & post & C & P & N & K & A & W).
    exists (c :: pre), post. cbn zeta in *.
    split; [now rewrite C|]. split; [cbn; now rewrite F|].
    split; [exact N|]. split; [exact K|]. split; [exact A|].
    rewrite W. destruct Q as (_ & _ & _ & _ & _ & Q). now rewrite Q.
  - unfold failsEverywhere in F.
    destruct G; cbn [negb orb] in F.
    + destruct (gvrmLoad env c) as [e|ready] eqn:L; cbn [isFailure andb] in F.
      * destruct (fallbackOutcome env c) as [e'|w] eqn:O; [discriminate|].
        pose proof (candidateLoop_fallback env true c cands lastError s w)
          as K. rewrite L in K. specialize (K eq_refl O).
        cbn zeta in K. destruct K as (R & A & W & _).
        rewrite R in H. injection H as [= <-].
        pose proof (fallbackOutcome_wrapper env c w O) as ->.
        exists [], cands. cbn zeta. cbn [asset newSimpleVRMWrapper].
        split; [reflexivity|]. split; [reflexivity|].
        split; [unfold failsEverywhere; now rewrite L, O|].
        rewrite L. cbn. split; [reflexivity|]. now split.
      * clear F. cbn [candidateLoop] in H |- *. rewrite L in H |- *.
        cbn [fst] in H. injection H as [= <-].
        exists [], cands. cbn zeta. cbn [asset].
        split; [reflexivity|]. split; [reflexivity|].
        split; [unfold failsEverywhere; now rewrite L|].
        rewrite L. cbn. split; [now repeat split|]. split; [reflexivity|].
        rewrite !capabilityWrites_app. cbn. now rewrite !app_nil_r.
    + destruct (fallbackOutcome env c) as [e'|w] eqn:O; [discriminate|].
      pose proof (candidateLoop_fallback env false c cands lastError s w
                    eq_refl O) as K.
      cbn zeta in K. destruct K as (R & A & W & _).
      rewrite R in H. injection H as [= <-].
      pose proof (fallbackOutcome_wrapper env c w O) as ->.
      exists [], cands. cbn zeta. cbn [asset newSimpleVRMWrapper].
      split; [reflexivity|]. split; [reflexivity|].
      split; [unfold failsEverywhere; now rewrite O|].
      cbn. split; [reflexivity|]. now split.
Qed.

Lemma loadGvrmAvatarFrom_first
    (env : Env) (cands : list string) (s : Session) (a : Avatar) :
  fst (loadGvrmAvatarFrom env cands s) = inr a ->
  let GVRMClass := fst (ensureGvrmModule env s) in
  let s' := snd (loadGvrmAvatarFrom env cands s) in
  let caps := {| supportsFBX := avatarSupportsFBX a; mode := avatarMode a |} in
  exists pre post,
    cands = pre ++ asset a :: post
    /\ forallb (failsEverywhere env GVRMClass) pre = true
    /\ failsEverywhere env GVRMClass (asset a) = false
    /\ (if GVRMClass && negb (isFailure (gvrmLoad env (asset a)))
        then class a = GVRM /\ gvrmLoad env (asset a) = inr (isReady a)
             /\ avatarSupportsFBX a = true /\ avatarMode a = gvrm
        else a = newSimpleVRMWrapper (asset a))
    /\ avatarCapabilities (avatars s') = caps
    /\ capabilityWrites (out s') = capabilityWrites (out s) ++ [caps].
Proof.
  unfold loadGvrmAvatarFrom.
  destruct (ensureGvrmModule_steady env s) as (_ & _ & _ & _ & _ & _ & W0).
  destruct (ensureGvrmModule env s) as [G s0]. cbn [snd fst] in *.
  intros H.
  destruct (candidateLoop_first env G cands None s0 a H)
    as (pre & post & C & P & N & K & A & W).
  exists pre, post. cbn zeta in *. rewrite <- W0. now repeat split.
Qed.

(** X16.  [ensureGvrmModule] imports once: a second call gives what
    the first has given, whatever the import would do then, and changes
    nothing; a failed import is not tried again, so that any later
    acquisition could give the fallback avatar only. *)
Theorem import_attempted_once (env env' : Env) (s : Session) :
  let r := ensureGvrmModule env s in
  ensureGvrmModule env' (snd r) = (fst r, snd r)
  /\ gvrmModulePromise (avatars (snd r)) = Some (fst r)
  /\ (fst r = false ->
      forall cands a,
        fst (loadGvrmAvatarFrom env' cands (snd r)) = inr a ->
        a = newSimpleVRMWrapper (asset a)).
Proof.
  assert (let r := ensureGvrmModule env s in
          ensureGvrmModule env' (snd r) = (fst r, snd r)
          /\ gvrmModulePromise (avatars (snd r)) = Some (fst r)) as H.
  { unfold ensureGvrmModule.
    destruct (gvrmModulePromise (avatars s)) as [v|] eqn:E.
    - cbn. now rewrite E.
    - now destruct (importGvrm env). }
  cbn zeta in *. destruct H as [A B]. split; [exact A|]. split; [exact B|].
  intros F cands a L.
  destruct (loadGvrmAvatarFrom_first env' cands _ a L)
    as (pre & post & _ & _ & _ & K & _).
  rewrite A in K. cbn [fst] in K. rewrite F in K. exact K.
Qed.

(** X14.  When [loadGvrmAvatar] returns an avatar, it is the one of
    the first candidate, in the order of the list, that does not fail
    on every backend: every candidate before it has failed on both, the
    avatar is a GVRM instance exactly when the GVRM class is there and
    loads the candidate, and a [SimpleVRMWrapper] otherwise; the
    capabilities are written once, to the capabilities of the avatar. *)
Theorem acquisition_first_loadable
    (env : Env) (cands : list string) (s : Session) (a : Avatar) :
  fst (loadGvrmAvatarFrom env cands s) = inr a ->
  let GVRMClass := fst (ensureGvrmModule env s) in
  let s' := snd (loadGvrmAvatarFrom env cands s) in
  let caps := {| supportsFBX := avatarSupportsFBX a; mode := avatarMode a |} in
  exists pre post,
    cands = pre ++ asset a :: post
    /\ forallb (failsEverywhere env GVRMClass) pre = true
    /\ failsEverywhere env GVRMClass (asset a) = false
    /\ (if GVRMClass && negb (isFailure (gvrmLoad env (asset a)))
        then class a = GVRM /\ gvrmLoad env (asset a) = inr (isReady a)
             /\ avatarSupportsFBX a = true /\ avatarMode a = gvrm
        else a = newSimpleVRMWrapper (asset a))
    /\ avatarCapabilities (avatars s') = caps
    /\ capabilityWrites (out s') = capabilityWrites (out s) ++ [caps].
Proof. exact (loadGvrmAvatarFrom_first env cands s a). Qed.

Lemma acquisition_first_loadable_witness :
  let env := Samples.secondOnlyEnv in
  let cands := ["./assets/a.gvrm"; "./assets/b.gvrm"] in
  let a := newSimpleVRMWrapper "./assets/b.gvrm" in
  fst (loadGvrmAvatarFrom env cands initial) = inr a
  /\ exists pre post, cands = pre ++ asset a :: post.
Proof.
  intros env cands a. split; [reflexivity|].
  destruct (acquisition_first_loadable env cands initial a eq_refl)
    as (pre & post & C & _).
  exists pre, post. exact C.
Defined.

End AcquisitionMore.

(* ===================================================================== *)
(** * The buttons of a session *)
(* ===================================================================== *)

Section ButtonFacts.
Import Js AudioCache Session Trace Requests Page.

Lemma highlightFrom_markFree key l :
  forallb markFree l = true -> forall d, highlightFrom key d l = d.
Proof.
  induction l as [|e l IH]; intros F d; [reflexivity|].
  cbn in F. apply andb_true_iff in F as [Fe Fl].
  unfold highlightFrom in *. cbn [fold_left].
  destruct e; try discriminate Fe; apply IH, Fl.
Qed.

Lemma appends_marks s s' key d :
  appends markFree s s' ->
  highlightFrom key d (out s') = highlightFrom key d (out s).
Proof.
  intros (l & -> & F). unfold highlightFrom at 1. rewrite fold_left_app.
  now apply highlightFrom_markFree.
Qed.

Lemma buttonFree_markFree e : buttonFree e = true -> markFree e = true.
Proof. now destruct e. Qed.

Lemma highlight_emit key d k i s :
  highlightFrom key d (out (emit (SetActiveButton k i) s))
  = if String.eqb k key then i else highlightFrom key d (out s).
Proof. cbn. unfold highlightFrom. now rewrite fold_left_app. Qed.

Lemma enabled_emit d k i s :
  enabledFrom d (out (emit (SetActiveButton k i) s)) = enabledFrom d (out s).
Proof. cbn. unfold enabledFrom. now rewrite fold_left_app. Qed.

Lemma buttonFree_warn m sub r : buttonFree (ConsoleWarn m sub r) = true.
Proof. reflexivity. Qed.

Lemma buttonFree_rejection r : buttonFree (UnhandledRejection r) = true.
Proof. reflexivity. Qed.

(** ** The animation buttons follow the capabilities *)

(** The animation buttons stay in step while the capabilities and the
    buttons are left alone. *)
Lemma buttonsSynced_appends s s' :
  appends buttonFree s s' ->
  avatarCapabilities (avatars s') = avatarCapabilities (avatars s) ->
  buttonsSynced s -> buttonsSynced s'.
Proof.
  intros A E H. unfold buttonsSynced in *.
  now rewrite (appends_enabled s s' _ A), E.
Qed.

Lemma buttonsSynced_mark k i s :
  buttonsSynced s -> buttonsSynced (emit (SetActiveButton k i) s).
Proof. unfold buttonsSynced. now rewrite enabled_emit. Qed.

Lemma avatars_switchAnimation i s :
  avatars (snd (switchAnimation i s)) = avatars s.
Proof.
  rewrite <- (step_avatars s (SelectAnimation i)). cbn [step].
  now destruct (switchAnimation i s) as [[e|] s1].
Qed.

Lemma buttonsSynced_step s ev : buttonsSynced s -> buttonsSynced (step s ev).
Proof.
  intros H. destruct ev as [i|i|r f|p result|r f].
  - apply (buttonsSynced_appends (emit (SetActiveButton "animation" i) s)).
    + apply (appends_switchAnimation buttonFree buttonFree_warn
               buttonFree_rejection).
    + now rewrite (step_avatars s (SelectAnimation i)).
    + now apply buttonsSynced_mark.
  - apply (buttonsSynced_appends (emit (SetActiveButton "audio" i) s)).
    + apply (appends_switchAudio buttonFree buttonFree_warn
               buttonFree_rejection).
    + now rewrite (step_avatars s (SelectAudio i)).
    + now apply buttonsSynced_mark.
  - apply (buttonsSynced_appends s); [|now rewrite step_avatars|exact H].
    now apply (appends_settled buttonFree buttonFree_warn).
  - apply (buttonsSynced_appends s); [|now rewrite step_avatars|exact H].
    now apply (appends_settled buttonFree buttonFree_warn).
  - apply (buttonsSynced_appends s); [|now rewrite step_avatars|exact H].
    now apply (appends_settled buttonFree buttonFree_warn).
Qed.

Lemma buttonsSynced_unlocked f s :
  buttonsSynced s -> buttonsSynced (unlocked f s).
Proof.
  apply buttonsSynced_appends.
  - unfold unlocked. destruct f; [now apply appends_emit|].
    destruct (audio (sound s)) as [a|]; [|apply appends_refl].
    destruct (_ && _); [now apply appends_out | apply appends_refl].
  - unfold unlocked. destruct f; [reflexivity|].
    destruct (audio (sound s)) as [a|]; [|reflexivity].
    now destruct (_ && _).
Qed.

(** Every write of the capabilities is followed by
    [updateAnimationButtonState()]. *)
Lemma buttonsSynced_capabilities caps m s :
  buttonsSynced
    (updateMetaTag m (updateAnimationButtonState (setCapabilities caps s))).
Proof.
  unfold buttonsSynced, buttonStateOf. cbn.
  unfold enabledFrom. rewrite !fold_left_app. reflexivity.
Qed.

Lemma buttonsSynced_candidateLoop env G cands lastError s :
  buttonsSynced s ->
  buttonsSynced (snd (candidateLoop env G cands lastError s)).
Proof.
  apply (candidateLoop_rel
           (fun s s' => buttonsSynced s -> buttonsSynced s')).
  - now intros.
  - intros a b c H1 H2 H. now apply H2, H1.
  - intros m sub r s0. apply buttonsSynced_appends; [|reflexivity].
    now apply appends_emit.
  - intros a b s0. apply buttonsSynced_appends; [|reflexivity].
    now apply appends_emit.
  - intros c s0. apply buttonsSynced_appends.
    + now apply appends_loadSimple.
    + destruct (loadSimpleVRMFromGvrm_outcome env c s0) as [_ [Q _]].
      now rewrite Q.
  - intros caps m s0 _. apply buttonsSynced_capabilities.
Qed.

Lemma buttonsSynced_initAvatarFrom env cands s :
  buttonsSynced s -> buttonsSynced (initAvatarFrom env cands s).
Proof.
  intros H. unfold initAvatarFrom, loadGvrmAvatarFrom.
  assert (buttonsSynced (snd (ensureGvrmModule env s))) as H0.
  { revert H. apply buttonsSynced_appends.
    - destruct (out_ensureGvrmModule env s) as (l & E & F). exists l.
      split; [exact E|]. rewrite forallb_forall in *. intros e In.
      specialize (F e In). now destruct e.
    - now destruct (ensureGvrmModule_steady env s) as (A & _). }
  destruct (ensureGvrmModule env s) as [G s0]. cbn [snd] in H0.
  pose proof (buttonsSynced_candidateLoop env G cands None s0 H0) as H1.
  destruct (candidateLoop env G cands None s0) as [[e|inst] s1];
    cbn [snd] in H1.
  - apply buttonsSynced_capabilities.
  - assert (buttonsSynced
              (snd (switchAnimation (desiredAnimationIndex (animation s1))
                      (setGvrmInstance inst s1)))) as H2.
    { apply (buttonsSynced_appends
               (emit (SetActiveButton "animation"
                        (desiredAnimationIndex (animation s1)))
                  (setGvrmInstance inst s1))).
      - apply (appends_switchAnimation buttonFree buttonFree_warn
                 buttonFree_rejection).
      - now rewrite avatars_switchAnimation.
      - now apply buttonsSynced_mark. }
    destruct (switchAnimation _ _) as [[e|] s2]; cbn [snd] in H2;
      [apply buttonsSynced_capabilities | exact H2].
Qed.

(** ** The marked button follows the request *)

(** What the events do to the marked button of a row. *)
Lemma marks_settled s ev key d :
  match ev with SelectAnimation _ | SelectAudio _ => False | _ => True end ->
  highlightFrom key d (out (step s ev)) = highlightFrom key d (out s).
Proof.
  intros H. apply appends_marks.
  apply (appends_weaken buttonFree); [apply buttonFree_markFree|].
  now apply (appends_settled buttonFree buttonFree_warn).
Qed.

Lemma marks_switchAnimation i s key d :
  highlightFrom key d (out (snd (switchAnimation i s)))
  = (if String.eqb "animation" key then i else highlightFrom key d (out s))
  /\ highlightFrom key d (out (detached (switchAnimation i s)))
     = (if String.eqb "animation" key then i
        else highlightFrom key d (out s)).
Proof.
  destruct (appends_switchAnimation buttonFree buttonFree_warn
              buttonFree_rejection i s) as [A B].
  rewrite <- (highlight_emit key d "animation" i s). split.
  - apply appends_marks.
    apply (appends_weaken buttonFree); [apply buttonFree_markFree | exact A].
  - apply appends_marks.
    apply (appends_weaken buttonFree); [apply buttonFree_markFree | exact B].
Qed.

Lemma marks_switchAudio i s key d :
  highlightFrom key d (out (detached (switchAudio i s)))
  = (if String.eqb "audio" key then i else highlightFrom key d (out s)).
Proof.
  rewrite <- (highlight_emit key d "audio" i s). apply appends_marks.
  apply (appends_weaken buttonFree); [apply buttonFree_markFree|].
  apply (appends_switchAudio buttonFree buttonFree_warn buttonFree_rejection).
Qed.

Lemma animation_switchAnimation i s :
  desiredAnimationIndex (animation (snd (switchAnimation i s))) = i.
Proof.
  unfold switchAnimation. cbn.
  destruct (negb (supportsFBX _)); [reflexivity|].
  destruct (gvrmInstance (avatars s)) as [inst|]; [|reflexivity].
  destruct (negb (isReady inst)); [reflexivity|].
  destruct (optionAt animationOptions i); [|reflexivity].
  destruct (class inst); cbn; [reflexivity|].
  unfold afterChangeFBX. cbn. now rewrite Z.eqb_refl.
Qed.

Lemma sound_switchAnimation i s :
  sound (snd (switchAnimation i s)) = sound s.
Proof.
  destruct (switchAnimation_sound i s) as [E _]. rewrite <- E.
  now destruct (switchAnimation i s) as [[e|] s1].
Qed.

(** What the events do to the two desired indices. *)
Lemma desiredAnimation_step s ev :
  desiredAnimationIndex (animation (step s ev))
  = match ev with
    | SelectAnimation i => i
    | _ => desiredAnimationIndex (animation s)
    end.
Proof.
  destruct ev as [i|i|r f|p result|r f].
  2: now destruct (sameAnimation_audio_event s (SelectAudio i) I) as (-> & _).
  3: now destruct (sameAnimation_audio_event s (LoaderSettled p result) I)
       as (-> & _).
  3: now destruct (sameAnimation_audio_event s (ResumeSettled r f) I)
       as (-> & _).
  - cbn [step].
    transitivity (desiredAnimationIndex
                    (animation (snd (switchAnimation i s))));
      [|apply animation_switchAnimation].
    now destruct (switchAnimation i s) as [[e|] s1].
  - cbn [step]. destruct (takeTask _ _) as [[[] others]|]; try reflexivity.
    destruct f; [reflexivity|]. unfold afterChangeFBX.
    now destruct (_ =? _).
Qed.

Lemma desiredAudio_step s ev :
  desiredAudioIndex (sound (step s ev))
  = match ev with
    | SelectAudio i => i
    | _ => desiredAudioIndex (sound s)
    end.
Proof.
  destruct ev as [i|i|r f|p result|r f].
  2: exact (proj2 (switchAudio_requests i s)).
  - now destruct (step_requests s (SelectAnimation i) eq_refl) as [_ ->].
  - now destruct (step_requests s (ChangeFBXSettled r f) eq_refl) as [_ ->].
  - now destruct (step_requests s (LoaderSettled p result) eq_refl)
      as [_ ->].
  - now destruct (step_requests s (ResumeSettled r f) eq_refl) as [_ ->].
Qed.

Lemma appends_markFree_loadGvrmAvatarFrom env cands s :
  appends markFree s (snd (loadGvrmAvatarFrom env cands s)).
Proof.
  unfold loadGvrmAvatarFrom.
  destruct (out_ensureGvrmModule env s) as (l & E & F).
  destruct (ensureGvrmModule env s) as [G s0]. cbn [snd] in E.
  eapply appends_trans.
  - exists l. split; [exact E|]. rewrite forallb_forall in *. intros e In.
    specialize (F e In). now destruct e.
  - apply candidateLoop_rel.
    + apply appends_refl.
    + apply appends_trans.
    + intros. now apply appends_emit.
    + intros. now apply appends_emit.
    + intros. now apply appends_loadSimple.
    + intros caps m s1. eexists.
      split; [cbn; rewrite <- !app_assoc; reflexivity | reflexivity].
Qed.

Lemma markFree_avatarUnavailable e s :
  appends markFree s (avatarUnavailable e s).
Proof.
  eexists. split; [cbn; rewrite <- !app_assoc; reflexivity | reflexivity].
Qed.

(** Start-up marks no button but the one of the animation it asks
    for, which is the one that is marked already. *)
Lemma marks_initAvatarFrom env cands s key d :
  highlightFrom "animation" d (out s) = desiredAnimationIndex (animation s) ->
  highlightFrom key d (out (initAvatarFrom env cands s))
  = highlightFrom key d (out s).
Proof.
  intros H. unfold initAvatarFrom.
  pose proof (appends_markFree_loadGvrmAvatarFrom env cands s) as A.
  destruct (loadGvrmAvatarFrom_switches env cands s) as (An & _).
  destruct (loadGvrmAvatarFrom env cands s) as [[e|inst] s1];
    cbn [snd] in A, An.
  - apply appends_marks. eapply appends_trans; [exact A|].
    apply markFree_avatarUnavailable.
  - change (animation (setGvrmInstance inst s1)) with (animation s1).
    destruct (marks_switchAnimation (desiredAnimationIndex (animation s1))
                (setGvrmInstance inst s1) key d) as [M _].
    assert (highlightFrom key d
              (out (snd (switchAnimation
                           (desiredAnimationIndex (animation s1))
                           (setGvrmInstance inst s1))))
            = highlightFrom key d (out s)) as M'.
    { rewrite M. change (out (setGvrmInstance inst s1)) with (out s1).
      rewrite (appends_marks s s1 key d A).
      destruct (String.eqb_spec "animation" key) as [<-|]; [|reflexivity].
      now rewrite An, H. }
    destruct (switchAnimation _ _) as [[e|] s2]; cbn [snd] in M';
      [|exact M'].
    rewrite <- M'. apply appends_marks, markFree_avatarUnavailable.
Qed.

(** The avatar part of [init] keeps the sound and the desired
    animation. *)
Lemma frame_initAvatarFrom env cands s :
  sound (initAvatarFrom env cands s) = sound s
  /\ desiredAnimationIndex (animation (initAvatarFrom env cands s))
     = desiredAnimationIndex (animation s).
Proof.
  unfold initAvatarFrom.
  destruct (loadGvrmAvatarFrom_switches env cands s) as (An & So & _).
  destruct (loadGvrmAvatarFrom env cands s) as [[e|inst] s1];
    cbn [snd] in An, So.
  - cbn. now rewrite An, So.
  - change (animation (setGvrmInstance inst s1)) with (animation s1).
    pose proof (sound_switchAnimation (desiredAnimationIndex (animation s1))
                  (setGvrmInstance inst s1)) as S2.
    pose proof (animation_switchAnimation
                  (desiredAnimationIndex (animation s1))
                  (setGvrmInstance inst s1)) as A2.
    destruct (switchAnimation _ _) as [[e|] s2]; cbn [snd] in S2, A2; cbn;
      rewrite S2, A2, An; now rewrite <- So.
Qed.

(** [applyPalette] returns, with the index it was given. *)
Lemma applyPalette_index index st :
  exists st', Render.applyPalette index st = inr st'
              /\ Render.currentPaletteIndex st' = index.
Proof.
  unfold Render.applyPalette.
  destruct (selectColors_total index) as (c & -> & _). eauto.
Qed.

Section Pages.
Variable sin : float -> float.
Variable env : Env.

Lemma highlighted_script ev pg :
  highlighted pg -> highlighted (script ev pg).
Proof.
  intros (A & B & C). unfold highlighted, script.
  rewrite session_advance, stage_advance. cbn [session stage withSession].
  rewrite desiredAnimation_step, desiredAudio_step.
  destruct ev as [i|i|r f|p result|r f].
  - cbn [step]. rewrite !(proj2 (marks_switchAnimation _ _ _ _)). cbn.
    now repeat split.
  - cbn [step]. rewrite !marks_switchAudio. cbn. now repeat split.
  - rewrite !marks_settled by exact I. now repeat split.
  - rewrite !marks_settled by exact I. now repeat split.
  - rewrite !marks_settled by exact I. now repeat split.
Qed.

Lemma highlighted_palette index pg :
  highlighted pg -> highlighted (handlePaletteSelect index pg).
Proof.
  intros (A & B & C). unfold highlighted.
  rewrite session_handlePaletteSelect. rewrite !highlight_emit. cbn.
  unfold handlePaletteSelect. cbn.
  destruct (applyPalette_index index (stage pg)) as (st' & -> & E).
  now repeat split.
Qed.

(** Every step of the page keeps the marked buttons in step. *)
Lemma highlighted_step pg input :
  highlighted pg -> highlighted (pageStep sin env pg input).
Proof.
  intros H.
  destruct input as [ev|key k|index| | |f|nx ny|reading]; cbn [pageStep].
  - now apply highlighted_script.
  - unfold click. destruct (_ !! k) as [b|]; [|exact H].
    destruct (Dom.disabled b); [exact H|].
    destruct (String.eqb key "animation"); [now apply highlighted_script|].
    destruct (String.eqb key "audio"); [now apply highlighted_script|].
    now apply highlighted_palette.
  - now apply highlighted_palette.
  - destruct (phase pg); try exact H.
    pose proof (acquired_session env (session pg)) as E.
    destruct (acquired env (session pg)) as [s ph]. cbn [fst] in E.
    destruct H as (A & B & C). unfold highlighted. cbn. subst s.
    unfold initAvatar.
    rewrite !(marks_initAvatarFrom env candidates (session pg) _ 0 A).
    destruct (frame_initAvatarFrom env candidates (session pg)) as [-> ->].
    now repeat split.
  - now destruct (unlock pg).
  - destruct (unlock pg); try exact H.
    destruct H as (A & B & C). unfold highlighted. cbn.
    assert (appends markFree (session pg) (unlocked f (session pg))) as Ap.
    { unfold unlocked. destruct f; [now apply appends_emit|].
      destruct (audio (sound (session pg))) as [a|]; [|apply appends_refl].
      destruct (_ && _); [now apply appends_out | apply appends_refl]. }
    rewrite !(appends_marks _ _ _ _ Ap).
    assert (animation (unlocked f (session pg)) = animation (session pg)
            /\ desiredAudioIndex (sound (unlocked f (session pg)))
               = desiredAudioIndex (sound (session pg))) as [-> ->].
    { unfold unlocked. destruct f; [now split|].
      destruct (audio (sound (session pg))) as [a|]; [|now split].
      now destruct (_ && _). }
    now repeat split.
  - exact H.
  - now destruct (phase pg).
Qed.

Lemma highlighted_boot seed : highlighted (boot seed).
Proof. now repeat split. Qed.

(** The trace of the module body. *)
Lemma startup_eq :
  Dom.startup
  = [ SetActiveButton "animation" 0; SetActiveButton "audio" 0;
      SetActiveButton "palette" 0 ]
    ++ UpdateAnimationButtonState false
         "Avatar is loading – animations will unlock when ready."
       :: [ UpdateMetaTag "Simulacra Interface — Loading Avatar" ].
Proof. reflexivity. Qed.

Lemma replay_marked key l1 i l2 r :
  Dom.known key ->
  Dom.activeAt (highlightFrom key i l2)
    (Dom.buttonsOf key (Dom.replay (l1 ++ SetActiveButton key i :: l2) r)).
Proof.
  intros K. rewrite replay_app.
  change (Dom.replay (SetActiveButton key i :: l2) ?x)
    with (Dom.replay l2 (Dom.setActiveButton key i x)).
  apply replay_activeAt; [exact K|].
  unfold Dom.setActiveButton. rewrite buttonsOf_withButtons by exact K.
  rewrite String.eqb_refl. apply activeAt_activate.
Qed.

Lemma replay_stated l1 en t l2 r :
  Dom.enabledAs
    (fst (enabledFrom (en, t) l2),
     if fst (enabledFrom (en, t) l2) then ""
     else snd (enabledFrom (en, t) l2))
    (Dom.animationButtons
       (Dom.replay (l1 ++ UpdateAnimationButtonState en t :: l2) r)).
Proof.
  rewrite replay_app.
  change (Dom.replay (UpdateAnimationButtonState en t :: l2) ?x)
    with (Dom.replay l2 (Dom.updateAnimationButtonState en t x)).
  apply replay_enabledAs. apply enabledAs_enable.
Qed.

Lemma buttonsAfter_eq s :
  Dom.buttonsAfter s
  = Dom.replay (Dom.startup ++ out s)
      (Dom.registerButtons true (Render.label <$> Render.paletteOptions)
         "palette"
         (Dom.registerButtons true (audioLabel <$> audioOptions) "audio"
            (Dom.registerButtons true (animLabel <$> animationOptions)
               "animation"
               {| Dom.animationButtons := []; Dom.audioButtons := [];
                  Dom.paletteButtons := [] |}))).
Proof. unfold Dom.buttonsAfter, Dom.initial. now rewrite replay_app. Qed.

(** The buttons of a session, read from its trace. *)
Lemma buttonsAfter_activeAt key s :
  Dom.known key ->
  Dom.activeAt (highlightFrom key 0 (out s))
    (Dom.buttonsOf key (Dom.buttonsAfter s)).
Proof.
  intros K. rewrite buttonsAfter_eq.
  set (tail := [ UpdateAnimationButtonState false
                   "Avatar is loading – animations will unlock when ready.";
                 UpdateMetaTag "Simulacra Interface — Loading Avatar" ]).
  destruct K as [-> | [-> | ->]].
  - change (Dom.startup ++ out s)
      with ([] ++ SetActiveButton "animation" 0
               :: ([SetActiveButton "audio" 0; SetActiveButton "palette" 0]
                   ++ tail ++ out s)).
    match goal with |- Dom.activeAt _ (Dom.buttonsOf _
        (Dom.replay (?l1 ++ SetActiveButton _ ?i :: ?l2) ?r)) =>
      pose proof (replay_marked "animation" l1 i l2 r) as H end.
    specialize (H (or_introl eq_refl)).
    unfold highlightFrom in H |- *. rewrite !fold_left_app in H. exact H.
  - change (Dom.startup ++ out s)
      with ([SetActiveButton "animation" 0] ++ SetActiveButton "audio" 0
               :: ([SetActiveButton "palette" 0] ++ tail ++ out s)).
    match goal with |- Dom.activeAt _ (Dom.buttonsOf _
        (Dom.replay (?l1 ++ SetActiveButton _ ?i :: ?l2) ?r)) =>
      pose proof (replay_marked "audio" l1 i l2 r) as H end.
    specialize (H (or_intror (or_introl eq_refl))).
    unfold highlightFrom in H |- *. rewrite !fold_left_app in H. exact H.
  - change (Dom.startup ++ out s)
      with ([SetActiveButton "animation" 0; SetActiveButton "audio" 0]
              ++ SetActiveButton "palette" 0 :: (tail ++ out s)).
    match goal with |- Dom.activeAt _ (Dom.buttonsOf _
        (Dom.replay (?l1 ++ SetActiveButton _ ?i :: ?l2) ?r)) =>
      pose proof (replay_marked "palette" l1 i l2 r) as H end.
    specialize (H (or_intror (or_intror eq_refl))).
    unfold highlightFrom in H |- *. rewrite !fold_left_app in H. exact H.
Qed.

Lemma buttonsAfter_enabledAs s :
  buttonsSynced s ->
  Dom.enabledAs (buttonStateOf (avatarCapabilities (avatars s)))
    (Dom.animationButtons (Dom.buttonsAfter s)).
Proof.
  intros H. rewrite buttonsAfter_eq.
  change (Dom.startup ++ out s)
    with ([ SetActiveButton "animation" 0; SetActiveButton "audio" 0;
            SetActiveButton "palette" 0 ]
          ++ UpdateAnimationButtonState false
               "Avatar is loading – animations will unlock when ready."
             :: ([ UpdateMetaTag "Simulacra Interface — Loading Avatar" ]
                 ++ out s)).
  match goal with |- Dom.enabledAs _ (Dom.animationButtons
      (Dom.replay (?l1 ++ UpdateAnimationButtonState ?en ?t :: ?l2) ?r)) =>
    pose proof (replay_stated l1 en t l2 r) as E end.
  unfold buttonsSynced in H. unfold enabledFrom in E, H.
  rewrite fold_left_app in E. cbn [fold_left] in E.
  change (buttonStateOf (avatarCapabilities (avatars initial)))
    with (false, "Avatar is loading – animations will unlock when ready.")
    in H.
  rewrite H in E. intros k b L. destruct (E k b L) as (A & B & C).
  cbn [fst snd] in A, B, C. repeat split; try assumption.
  rewrite C. unfold buttonStateOf. cbn.
  now destruct (supportsFBX (avatarCapabilities (avatars s))).
Qed.

Lemma buttonsAfter_length s :
  length (Dom.animationButtons (Dom.buttonsAfter s)) = 4%nat
  /\ length (Dom.audioButtons (Dom.buttonsAfter s)) = 2%nat
  /\ length (Dom.paletteButtons (Dom.buttonsAfter s)) = 3%nat.
Proof.
  unfold Dom.buttonsAfter.
  pose proof (replay_length "animation" (out s) Dom.initial) as A.
  pose proof (replay_length "audio" (out s) Dom.initial) as B.
  pose proof (replay_length "palette" (out s) Dom.initial) as C.
  repeat split; [exact A | exact B | exact C].
Qed.

(** The marks of a row as a list. *)
Lemma activeAt_only index bs :
  Dom.activeAt index bs ->
  Dom.isActive <$> bs = Dom.only index (length bs)
  /\ Dom.ariaPressed <$> bs = Dom.pressedAs <$> Dom.only index (length bs).
Proof.
  intros H. split; apply list_eq; intros k; unfold Dom.only;
    rewrite ?list_lookup_fmap.
  - destruct (bs !! k) as [b|] eqn:E.
    + rewrite lookup_seq_lt by (eapply lookup_lt_Some, E).
      cbn. now rewrite (proj1 (H k b E)).
    + rewrite lookup_seq_ge by (apply lookup_ge_None, E). reflexivity.
  - destruct (bs !! k) as [b|] eqn:E.
    + rewrite lookup_seq_lt by (eapply lookup_lt_Some, E).
      cbn. now rewrite (proj2 (H k b E)).
    + rewrite lookup_seq_ge by (apply lookup_ge_None, E). reflexivity.
Qed.

(** X17.  In every state the page can reach, the button that is
    marked in a row is the one of the index asked for last, not of the
    option in effect: of the four animation buttons the one at
    [desiredAnimationIndex], of the two audio buttons the one at
    [desiredAudioIndex], of the three palette buttons the one at
    [currentPaletteIndex], and none when the index names no button;
    [aria-pressed] says the same as the class. *)
Theorem marked_button_follows_request (seed : float) (inputs : list Input) :
  let pg := pageRun sin env (boot seed) inputs in
  let dom := Dom.buttonsAfter (session pg) in
  (Dom.isActive <$> Dom.animationButtons dom
   = Dom.only (desiredAnimationIndex (animation (session pg))) 4
   /\ Dom.isActive <$> Dom.audioButtons dom
      = Dom.only (desiredAudioIndex (sound (session pg))) 2
   /\ Dom.isActive <$> Dom.paletteButtons dom
      = Dom.only (Render.currentPaletteIndex (stage pg)) 3)
  /\ (Dom.ariaPressed <$> Dom.animationButtons dom
      = Dom.pressedAs <$> (Dom.isActive <$> Dom.animationButtons dom)
      /\ Dom.ariaPressed <$> Dom.audioButtons dom
         = Dom.pressedAs <$> (Dom.isActive <$> Dom.audioButtons dom)
      /\ Dom.ariaPressed <$> Dom.paletteButtons dom
         = Dom.pressedAs <$> (Dom.isActive <$> Dom.paletteButtons dom)).
Proof.
  intros pg dom.
  assert (highlighted pg) as (A & B & C).
  { apply (pageRun_invariant sin env highlighted).
    - intros p i. apply highlighted_step.
    - apply highlighted_boot. }
  destruct (buttonsAfter_length (session pg)) as (La & Lb & Lc).
  pose proof (buttonsAfter_activeAt "animation" (session pg)
                (or_introl eq_refl)) as Ha.
  pose proof (buttonsAfter_activeAt "audio" (session pg)
                (or_intror (or_introl eq_refl))) as Hb.
  pose proof (buttonsAfter_activeAt "palette" (session pg)
                (or_intror (or_intror eq_refl))) as Hc.
  rewrite A in Ha. rewrite B in Hb. rewrite C in Hc.
  apply activeAt_only in Ha as [Ha1 Ha2].
  apply activeAt_only in Hb as [Hb1 Hb2].
  apply activeAt_only in Hc as [Hc1 Hc2].
  change (Dom.buttonsOf "animation" ?x) with (Dom.animationButtons x) in *.
  change (Dom.buttonsOf "audio" ?x) with (Dom.audioButtons x) in *.
  change (Dom.buttonsOf "palette" ?x) with (Dom.paletteButtons x) in *.
  rewrite La in *. rewrite Lb in *. rewrite Lc in *.
  fold dom in Ha1, Ha2, Hb1, Hb2, Hc1, Hc2.
  rewrite Ha1, Hb1, Hc1, Ha2, Hb2, Hc2. now repeat split.
Qed.

(** X18.  In every state the page can reach, the four animation
    buttons are disabled exactly when [avatarCapabilities.supportsFBX]
    is false, with the class and the title that
    [updateAnimationButtonState()] would give them if it were called
    now: every write of the capabilities is followed by that call. *)
Theorem animation_buttons_follow_capabilities
    (seed : float) (inputs : list Input) :
  let pg := pageRun sin env (boot seed) inputs in
  let s := session pg in
  let c := avatarCapabilities (avatars s) in
  length (Dom.animationButtons (Dom.buttonsAfter s)) = 4%nat
  /\ List.Forall
       (fun b =>
          Dom.disabled b = negb (supportsFBX c)
          /\ bool_decide ("is-disabled" ∈ Dom.classList b)
             = negb (supportsFBX c)
          /\ out (updateAnimationButtonState s)
             = out s ++ [UpdateAnimationButtonState
                           (negb (Dom.disabled b)) (Dom.title b)])
       (Dom.animationButtons (Dom.buttonsAfter s)).
Proof.
  intros pg s c. split; [apply buttonsAfter_length|].
  assert (buttonsSynced s) as H.
  { apply (pageRun_invariant sin env (fun pg => buttonsSynced (session pg))).
    - intros p i V. apply pageStep_session; try exact V.
      + intros s0 ev. apply buttonsSynced_step.
      + intros s0 index. apply buttonsSynced_mark.
      + intros s0. apply buttonsSynced_initAvatarFrom.
      + intros s0 f. apply buttonsSynced_unlocked.
    - reflexivity. }
  apply buttonsAfter_enabledAs in H.
  apply List.Forall_forall. intros b In.
  apply list_elem_of_In, list_elem_of_lookup in In as [k L].
  destruct (H k b L) as (A & B & C). fold c in A, B, C.
  split; [exact A|]. split; [exact B|].
  rewrite A, C, negb_involutive. unfold buttonStateOf. cbn. fold c.
  now destruct (supportsFBX c).
Qed.

End Pages.

End ButtonFacts.

(* ===================================================================== *)
(** * Properties of start-up *)
(* ===================================================================== *)

Section BootFacts.
Import Js AudioCache Session Trace Requests Page.
Variable sin : float -> float.
Variable env : Env.

(** ** Suspended calls stay until they are resumed *)

Lemma tasks_afterBuffer i r o b s t :
  t ∈ tasks s -> t ∈ tasks (afterBuffer i r o b s).
Proof.
  intros In. unfold afterBuffer. destruct (negb _); [exact In|].
  destruct (audio (sound s)); [|exact In].
  cbn. apply elem_of_app. now left.
Qed.

Lemma tasks_resumeAll result waiting t :
  forall s, t ∈ tasks s ->
            t ∈ tasks (fold_left (resumeWithBuffer result) waiting s).
Proof.
  induction waiting as [|w ws IH]; intros s In; [exact In|].
  cbn [fold_left]. apply IH.
  destruct w, result; cbn [resumeWithBuffer]; try exact In.
  now apply tasks_afterBuffer.
Qed.

Lemma tasks_switchAnimation i s t :
  t ∈ tasks s -> t ∈ tasks (detached (switchAnimation i s)).
Proof.
  intros In. unfold switchAnimation.
  destruct (negb (supportsFBX _)); [exact In|].
  destruct (gvrmInstance _) as [inst|]; [|exact In].
  destruct (negb (isReady inst)); [exact In|].
  destruct (optionAt animationOptions i); [|exact In].
  destruct (class inst); cbn.
  - apply elem_of_app. now left.
  - unfold afterChangeFBX. cbn. now rewrite Z.eqb_refl.
Qed.

Lemma tasks_switchAudio i s t :
  t ∈ tasks s -> t ∈ tasks (detached (switchAudio i s)).
Proof.
  intros In. unfold switchAudio.
  destruct (optionAt audioOptions i); [|exact In].
  destruct (loadAudioBuffer _ _) as [p c].
  destruct (promises c !! p) as [[]|]; cbn [detached].
  - cbn. apply elem_of_app. now left.
  - now apply tasks_afterBuffer.
  - exact In.
  - cbn. apply elem_of_app. now left.
Qed.

(** A call that awaits [resume()] stays suspended until that
    [resume()] settles. *)
Lemma resume_pending_step s ev i r o :
  match ev with ResumeSettled r' _ => r' <> r | _ => True end ->
  AwaitResume i r o ∈ tasks s -> AwaitResume i r o ∈ tasks (step s ev).
Proof.
  intros H In. destruct ev as [j|j|r' f|p result|r' f]; cbn [step].
  - now apply tasks_switchAnimation.
  - now apply tasks_switchAudio.
  - destruct (takeTask _ _) as [[t others]|] eqn:E; [|exact In].
    destruct (takeTask_Some _ _ _ _ E) as [Ft M].
    destruct t as [j r'' o'| |]; try exact In.
    assert (AwaitResume i r o ∈ others) as In'.
    { apply M in In. destruct In as [In|In]; [discriminate In | exact In]. }
    destruct f; [exact In'|]. unfold afterChangeFBX.
    now destruct (_ =? _).
  - destruct (match result with inl _ => _ | inr _ => _ end); [|exact In].
    apply tasks_resumeAll. cbn. apply list_elem_of_In, List.filter_In.
    split; [now apply list_elem_of_In | reflexivity].
  - destruct (takeTask _ _) as [[t others]|] eqn:E; [|exact In].
    destruct (takeTask_Some _ _ _ _ E) as [Ft M].
    destruct t as [| |j r'' o']; try exact In.
    assert (AwaitResume i r o ∈ others) as In'.
    { apply M in In. destruct In as [In|In]; [|exact In].
      injection In as [= <- <- <-].
      cbn in Ft. apply Z.eqb_eq in Ft. now subst. }
    destruct f; [exact In'|]. unfold afterResume. cbn.
    destruct (audio (sound s)) as [a|]; [|exact In'].
    unfold commitAudio. now destruct (isPlaying a).
Qed.

Lemma pending_audioCall s i r o :
  AwaitResume i r o ∈ tasks s -> audioCallPending r s = true.
Proof.
  intros In. unfold audioCallPending. apply existsb_exists.
  exists (AwaitResume i r o). split; [now apply list_elem_of_In|].
  apply Z.eqb_refl.
Qed.

Lemma waiting_script r ev pg :
  match ev with ResumeSettled r' _ => r' <> r | _ => True end ->
  waiting r pg -> waiting r (script ev pg).
Proof.
  intros H (P & (i & o & T) & A & F).
  pose proof (resume_pending_step _ ev i r o H T) as T'.
  unfold script, advance. cbn [withSession phase session]. rewrite P.
  rewrite (pending_audioCall _ i r o T').
  split; [exact P|]. split; [eauto|]. split; [|exact F].
  cbn. now rewrite step_avatars.
Qed.

Lemma waiting_palette r index pg :
  waiting r pg -> waiting r (handlePaletteSelect index pg).
Proof.
  intros (P & T & A & F). unfold handlePaletteSelect. cbn.
  destruct (applyPalette_index index (stage pg)) as (st' & E & _).
  rewrite E. repeat split; try assumption.
  cbn. unfold Render.applyPalette in E.
  destruct (Render.selectColors index); [discriminate|].
  injection E as [= <-]. exact F.
Qed.

(** While [init] waits for the audio, no step of the page lets it go
    on but the settlement of the [resume()]. *)
Lemma waiting_step r pg input :
  settlesResume r input = false ->
  waiting r pg -> waiting r (pageStep sin env pg input).
Proof.
  intros N W.
  destruct input as [ev|key k|index| | |f|nx ny|reading]; cbn [pageStep].
  - apply waiting_script; [|exact W]. destruct ev; try exact I.
    cbn in N. now apply Z.eqb_neq.
  - unfold click. destruct (_ !! k) as [b|]; [|exact W].
    destruct (Dom.disabled b); [exact W|].
    destruct (String.eqb key "animation"); [now apply waiting_script|].
    destruct (String.eqb key "audio"); [now apply waiting_script|].
    now apply waiting_palette.
  - now apply waiting_palette.
  - destruct W as (P & W). rewrite P. now split.
  - destruct (unlock pg); exact W.
  - destruct (unlock pg); try exact W.
    destruct W as (P & (i & o & T) & A & F).
    split; [exact P|]. cbn [withUnlock withSession session stage].
    assert (tasks (unlocked f (session pg)) = tasks (session pg)
            /\ avatars (unlocked f (session pg)) = avatars (session pg))
      as [Et Ea].
    { unfold unlocked. destruct f; [now split|].
      destruct (audio (sound (session pg))) as [a|]; [|now split].
      now destruct (_ && _). }
    rewrite Et, Ea. split; [eauto|]. now split.
  - exact W.
  - destruct W as (P & W). rewrite P. now split.
Qed.

Lemma waiting_run r inputs :
  forall pg,
    forallb (fun input => negb (settlesResume r input)) inputs = true ->
    waiting r pg -> waiting r (pageRun sin env pg inputs).
Proof.
  induction inputs as [|input inputs IH]; intros pg N W; [exact W|].
  cbn in N. apply andb_true_iff in N as [N1 N2].
  apply negb_true_iff in N1. cbn [pageRun fold_left]. apply IH; [exact N2|].
  now apply waiting_step.
Qed.

(** X19.  [init] awaits [setupAudio()], which awaits the first
    [switchAudio] call, which awaits [resume()].  Once the first track
    is decoded, and until that [resume()] settles, whatever else
    happens: [init] stays where it is, the import of the GVRM module is
    not started, no avatar is asked for, the capabilities say
    ['loading'], and no frame is drawn. *)
Theorem boot_waits_for_resume
    (seed : float) (b : AudioBuffer) (inputs : list Input) :
  forallb (fun input => negb (settlesResume 1 input)) inputs = true ->
  let pg := pageRun sin env
              (pageStep sin env (boot seed)
                 (Script (LoaderSettled 0 (inr b)))) inputs in
  phase pg = AwaitingAudio 1
  /\ avatarCapabilities (avatars (session pg))
     = {| supportsFBX := false; mode := loading |}
  /\ gvrmInstance (avatars (session pg)) = None
  /\ gvrmModulePromise (avatars (session pg)) = None
  /\ Render.framesRendered (Render.motion (stage pg)) = 0%nat.
Proof.
  intros N pg.
  assert (waiting 1 pg) as (P & _ & A & F).
  { apply waiting_run; [exact N|].
    split; [reflexivity|]. split; [|now split].
    eexists _, _. cbn. apply list_elem_of_singleton. reflexivity. }
  rewrite A. now repeat split.
Qed.

(** ** [init] comes to the render loop *)

(** After the acquisition [init] goes on to the render loop, or
    awaits the one clip change it has started. *)
Lemma acquired_phase s :
  tasks s = [] ->
  let r := animationRequestId (animation s) + 1 in
  (snd (acquired env s) = Looping /\ tasks (fst (acquired env s)) = [])
  \/ (snd (acquired env s) = AwaitingAnimation r
      /\ exists i o, tasks (fst (acquired env s)) = [AwaitChangeFBX i r o]).
Proof.
  intros T r. unfold acquired, loadGvrmAvatar.
  destruct (loadGvrmAvatarFrom_switches env candidates s) as (A & _ & _ & D).
  destruct (loadGvrmAvatarFrom env candidates s) as [[e|inst] s1];
    cbn [snd] in A, D.
  { left. cbn. now rewrite D, T. }
  unfold switchAnimation. cbn.
  destruct (negb (supportsFBX _)).
  { left. cbn. unfold animationCallPending. cbn. now rewrite D, T. }
  destruct (negb (isReady inst)).
  { left. cbn. unfold animationCallPending. cbn. now rewrite D, T. }
  destruct (optionAt animationOptions _) as [o|].
  2:{ left. cbn. now rewrite D, T. }
  destruct (class inst).
  - right. cbn. unfold animationCallPending. cbn. rewrite D, T, A. cbn.
    rewrite Z.eqb_refl. cbn. split; [reflexivity|]. eauto.
  - left. unfold afterChangeFBX. cbn. rewrite Z.eqb_refl. cbn.
    unfold animationCallPending. cbn. now rewrite D, T.
Qed.

Lemma settle_last s i r o f :
  tasks s = [AwaitChangeFBX i r o] ->
  tasks (step s (ChangeFBXSettled r f)) = [].
Proof.
  intros T. cbn [step]. rewrite T. cbn. rewrite Z.eqb_refl.
  destruct f; [reflexivity|]. unfold afterChangeFBX. cbn.
  now destruct (_ =? _).
Qed.

(** X20.  Nothing keeps [init] from the render loop: whether the
    first track is decoded or not, whether [resume()] resolves or
    rejects, whatever the avatar acquisition gives and whether the
    first clip change resolves or rejects, [init] has called
    [setAnimationLoop] once the four have settled, and no call is left
    suspended. *)
Theorem boot_reaches_loop
    (seed : float) (result : JsError + AudioBuffer)
    (resumed changed : option JsError) :
  let pg := pageRun sin env (boot seed)
              [ Script (LoaderSettled 0 result);
                Script (ResumeSettled 1 resumed);
                AcquisitionSettled;
                Script (ChangeFBXSettled 1 changed) ] in
  phase pg = Looping /\ tasks (session pg) = [].
Proof.
  cbn [pageRun fold_left].
  set (pg2 := pageStep sin env (pageStep sin env (boot seed) _) _).
  assert (phase pg2 = Acquiring /\ tasks (session pg2) = []
          /\ animationRequestId (animation (session pg2)) = 0) as (P & T & R).
  { subst pg2. destruct result as [e|b], resumed as [e'|];
      vm_compute; repeat split. }
  cbn [pageStep]. rewrite P.
  pose proof (acquired_phase (session pg2) T) as H. rewrite R in H.
  destruct (acquired env (session pg2)) as [s ph]. cbn [fst snd] in H.
  cbn zeta in H. destruct H as [[-> Ts] | [-> (i & o & Ts)]].
  - unfold script, advance. cbn. split; [reflexivity|]. now rewrite Ts.
  - pose proof (settle_last s i 1 o changed Ts) as E.
    unfold script, advance. cbn [withSession withPhase phase session].
    unfold animationCallPending. rewrite E. cbn. now split.
Qed.

(** ** The capabilities and the phase of [init] *)

Lemma consistent_same pg pg' :
  avatars (session pg') = avatars (session pg) ->
  early (phase pg') = early (phase pg) ->
  consistent pg -> consistent pg'.
Proof. unfold consistent. intros -> ->. exact id. Qed.

Lemma early_advance pg : early (phase (advance pg)) = early (phase pg).
Proof.
  unfold advance. destruct (phase pg) as [r| |r|] eqn:P; rewrite ?P;
    try reflexivity.
  - destruct (audioCallPending r (session pg)); [now rewrite P | reflexivity].
  - destruct (animationCallPending r (session pg));
      [now rewrite P | reflexivity].
Qed.

Lemma consistent_script ev pg : consistent pg -> consistent (script ev pg).
Proof.
  apply consistent_same.
  - unfold script. rewrite session_advance. apply step_avatars.
  - unfold script. now rewrite early_advance.
Qed.

Lemma consistent_palette index pg :
  consistent pg -> consistent (handlePaletteSelect index pg).
Proof.
  apply consistent_same.
  - now rewrite session_handlePaletteSelect.
  - unfold handlePaletteSelect. cbn.
    now destruct (Render.applyPalette index (stage pg)).
Qed.

Lemma acquired_late s : early (snd (acquired env s)) = false.
Proof.
  unfold acquired. destruct (loadGvrmAvatar env s) as [[e|inst] s1];
    [reflexivity|].
  destruct (switchAnimation _ _) as [[e|] s2]; [reflexivity|]. cbn.
  now destruct (animationCallPending _ _).
Qed.

(** What the avatar part of [init] leaves in the capabilities. *)
Lemma acquired_capabilities s :
  let s' := fst (acquired env s) in
  let c := avatarCapabilities (avatars s') in
  match mode c with
  | loading => False
  | gvrm =>
      supportsFBX c = true
      /\ exists a, gvrmInstance (avatars s') = Some a /\ class a = GVRM
                   /\ avatarSupportsFBX a = true /\ avatarMode a = gvrm
  | simple_vrm =>
      supportsFBX c = false
      /\ exists a, gvrmInstance (avatars s') = Some a
                   /\ class a = SimpleVRMWrapper
                   /\ avatarSupportsFBX a = false
                   /\ avatarMode a = simple_vrm
  | error => supportsFBX c = false
  end.
Proof.
  rewrite acquired_session. unfold initAvatar, initAvatarFrom.
  pose proof (loadGvrmAvatarFrom_first env candidates s) as F.
  destruct (loadGvrmAvatarFrom env candidates s) as [[e|a] s1];
    [reflexivity|].
  destruct (F a eq_refl) as (pre & post & _ & _ & _ & K & A & _).
  cbn [snd] in A. clear F.
  pose proof (avatars_switchAnimation (desiredAnimationIndex (animation s1))
                (setGvrmInstance a s1)) as E.
  change (animation (setGvrmInstance a s1)) with (animation s1).
  destruct (switchAnimation _ (setGvrmInstance a s1)) as [[e|] s2];
    cbn [snd] in E; [reflexivity|].
  cbn zeta. rewrite E. cbn. rewrite A. cbn.
  destruct (_ && _).
  - destruct K as (C & _ & S & M). rewrite M. split; [exact S|]. eauto.
  - rewrite K. cbn. split; [reflexivity|]. eauto.
Qed.

(** Every step of the page keeps capabilities, phase and avatar in
    agreement. *)
Lemma consistent_step pg input :
  consistent pg -> consistent (pageStep sin env pg input).
Proof.
  intros H.
  destruct input as [ev|key k|index| | |f|nx ny|reading]; cbn [pageStep].
  - now apply consistent_script.
  - unfold click. destruct (_ !! k) as [b|]; [|exact H].
    destruct (Dom.disabled b); [exact H|].
    destruct (String.eqb key "animation"); [now apply consistent_script|].
    destruct (String.eqb key "audio"); [now apply consistent_script|].
    now apply consistent_palette.
  - now apply consistent_palette.
  - destruct (phase pg) eqn:P; try exact H.
    pose proof (acquired_late (session pg)) as L.
    pose proof (acquired_capabilities (session pg)) as C.
    destruct (acquired env (session pg)) as [s ph]. cbn [fst snd] in L, C.
    unfold consistent. cbn. rewrite L. exact C.
  - now destruct (unlock pg).
  - destruct (unlock pg); try exact H. revert H. apply consistent_same.
    + cbn. unfold unlocked. destruct f; [reflexivity|].
      destruct (audio (sound (session pg))) as [a|]; [|reflexivity].
      now destruct (_ && _).
    + reflexivity.
  - exact H.
  - now destruct (phase pg).
Qed.

(** X21.  In every state the page can reach, the capabilities are
    ['loading'] exactly until [loadGvrmAvatar()] has settled; after
    that they support FBX exactly in mode ['gvrm'], where the avatar is
    a GVRM instance; in mode ['simple-vrm'] the avatar is a
    [SimpleVRMWrapper]; and in the two modes the capabilities are those
    of the avatar. *)
Theorem capabilities_follow_init (seed : float) (inputs : list Input) :
  let pg := pageRun sin env (boot seed) inputs in
  let c := avatarCapabilities (avatars (session pg)) in
  consistent pg
  /\ (supportsFBX c = true <-> mode c = gvrm)
  /\ (mode c = loading <-> early (phase pg) = true).
Proof.
  intros pg c.
  assert (consistent pg) as H.
  { apply (pageRun_invariant sin env consistent).
    - intros p i. apply consistent_step.
    - now split. }
  split; [exact H|]. unfold consistent in H. fold c in H.
  destruct (early (phase pg)).
  - destruct H as [-> _]. cbn. split; split; try discriminate; reflexivity.
  - destruct (mode c) eqn:M; try contradiction.
    + destruct H as [S _]. rewrite S. split; split; try discriminate;
        reflexivity.
    + destruct H as [S _]. rewrite S. split; split; discriminate.
    + rewrite H. split; split; discriminate.
Qed.

(** ** Clicks *)

(** X22.  In every state the page can reach, a click on a button does
    nothing, or calls the handler of its row with an index that has an
    option; a click on an animation button does nothing unless the
    capabilities support FBX. *)
Theorem click_reaches_handler
    (seed : float) (inputs : list Input) (key : string) (k : nat) :
  let pg := pageRun sin env (boot seed) inputs in
  let c := avatarCapabilities (avatars (session pg)) in
  let after := pageStep sin env pg (Click key k) in
  (after = pg
   \/ (key = "animation" /\ supportsFBX c = true
       /\ is_Some (optionAt animationOptions (Z.of_nat k))
       /\ after = pageStep sin env pg (Script (SelectAnimation (Z.of_nat k))))
   \/ (key = "audio"
       /\ is_Some (optionAt audioOptions (Z.of_nat k))
       /\ after = pageStep sin env pg (Script (SelectAudio (Z.of_nat k))))
   \/ (key = "palette"
       /\ is_Some (Render.paletteAt (Z.of_nat k))
       /\ after = pageStep sin env pg (PaletteSelect (Z.of_nat k)))).
Proof.
  intros pg c after. subst after. cbn [pageStep]. unfold click.
  destruct (buttonsAfter_length (session pg)) as (La & Lb & Lc).
  destruct (_ !! k) as [b|] eqn:L; [|now left].
  pose proof (lookup_lt_Some _ _ _ L) as Lt.
  destruct (Dom.disabled b) eqn:D; [now left|].
  destruct (String.eqb_spec key "animation") as [->|Na].
  { right. left. change (Dom.buttonsOf "animation" ?x)
      with (Dom.animationButtons x) in *.
    rewrite La in Lt. split; [reflexivity|]. split.
    - assert (buttonsSynced (session pg)) as H.
      { apply (pageRun_invariant sin env
                 (fun pg => buttonsSynced (session pg))).
        - intros p i V. apply pageStep_session; try exact V.
          + intros s0 ev. apply buttonsSynced_step.
          + intros s0 index. apply buttonsSynced_mark.
          + intros s0. apply buttonsSynced_initAvatarFrom.
          + intros s0 f. apply buttonsSynced_unlocked.
        - reflexivity. }
      apply buttonsAfter_enabledAs in H. destruct (H k b L) as (A & _).
      rewrite D in A. cbn in A. fold c in A.
      now destruct (supportsFBX c).
    - split; [|reflexivity]. unfold optionAt.
      destruct (0 <=? Z.of_nat k) eqn:E; [|apply Z.leb_gt in E; lia].
      rewrite Nat2Z.id. apply lookup_lt_is_Some. cbn. lia. }
  destruct (String.eqb_spec key "audio") as [->|Nb].
  { right. right. left. change (Dom.buttonsOf "audio" ?x)
      with (Dom.audioButtons x) in *.
    rewrite Lb in Lt. split; [reflexivity|].
    split; [|reflexivity]. unfold optionAt.
    destruct (0 <=? Z.of_nat k) eqn:E; [|apply Z.leb_gt in E; lia].
    rewrite Nat2Z.id. apply lookup_lt_is_Some. cbn. lia. }
  right. right. right.
  assert (key = "palette") as ->.
  { unfold Dom.buttonsOf in L.
    destruct (String.eqb_spec key "animation"); [contradiction|].
    destruct (String.eqb_spec key "audio"); [contradiction|].
    destruct (String.eqb_spec key "palette"); [assumption|].
    now rewrite lookup_nil in L. }
  change (Dom.buttonsOf "palette" ?x) with (Dom.paletteButtons x) in *.
  rewrite Lc in Lt. split; [reflexivity|].
  split; [|reflexivity]. unfold Render.paletteAt.
  destruct (0 <=? Z.of_nat k) eqn:E; [|apply Z.leb_gt in E; lia].
  rewrite Nat2Z.id. apply lookup_lt_is_Some. cbn. lia.
Qed.

End BootFacts.

Section BootWitnesses.
Import Js AudioCache Session Trace Requests Page.

Lemma boot_waits_for_resume_witness :
  let sine := fun x : float => x in
  let reading := {| clockDelta := 0.016%float; analyserAverage := 64%float;
                    hasUpdate := true; hasRotation := true |} in
  let inputs := [ PointerDown; UnlockSettled None; Script (SelectAudio 1);
                  AcquisitionSettled; AnimationFrame reading ] in
  forallb (fun input => negb (settlesResume 1 input)) inputs = true
  /\ phase (pageRun sine Samples.extendedEnv
              (pageStep sine Samples.extendedEnv (boot 0.5%float)
                 (Script (LoaderSettled 0 (inr (Decoded 0))))) inputs)
     = AwaitingAudio 1.
Proof.
  intros sine reading inputs. split; [reflexivity|].
  exact (proj1 (boot_waits_for_resume sine Samples.extendedEnv 0.5%float
                  (Decoded 0) inputs eq_refl)).
Defined.

End BootWitnesses.

(* ===================================================================== *)
(** * The audio request that is not superseded *)
(* ===================================================================== *)

Section CommitFacts.
Import Js AudioCache Session Requests Page.

(** An animation event adds and removes calls of [switchAnimation]
    only. *)
Lemma tasks_animation_event s ev t :
  match ev with SelectAnimation _ | ChangeFBXSettled _ _ => True | _ => False end ->
  audioRid t <> None ->
  (t ∈ tasks (step s ev) <-> t ∈ tasks s).
Proof.
  intros H A. destruct ev as [i|i|r f|p result|r f]; try contradiction;
    cbn [step].
  - unfold switchAnimation.
    destruct (negb (supportsFBX _)); [reflexivity|].
    destruct (gvrmInstance _) as [inst|]; [|reflexivity].
    destruct (negb (isReady inst)); [reflexivity|].
    destruct (optionAt animationOptions i); [|reflexivity].
    destruct (class inst); cbn.
    + rewrite elem_of_app, list_elem_of_singleton. split; [|tauto].
      intros [In| ->]; [exact In | now cbn in A].
    + unfold afterChangeFBX. cbn. now rewrite Z.eqb_refl.
  - destruct (takeTask _ _) as [[t' others]|] eqn:E; [|reflexivity].
    destruct (takeTask_Some _ _ _ _ E) as [Ft M].
    destruct t' as [j r' o'| |]; try reflexivity.
    assert (t ∈ others <-> t ∈ tasks s) as K.
    { rewrite M. split; [tauto|]. intros [->|In]; [now cbn in A | exact In]. }
    destruct f; [exact K|]. unfold afterChangeFBX.
    now destruct (_ =? _).
Qed.

Lemma sound_animation_event s ev :
  match ev with SelectAnimation _ | ChangeFBXSettled _ _ => True | _ => False end ->
  sound (step s ev) = sound s /\ cache (step s ev) = cache s.
Proof.
  intros H. destruct ev as [i|i|r f|p result|r f]; try contradiction.
  - apply switchAnimation_sound.
  - split; [apply changeFBXSettled_sound|]. now rewrite step_cache.
Qed.

(** Calls of other requests leave the session as it is, but for the
    console, when their buffer arrives. *)
Lemma stale_resumeAll result rid waiting :
  forall s,
    audioRequestId (sound s) = rid ->
    List.Forall (fun t => audioRid t <> Some rid) waiting ->
    let s' := fold_left (resumeWithBuffer result) waiting s in
    sound s' = sound s /\ tasks s' = tasks s /\ cache s' = cache s.
Proof.
  induction waiting as [|t ts IH]; intros s R H; [now repeat split|].
  apply Forall_cons in H as [Ht Hts]. cbn [fold_left].
  assert (sound (resumeWithBuffer result s t) = sound s
          /\ tasks (resumeWithBuffer result s t) = tasks s
          /\ cache (resumeWithBuffer result s t) = cache s) as (A & B & C).
  { destruct t, result; cbn [resumeWithBuffer]; try now repeat split.
    rewrite stale_buffer_dropped; [now repeat split|].
    cbn in Ht. congruence. }
  destruct (IH (resumeWithBuffer result s t)) as (A' & B' & C');
    [congruence | exact Hts |].
  cbn zeta. rewrite A', B', C'. now repeat split.
Qed.

Lemma decoding_other p q result c c' :
  q <> p ->
  match result with
  | inr b => loaderResolves q b c
  | inl e => loaderRejects q e c
  end = Some c' ->
  decoding p c = true -> decoding p c' = true.
Proof.
  intros Ne E D. unfold decoding in *.
  destruct (promises c !! p) as [[]|] eqn:P; try discriminate.
  destruct (urlOf p c) as [u|] eqn:Up; [|discriminate].
  destruct result as [e|b].
  - unfold loaderRejects in E. destruct (urlOf q c); [|discriminate].
    destruct (promises c !! q) as [[]|]; try discriminate.
    injection E as [= <-]. cbn. unfold urlOf in *. cbn.
    rewrite list_lookup_insert_ne by exact Ne. now rewrite P, Up.
  - unfold loaderResolves in E. destruct (urlOf q c); [|discriminate].
    destruct (promises c !! q) as [[]|]; try discriminate.
    injection E as [= <-]. cbn. unfold urlOf in *. cbn.
    rewrite lookup_app_l.
    + rewrite list_lookup_insert_ne by exact Ne. now rewrite P, Up.
    + rewrite length_insert. eapply lookup_lt_Some, P.
Qed.

Lemma awaitingBuffer_step i rid o p s ev :
  isSelectAudio ev = false ->
  match ev with LoaderSettled q _ => negb (Nat.eqb q p) | _ => true end = true ->
  awaitingBuffer i rid o p s -> awaitingBuffer i rid o p (step s ev).
Proof.
  intros NA NL (R & De & A & D & In & U).
  destruct ev as [j|j|r f|q result|r f]; try discriminate.
  - destruct (sound_animation_event s (SelectAnimation j) I) as [So Ca].
    unfold awaitingBuffer. rewrite So, Ca.
    split; [exact R|]. split; [exact De|]. split; [exact A|].
    split; [exact D|]. split.
    + now apply (tasks_animation_event s (SelectAnimation j)).
    + intros t T E. apply U; [|exact E].
      apply (tasks_animation_event s (SelectAnimation j)) in T;
        [exact T | exact I | congruence].
  - destruct (sound_animation_event s (ChangeFBXSettled r f) I) as [So Ca].
    unfold awaitingBuffer. rewrite So, Ca.
    split; [exact R|]. split; [exact De|]. split; [exact A|].
    split; [exact D|]. split.
    + now apply (tasks_animation_event s (ChangeFBXSettled r f)).
    + intros t T E. apply U; [|exact E].
      apply (tasks_animation_event s (ChangeFBXSettled r f)) in T;
        [exact T | exact I | congruence].
  - apply negb_true_iff, Nat.eqb_neq in NL. cbn [step].
    destruct (match result with inl _ => _ | inr _ => _ end) as [c|] eqn:E;
      [|now repeat split].
    pose proof (decoding_other p q result _ c NL E D) as D'.
    destruct (stale_resumeAll result rid
                (List.filter (awaitsBuffer q) (tasks s))
                (withTasks (List.filter (fun t => negb (awaitsBuffer q t))
                              (tasks s)) (withCache c s)) R)
      as (So & Ta & Ca).
    { apply List.Forall_forall. intros t [T W]%List.filter_In E'.
      apply list_elem_of_In in T. rewrite (U t T E') in W. cbn in W.
      apply Nat.eqb_eq in W. congruence. }
    cbn zeta in So, Ta, Ca. unfold awaitingBuffer. rewrite So, Ta, Ca. cbn.
    split; [exact R|]. split; [exact De|]. split; [exact A|].
    split; [exact D'|]. split.
    + apply list_elem_of_In, List.filter_In.
      split; [now apply list_elem_of_In|]. cbn.
      apply negb_true_iff, Nat.eqb_neq. congruence.
    + intros t [T _]%list_elem_of_In%List.filter_In E'.
      apply U; [now apply list_elem_of_In | exact E'].
  - cbn [step].
    destruct (takeTask _ _) as [[t others]|] eqn:E; [|now repeat split].
    destruct (takeTask_Some _ _ _ _ E) as [Ft M].
    destruct t as [| |j r' o']; try now repeat split.
    assert (AwaitBuffer i rid o p ∈ others) as In'.
    { apply M in In. destruct In as [In|In]; [discriminate In | exact In]. }
    assert (forall t, t ∈ others -> audioRid t = Some rid ->
                      t = AwaitBuffer i rid o p) as U'.
    { intros t T. apply U, M. now right. }
    destruct f as [e|].
    + now repeat split.
    + unfold afterResume. cbn [withTasks sound audio].
      destruct A as [a Ea]. rewrite Ea.
      unfold commitAudio, awaitingBuffer.
      destruct (isPlaying a); cbn; (split; [exact R|]);
        (split; [exact De|]); (split; [eauto|]); now repeat split.
Qed.

Lemma awaitingBuffer_run i rid o p evs :
  forall s,
    noAudioRequest evs = true -> undecoded p evs = true ->
    awaitingBuffer i rid o p s -> awaitingBuffer i rid o p (run s evs).
Proof.
  induction evs as [|ev evs IH]; intros s NA NL W; [exact W|].
  cbn in NA, NL. apply andb_true_iff in NA as [NA1 NA2].
  apply andb_true_iff in NL as [NL1 NL2]. apply negb_true_iff in NA1.
  change (run s (ev :: evs)) with (run (step s ev) evs).
  apply IH; [exact NA2 | exact NL2 |]. now apply awaitingBuffer_step.
Qed.

(** The audio object once [switchAudio] has bound [b]. *)
Lemma bound_audio a b o :
  let a0 := if isPlaying a then stop a else a in
  let a' := setVolume (default 0.6%float (audioVolume o))
              (setLoop true (setBuffer b a0)) in
  buffer a' = Some b /\ loop a' = true
  /\ volume a' = default 0.6%float (audioVolume o)
  /\ (isPlaying a' = true -> source a' = Some b).
Proof.
  cbn zeta. destruct (isPlaying a) eqn:P; cbn; rewrite ?P;
    repeat split; discriminate.
Qed.

(** The buffer arrives: the calls that wait for it are resumed in
    order, the latest one binds it and goes on to [resume()]. *)
Lemma buffer_resumeAll i rid o p b waiting :
  forall s,
    audioRequestId (sound s) = rid ->
    desiredAudioIndex (sound s) = i ->
    is_Some (audio (sound s)) ->
    (forall t, t ∈ tasks s -> audioRid t = Some rid ->
               t = AwaitResume i rid o) ->
    List.Forall (fun t => audioRid t = Some rid ->
                          t = AwaitBuffer i rid o p) waiting ->
    (AwaitBuffer i rid o p ∈ waiting \/ awaitingResume i rid o b s) ->
    awaitingResume i rid o b
      (fold_left (resumeWithBuffer (inr b)) waiting s).
Proof.
  induction waiting as [|t ts IH]; intros s R De A U H G.
  - destruct G as [G|G]; [now apply elem_of_nil in G | exact G].
  - apply Forall_cons in H as [Ht Hts]. cbn [fold_left].
    destruct (decide (audioRid t = Some rid)) as [E|E].
    + rewrite (Ht E). cbn [resumeWithBuffer]. unfold afterBuffer.
      rewrite R, Z.eqb_refl. cbn [negb]. destruct A as [a Ea]. rewrite Ea.
      apply IH; cbn; try assumption; [eauto | |].
      * intros t' [T|T]%elem_of_app E'; [now apply U|].
        now apply list_elem_of_singleton in T.
      * right. repeat split; cbn; try assumption.
        -- eexists. split; [reflexivity|]. apply bound_audio.
        -- apply elem_of_app. right. now apply list_elem_of_singleton.
        -- intros t' [T|T]%elem_of_app E'; [now apply U|].
           now apply list_elem_of_singleton in T.
    + assert (resumeWithBuffer (inr b) s t = s) as ->.
      { destruct t; cbn [resumeWithBuffer]; try reflexivity.
        apply stale_buffer_dropped. cbn in E. congruence. }
      apply IH; try assumption.
      destruct G as [G|G]; [|now right].
      apply elem_of_cons in G as [G|G]; [|now left].
      subst t. now cbn in E.
Qed.

Lemma buffer_arrives i rid o p b s :
  awaitingBuffer i rid o p s ->
  awaitingResume i rid o b (step s (LoaderSettled p (inr b))).
Proof.
  intros (R & De & A & D & In & U). cbn [step]. unfold decoding in D.
  unfold loaderResolves.
  destruct (promises (cache s) !! p) as [[]|]; try discriminate.
  destruct (urlOf p (cache s)); [|discriminate].
  apply buffer_resumeAll with (p := p); cbn; try assumption.
  - intros t [T W]%list_elem_of_In%List.filter_In E.
    apply list_elem_of_In in T. rewrite (U t T E) in W. cbn in W.
    now rewrite Nat.eqb_refl in W.
  - apply List.Forall_forall. intros t [T _]%List.filter_In.
    apply U. now apply list_elem_of_In.
  - left. apply list_elem_of_In, List.filter_In.
    split; [now apply list_elem_of_In|]. cbn. apply Nat.eqb_refl.
Qed.

Lemma awaitingResume_step i rid o b s ev :
  isSelectAudio ev = false ->
  match ev with ResumeSettled r _ => negb (r =? rid) | _ => true end = true ->
  awaitingResume i rid o b s -> awaitingResume i rid o b (step s ev).
Proof.
  intros NA NR (R & De & A & In & U).
  destruct ev as [j|j|r f|q result|r f]; try discriminate.
  - destruct (sound_animation_event s (SelectAnimation j) I) as [So Ca].
    unfold awaitingResume. rewrite So.
    split; [exact R|]. split; [exact De|]. split; [exact A|]. split.
    + now apply (tasks_animation_event s (SelectAnimation j)).
    + intros t T E. apply U; [|exact E].
      apply (tasks_animation_event s (SelectAnimation j)) in T;
        [exact T | exact I | congruence].
  - destruct (sound_animation_event s (ChangeFBXSettled r f) I) as [So Ca].
    unfold awaitingResume. rewrite So.
    split; [exact R|]. split; [exact De|]. split; [exact A|]. split.
    + now apply (tasks_animation_event s (ChangeFBXSettled r f)).
    + intros t T E. apply U; [|exact E].
      apply (tasks_animation_event s (ChangeFBXSettled r f)) in T;
        [exact T | exact I | congruence].
  - cbn [step].
    destruct (match result with inl _ => _ | inr _ => _ end) as [c|] eqn:E;
      [|now repeat split].
    destruct (stale_resumeAll result rid
                (List.filter (awaitsBuffer q) (tasks s))
                (withTasks (List.filter (fun t => negb (awaitsBuffer q t))
                              (tasks s)) (withCache c s)) R)
      as (So & Ta & Ca).
    { apply List.Forall_forall. intros t [T W]%List.filter_In E'.
      apply list_elem_of_In in T. rewrite (U t T E') in W. discriminate W. }
    cbn zeta in So, Ta, Ca. unfold awaitingResume. rewrite So, Ta. cbn.
    split; [exact R|]. split; [exact De|]. split; [exact A|]. split.
    + apply list_elem_of_In, List.filter_In.
      split; [now apply list_elem_of_In | reflexivity].
    + intros t [T _]%list_elem_of_In%List.filter_In E'.
      apply U; [now apply list_elem_of_In | exact E'].
  - apply negb_true_iff, Z.eqb_neq in NR. cbn [step].
    destruct (takeTask _ _) as [[t others]|] eqn:E; [|now repeat split].
    destruct (takeTask_Some _ _ _ _ E) as [Ft M].
    destruct t as [| |j r' o']; try now repeat split.
    cbn in Ft. apply Z.eqb_eq in Ft. subst r'.
    assert (AwaitResume i rid o ∈ others) as In'.
    { apply M in In. destruct In as [In|In]; [congruence | exact In]. }
    assert (forall t, t ∈ others -> audioRid t = Some rid ->
                      t = AwaitResume i rid o) as U'.
    { intros t T. apply U, M. now right. }
    destruct f as [e|].
    + now repeat split.
    + unfold afterResume. cbn [withTasks sound audio].
      destruct A as (a & Ea & B & L & V & S). rewrite Ea.
      unfold commitAudio, awaitingResume.
      assert (exists a', Some (play a) = Some a' /\ buffer a' = Some b
                /\ loop a' = true
                /\ volume a' = default 0.6%float (audioVolume o)
                /\ (isPlaying a' = true -> source a' = Some b)) as A'.
      { exists (play a). split; [reflexivity|]. unfold play.
        destruct (isPlaying a) eqn:P; cbn; rewrite ?P; now repeat split. }
      destruct (isPlaying a); cbn; (split; [exact R|]);
        (split; [exact De|]); (split; [exact A'|]); now split.
Qed.

Lemma awaitingResume_run i rid o b evs :
  forall s,
    noAudioRequest evs = true -> unresumed rid evs = true ->
    awaitingResume i rid o b s -> awaitingResume i rid o b (run s evs).
Proof.
  induction evs as [|ev evs IH]; intros s NA NR W; [exact W|].
  cbn in NA, NR. apply andb_true_iff in NA as [NA1 NA2].
  apply andb_true_iff in NR as [NR1 NR2]. apply negb_true_iff in NA1.
  change (run s (ev :: evs)) with (run (step s ev) evs).
  apply IH; [exact NA2 | exact NR2 |]. now apply awaitingResume_step.
Qed.

(** The resume of the latest call resolves: the call commits. *)
Lemma resume_arrives i rid o b s :
  awaitingResume i rid o b s ->
  let s' := step s (ResumeSettled rid None) in
  currentAudioIndex (sound s') = i
  /\ desiredAudioIndex (sound s') = i
  /\ audio (sound s')
     = Some {| isPlaying := true; buffer := Some b; loop := true;
               volume := default 0.6%float (audioVolume o);
               source := Some b |}
  /\ audioAnalyser (sound s') = Some {| fftSize := 64 |}.
Proof.
  intros (R & De & (a & Ea & B & L & V & S) & In & U). cbn zeta. cbn [step].
  destruct (takeTask_exists (awaitsResume rid) (tasks s) _ In)
    as (t & others & E); [cbn; apply Z.eqb_refl|].
  rewrite E. destruct (takeTask_Some _ _ _ _ E) as [Ft M].
  assert (t = AwaitResume i rid o) as ->.
  { apply U; [apply M; now left|].
    destruct t; try discriminate Ft. cbn in Ft. apply Z.eqb_eq in Ft.
    now subst. }
  unfold afterResume. cbn [withTasks sound audio]. rewrite Ea.
  unfold commitAudio. cbn. repeat split; try assumption.
  f_equal. unfold play. destruct a as [pl bu lo vo so]. cbn in *.
  destruct pl; [rewrite (S eq_refl)|]; now subst.
Qed.

(** The request of [switchAudio] when the loader has yet to decode the
    file. *)
Lemma request_awaits i o p c s :
  callsIssued s = true ->
  is_Some (audio (sound s)) ->
  optionAt audioOptions i = Some o ->
  loadAudioBuffer (audioFile o) (cache s) = (p, c) ->
  decoding p c = true ->
  awaitingBuffer i (audioRequestId (sound s) + 1) o p
    (step s (SelectAudio i)).
Proof.
  intros CI A O L D. cbn [step]. unfold switchAudio. rewrite O. cbn.
  rewrite L. cbn. pose proof D as D'. unfold decoding in D'.
  destruct (promises c !! p) as [[]|]; try discriminate. cbn.
  repeat split; try assumption.
  - apply elem_of_app. right. now apply list_elem_of_singleton.
  - intros t [T|T]%elem_of_app E; [|now apply list_elem_of_singleton in T].
    unfold callsIssued in CI.
    apply (proj1 (forallb_forall _ _)) with (x := t) in CI;
      [|now apply list_elem_of_In].
    rewrite E in CI. lia.
Qed.

(** X23.  The latest audio request wins in the end.  A request whose
    file is still to be decoded, that no other audio request follows,
    commits once the loader has given the buffer and its [resume()] has
    resolved, whatever else happens in between (stale calls that
    resume, other files that arrive, animation switches): the track
    plays the buffer of the request, looping, at the volume of the
    option, the analyser is there, and the current index is the desired
    one. *)
Theorem audio_request_commits (s : Session) (i : Z) (o : AudioOption)
    (p : nat) (c : Cache) (b : AudioBuffer) (evs1 evs2 : list Event) :
  callsIssued s = true ->
  is_Some (audio (sound s)) ->
  optionAt audioOptions i = Some o ->
  loadAudioBuffer (audioFile o) (cache s) = (p, c) ->
  decoding p c = true ->
  noAudioRequest (evs1 ++ evs2) = true ->
  undecoded p evs1 = true ->
  let requestId := audioRequestId (sound s) + 1 in
  unresumed requestId evs2 = true ->
  let s' := run s (SelectAudio i :: evs1 ++ LoaderSettled p (inr b)
                     :: evs2 ++ [ResumeSettled requestId None]) in
  currentAudioIndex (sound s') = i
  /\ desiredAudioIndex (sound s') = i
  /\ audio (sound s')
     = Some {| isPlaying := true; buffer := Some b; loop := true;
               volume := default 0.6%float (audioVolume o);
               source := Some b |}
  /\ audioAnalyser (sound s') = Some {| fftSize := 64 |}.
Proof.
  intros CI A O L D NA NL rid NR. cbn zeta.
  unfold noAudioRequest in NA. rewrite forallb_app in NA.
  apply andb_true_iff in NA as [NA1 NA2].
  change (run s (SelectAudio i :: ?l)) with (run (step s (SelectAudio i)) l).
  unfold run. rewrite fold_left_app. cbn [fold_left].
  rewrite fold_left_app. cbn [fold_left].
  apply resume_arrives, awaitingResume_run; [exact NA2 | exact NR |].
  apply buffer_arrives, awaitingBuffer_run; [exact NA1 | exact NL |].
  now apply request_awaits with (c := c).
Qed.

(** The request of [switchAudio] when the file is decoded already. *)
Lemma request_bound i o p c b s :
  callsIssued s = true ->
  is_Some (audio (sound s)) ->
  optionAt audioOptions i = Some o ->
  loadAudioBuffer (audioFile o) (cache s) = (p, c) ->
  promises c !! p = Some (Fulfilled b) ->
  awaitingResume i (audioRequestId (sound s) + 1) o b
    (step s (SelectAudio i)).
Proof.
  intros CI [a Ea] O L F. cbn [step]. unfold switchAudio. rewrite O. cbn.
  rewrite L. cbn. rewrite F. unfold afterBuffer. cbn.
  rewrite Z.eqb_refl, Ea. cbn. repeat split; cbn.
  - eexists. split; [reflexivity|]. apply bound_audio.
  - apply elem_of_app. right. now apply list_elem_of_singleton.
  - intros t [T|T]%elem_of_app E; [|now apply list_elem_of_singleton in T].
    unfold callsIssued in CI.
    apply (proj1 (forallb_forall _ _)) with (x := t) in CI;
      [|now apply list_elem_of_In].
    rewrite E in CI. lia.
Qed.

(** X24.  A request for a file that is decoded already calls no loader
    and waits for [resume()] only: once that has resolved, and no other
    audio request has come, the track plays the buffer of the cache. *)
Theorem cached_request_commits (s : Session) (i : Z) (o : AudioOption)
    (p : nat) (c : Cache) (b : AudioBuffer) (evs : list Event) :
  callsIssued s = true ->
  is_Some (audio (sound s)) ->
  optionAt audioOptions i = Some o ->
  loadAudioBuffer (audioFile o) (cache s) = (p, c) ->
  promises c !! p = Some (Fulfilled b) ->
  noAudioRequest evs = true ->
  let requestId := audioRequestId (sound s) + 1 in
  unresumed requestId evs = true ->
  let s' := run s (SelectAudio i :: evs
                     ++ [ResumeSettled requestId None]) in
  loads (cache s') = loads (cache s)
  /\ currentAudioIndex (sound s') = i
  /\ desiredAudioIndex (sound s') = i
  /\ audio (sound s')
     = Some {| isPlaying := true; buffer := Some b; loop := true;
               volume := default 0.6%float (audioVolume o);
               source := Some b |}
  /\ audioAnalyser (sound s') = Some {| fftSize := 64 |}.
Proof.
  intros CI A O L F NA rid NR. cbn zeta.
  change (run s (SelectAudio i :: ?l)) with (run (step s (SelectAudio i)) l).
  split; [|unfold run; rewrite fold_left_app; cbn [fold_left]].
  - assert (noAudioRequest (evs ++ [ResumeSettled rid None]) = true) as NA'.
    { unfold noAudioRequest in *. rewrite forallb_app, NA. reflexivity. }
    transitivity (loads (cache (step s (SelectAudio i)))).
    + generalize (step s (SelectAudio i)).
      induction (evs ++ [ResumeSettled rid None]) as [|ev l IH]; intros s0;
        [reflexivity|].
      cbn in NA'. apply andb_true_iff in NA' as [N1 N2].
      change (run s0 (ev :: l)) with (run (step s0 ev) l).
      rewrite (IH N2). rewrite step_cache.
      destruct ev as [j|j|r f|q result|r f]; try discriminate N1;
        try reflexivity.
      cbn. destruct result as [e|b0]; cbn.
      * unfold loaderRejects. destruct (urlOf q _); [|reflexivity].
        now destruct (promises _ !! q) as [[]|].
      * unfold loaderResolves. destruct (urlOf q _); [|reflexivity].
        now destruct (promises _ !! q) as [[]|].
    + rewrite step_cache. cbn. rewrite O. cbn.
      unfold loadAudioBuffer in L |- *.
      destruct (buffers (cache s) !! audioFile o); [reflexivity|].
      injection L as [= <- <-]. cbn in F.
      rewrite lookup_app_r in F by lia. rewrite Nat.sub_diag in F.
      discriminate F.
  - apply resume_arrives, awaitingResume_run; [exact NA | exact NR |].
    now apply request_bound with (p := p) (c := c).
Qed.

(** ** The precondition is kept by every event *)

Lemma callsIssued_spec s :
  callsIssued s = true
  <-> forall t r, t ∈ tasks s -> audioRid t = Some r ->
                  r <= audioRequestId (sound s).
Proof.
  unfold callsIssued. rewrite forallb_forall. split.
  - intros H t r T E. apply list_elem_of_In, H in T. rewrite E in T. lia.
  - intros H t T. destruct (audioRid t) as [r|] eqn:E; [|reflexivity].
    apply Z.leb_le, (H t r); [now apply list_elem_of_In | exact E].
Qed.

Lemma callsIssued_resumeAll result waiting :
  forall s,
    callsIssued s = true ->
    callsIssued (fold_left (resumeWithBuffer result) waiting s) = true.
Proof.
  induction waiting as [|t ts IH]; intros s H; [exact H|].
  cbn [fold_left]. apply IH.
  destruct t as [|i r o p|], result as [e|b]; cbn [resumeWithBuffer];
    try exact H.
  unfold afterBuffer. destruct (r =? _) eqn:R; cbn [negb]; [|exact H].
  destruct (audio (sound s)); [|exact H].
  apply Z.eqb_eq in R. apply callsIssued_spec. cbn.
  intros t r' [T|T]%elem_of_app E.
  - now apply (proj1 (callsIssued_spec s) H t).
  - apply list_elem_of_singleton in T. subst t. cbn in E. injection E as [= <-]. lia.
Qed.

Lemma callsIssued_step s ev :
  callsIssued s = true -> callsIssued (step s ev) = true.
Proof.
  intros H. pose proof (proj1 (callsIssued_spec s) H) as K.
  destruct ev as [i|i|r f|p result|r f].
  - apply callsIssued_spec. intros t r T E.
    destruct (sound_animation_event s (SelectAnimation i) I) as [-> _].
    apply (tasks_animation_event s (SelectAnimation i)) in T;
      [now apply (K t) | exact I | congruence].
  - apply callsIssued_spec. cbn [step]. unfold switchAudio.
    destruct (optionAt audioOptions i) as [o|]; cbn.
    + destruct (loadAudioBuffer _ _) as [p c]. cbn.
      destruct (promises c !! p) as [[|b|e]|]; cbn.
      * intros t r [T|T]%elem_of_app E.
        -- specialize (K t r T E). lia.
        -- apply list_elem_of_singleton in T. subst t. cbn in E.
           injection E as [= <-]. lia.
      * unfold afterBuffer. cbn. rewrite Z.eqb_refl. cbn.
        destruct (audio (sound s)); cbn.
        -- intros t r [T|T]%elem_of_app E.
           ++ specialize (K t r T E). lia.
           ++ apply list_elem_of_singleton in T. subst t. cbn in E.
              injection E as [= <-]. lia.
        -- intros t r T E. specialize (K t r T E). lia.
      * intros t r T E. specialize (K t r T E). lia.
      * intros t r [T|T]%elem_of_app E.
        -- specialize (K t r T E). lia.
        -- apply list_elem_of_singleton in T. subst t. cbn in E.
           injection E as [= <-]. lia.
    + intros t r T E. specialize (K t r T E). lia.
  - apply callsIssued_spec. intros t r' T E.
    destruct (sound_animation_event s (ChangeFBXSettled r f) I) as [-> _].
    apply (tasks_animation_event s (ChangeFBXSettled r f)) in T;
      [now apply (K t) | exact I | congruence].
  - cbn [step].
    destruct (match result with inl _ => _ | inr _ => _ end); [|exact H].
    apply callsIssued_resumeAll, callsIssued_spec. cbn.
    intros t r [T _]%list_elem_of_In%List.filter_In.
    apply K. now apply list_elem_of_In.
  - cbn [step].
    destruct (takeTask _ _) as [[t others]|] eqn:E; [|exact H].
    destruct (takeTask_Some _ _ _ _ E) as [Ft M].
    destruct t as [| |j r' o']; try exact H.
    assert (forall t r, t ∈ others -> audioRid t = Some r ->
                        r <= audioRequestId (sound s)) as K'.
    { intros t r0 T. apply K, M. now right. }
    apply callsIssued_spec. destruct f as [e|]; [exact K'|].
    unfold afterResume. cbn [withTasks sound audio].
    destruct (audio (sound s)) as [a|]; [|exact K'].
    unfold commitAudio. now destruct (isPlaying a).
Qed.

(** In every run from start-up the suspended calls carry issued
    request ids, and the audio source is there. *)
Lemma callsIssued_run evs :
  callsIssued (run initial evs) = true
  /\ is_Some (audio (sound (run initial evs))).
Proof.
  split.
  - induction evs as [|ev evs IH] using rev_ind; [reflexivity|].
    unfold run in *. rewrite fold_left_app. now apply callsIssued_step.
  - assert (valid (run initial evs)) as (_ & _ & _ & a & Ea & _).
    { induction evs as [|ev evs IH] using rev_ind; [exact valid_initial|].
      unfold run in *. rewrite fold_left_app. now apply valid_step. }
    eauto.
Qed.

End CommitFacts.

Lemma cached_request_commits_witness :
  let s := Session.run Session.initial
             [Session.SelectAudio 1;
              Session.LoaderSettled 0 (inr (AudioCache.Decoded 7));
              Session.SelectAudio 2] in
  let s' := Session.run s
              [Session.SelectAudio 1; Session.ResumeSettled 3 None] in
  Session.currentAudioIndex (Session.sound s') = 1.
Proof.
  intros s s'.
  refine (proj1 (proj2 (cached_request_commits s 1 _ _ _
                   (AudioCache.Decoded 7) []
                   eq_refl _ eq_refl eq_refl eq_refl eq_refl eq_refl))).
  eexists. reflexivity.
Defined.

Lemma audio_request_commits_witness :
  let s' := Session.run Session.initial
              [Session.SelectAudio 1; Session.SelectAnimation 2;
               Session.LoaderSettled 0 (inr (AudioCache.Decoded 7));
               Session.ResumeSettled 1 None] in
  Session.currentAudioIndex (Session.sound s') = 1.
Proof.
  refine (proj1 (audio_request_commits Session.initial 1 _ 0 _
                   (AudioCache.Decoded 7)
                   [Session.SelectAnimation 2] []
                   eq_refl _ eq_refl eq_refl eq_refl eq_refl eq_refl
                   eq_refl)).
  eexists. reflexivity.
Defined.
